(** * Relative-error statistics of sinq(): a shallow embedding of gcc-sinq.c

    The program draws random single-precision inputs, evaluates four native
    sine functions on them, widens each result into an MPFR number and feeds
    the relative error against an MPFR reference sine into a Welford
    accumulator (one per distribution and generator).

    Layout of this development:
    - [Dyadic]   : powers of two over [Q], magnitude, round-to-nearest-even;
    - [mpfr_*]   : the MPFR operations used by the program.  MPFR computes the
                   exact result and rounds it once to the precision of the
                   destination; that contract is what is modelled, with the
                   default exponent range of the library;
    - [stats_*]  : the accumulator of the source, statement by statement;
    - native formats, random inputs, the generators and the main loop follow;
    - the theorems come after all definitions: rounding, the accumulator,
      the distributions, the main loop, the widening of the native results,
      the order of rounded results and the growth of [m2];
    - further properties close the development: of the accumulator (counts,
      values that are not finite, equal samples, the range of the mean), of
      the three distributions, of the passes of [main], of [main] under the
      two signals, of the buffer of [getsin_q] and of the casts. *)

From Stdlib Require Import ZArith QArith Qround Qabs Qpower Qreduction.
From Stdlib Require Import Lia Psatz Bool List Ascii String.
From Stdlib Require Import Reals Machin Qreals.
From Stdlib Require Import Nnat.
Import ListNotations.

Local Open Scope Z_scope.

(** ** Powers of two and magnitudes over Q *)

Definition pow2 (e : Z) : Q := ((2 # 1) ^ e)%Q.

(** [Qmag x] is the MPFR exponent of a positive rational [x]: the integer [E]
    with [2^(E-1) <= x < 2^E]. *)
Definition Qmag (x : Q) : Z :=
  let E0 := Z.log2 (Qnum x) - Z.log2 (Zpos (Qden x)) in
  if Qle_bool (pow2 E0) x then E0 + 1 else E0.

(** Nearest integer, ties to even. *)
Definition Qrne (x : Q) : Z :=
  let f := Qfloor x in
  match Qcompare (x - inject_Z f) (1 # 2) with
  | Lt => f
  | Gt => f + 1
  | Eq => if Z.even f then f else f + 1
  end.

(** ** MPFR numbers *)

(** The value held by an [mpfr_t] variable.  A regular number is
    [(-1)^neg * m * 2^e]; the canonical form has [m] odd. *)
Inductive mpfr_t : Type :=
| MNaN
| MInf (neg : bool)
| MZero (neg : bool)
| MFin (neg : bool) (m : positive) (e : Z).

(** Default exponent range of the library: a regular number lies in
    [2^(emin-1), 2^emax). *)
Definition mpfr_emin : Z := 1 - 2 ^ 30.
Definition mpfr_emax : Z := 2 ^ 30 - 1.

(** [#define MPFR_PREC ((mpfr_prec_t)512)] *)
Definition MPFR_PREC : Z := 512.

Fixpoint normalize (m : positive) (e : Z) : positive * Z :=
  match m with
  | xO m' => normalize m' (e + 1)
  | _ => (m, e)
  end.

Definition mk_fin (neg : bool) (N : Z) (e : Z) : mpfr_t :=
  match N with
  | Zpos m => let '(m', e') := normalize m e in MFin neg m' e'
  | _ => MZero neg
  end.

Definition sgnQ (neg : bool) : Q := if neg then (-1 # 1)%Q else 1%Q.

Definition toQ (x : mpfr_t) : Q :=
  match x with
  | MFin s m e => (sgnQ s * (inject_Z (Zpos m) * pow2 e))%Q
  | _ => 0%Q
  end.

(** Correct rounding to nearest (MPFR_RNDN) of a positive rational [ax] to
    [p] bits, the result carrying the sign [neg].  The number is first rounded
    with an unbounded exponent; an exponent above [emax] gives an infinity, an
    exponent below [emin] an underflow, which in this mode gives zero when the
    exact value is at most half the smallest positive number and that smallest
    number otherwise. *)
Definition round_pos (p : Z) (neg : bool) (ax : Q) : mpfr_t :=
  let E := Qmag ax in
  let N := Qrne (ax / pow2 (E - p)) in
  let E' := if N =? 2 ^ p then E + 1 else E in
  if mpfr_emax <? E' then MInf neg
  else if E' <? mpfr_emin then
    (if Qle_bool ax (pow2 (mpfr_emin - 2)) then MZero neg
     else MFin neg 1 (mpfr_emin - 1))
  else mk_fin neg N (E - p).

(** Rounding of an exact result; an exact zero is [+0] in this mode. *)
Definition mpfr_round (p : Z) (x : Q) : mpfr_t :=
  match Qcompare x 0 with
  | Eq => MZero false
  | Lt => round_pos p true (Qabs x)
  | Gt => round_pos p false (Qabs x)
  end.

Definition mpfr_neg_val (x : mpfr_t) : mpfr_t :=
  match x with
  | MNaN => MNaN
  | MInf s => MInf (negb s)
  | MZero s => MZero (negb s)
  | MFin s m e => MFin (negb s) m e
  end.

Definition is_regular (x : mpfr_t) : bool :=
  match x with MFin _ _ _ => true | _ => false end.

(** [mpfr_number_p]: neither NaN nor an infinity. *)
Definition mpfr_number_p (x : mpfr_t) : bool :=
  match x with MNaN | MInf _ => false | _ => true end.

Definition mpfr_zero_p (x : mpfr_t) : bool :=
  match x with MZero _ => true | _ => false end.

Definition mpfr_signbit (x : mpfr_t) : bool :=
  match x with
  | MInf s | MZero s | MFin s _ _ => s
  | MNaN => false
  end.

(** [mpfr_set (rop, op, MPFR_RNDN)] *)
Definition mpfr_set (p : Z) (x : mpfr_t) : mpfr_t :=
  match x with
  | MFin _ _ _ => mpfr_round p (toQ x)
  | _ => x
  end.

(** [mpfr_set_ui (rop, u, MPFR_RNDN)] *)
Definition mpfr_set_ui (p : Z) (u : Z) : mpfr_t :=
  mpfr_round p (inject_Z u).

(** [mpfr_add (rop, x, y, MPFR_RNDN)] *)
Definition mpfr_add (p : Z) (x y : mpfr_t) : mpfr_t :=
  match x, y with
  | MNaN, _ | _, MNaN => MNaN
  | MInf a, MInf b => if Bool.eqb a b then MInf a else MNaN
  | MInf a, _ => MInf a
  | _, MInf b => MInf b
  | MZero a, MZero b => MZero (a && b)
  | _, _ => mpfr_round p (toQ x + toQ y)
  end.

(** [mpfr_sub (rop, x, y, MPFR_RNDN)] *)
Definition mpfr_sub (p : Z) (x y : mpfr_t) : mpfr_t :=
  match x, y with
  | MNaN, _ | _, MNaN => MNaN
  | MInf a, MInf b => if Bool.eqb a b then MNaN else MInf a
  | MInf a, _ => MInf a
  | _, MInf b => MInf (negb b)
  | MZero a, MZero b => MZero (a && negb b)
  | _, _ => mpfr_round p (toQ x - toQ y)
  end.

(** [mpfr_abs (rop, x, MPFR_RNDN)] *)
Definition mpfr_abs (p : Z) (x : mpfr_t) : mpfr_t :=
  match x with
  | MNaN => MNaN
  | MInf _ => MInf false
  | MZero _ => MZero false
  | MFin _ _ _ => mpfr_round p (Qabs (toQ x))
  end.

(** [mpfr_div (rop, x, y, MPFR_RNDN)] *)
Definition mpfr_div (p : Z) (x y : mpfr_t) : mpfr_t :=
  match x, y with
  | MNaN, _ | _, MNaN => MNaN
  | MInf _, MInf _ => MNaN
  | MZero _, MZero _ => MNaN
  | MInf a, _ => MInf (xorb a (mpfr_signbit y))
  | _, MInf b => MZero (xorb (mpfr_signbit x) b)
  | MZero a, _ => MZero (xorb a (mpfr_signbit y))
  | _, MZero b => MInf (xorb (mpfr_signbit x) b)
  | _, _ => mpfr_round p (toQ x / toQ y)
  end.

(** [mpfr_div_ui (rop, x, u, MPFR_RNDN)], [u] an [unsigned long]. *)
Definition mpfr_div_ui (p : Z) (x : mpfr_t) (u : Z) : mpfr_t :=
  match x with
  | MNaN => MNaN
  | MInf a => MInf a
  | MZero a => if u =? 0 then MNaN else MZero a
  | MFin a _ _ =>
      if u =? 0 then MInf a else mpfr_round p (toQ x / inject_Z u)
  end.

(** [mpfr_mul (rop, x, y, MPFR_RNDN)] *)
Definition mpfr_mul (p : Z) (x y : mpfr_t) : mpfr_t :=
  match x, y with
  | MNaN, _ | _, MNaN => MNaN
  | MInf _, MZero _ | MZero _, MInf _ => MNaN
  | MInf a, _ => MInf (xorb a (mpfr_signbit y))
  | _, MInf b => MInf (xorb (mpfr_signbit x) b)
  | MZero a, _ => MZero (xorb a (mpfr_signbit y))
  | _, MZero b => MZero (xorb (mpfr_signbit x) b)
  | _, _ => mpfr_round p (toQ x * toQ y)
  end.

(** [mpfr_fma (rop, x, y, z, MPFR_RNDN)]: [x*y + z] with one rounding. *)
Definition mpfr_fma (p : Z) (x y z : mpfr_t) : mpfr_t :=
  match x, y, z with
  | MNaN, _, _ | _, MNaN, _ | _, _, MNaN => MNaN
  | MInf _, MZero _, _ | MZero _, MInf _, _ => MNaN
  | MInf a, _, _ =>
      let s := xorb a (mpfr_signbit y) in
      match z with
      | MInf c => if Bool.eqb s c then MInf s else MNaN
      | _ => MInf s
      end
  | _, MInf b, _ =>
      let s := xorb (mpfr_signbit x) b in
      match z with
      | MInf c => if Bool.eqb s c then MInf s else MNaN
      | _ => MInf s
      end
  | _, _, MInf c => MInf c
  | MZero a, _, _ =>
      let s := xorb a (mpfr_signbit y) in
      match z with
      | MZero c => MZero (s && c)
      | _ => mpfr_set p z
      end
  | _, MZero b, _ =>
      let s := xorb (mpfr_signbit x) b in
      match z with
      | MZero c => MZero (s && c)
      | _ => mpfr_set p z
      end
  | _, _, _ => mpfr_round p (toQ x * toQ y + toQ z)
  end.

(** [mpfr_sqrt (rop, x, MPFR_RNDN)].  For a regular positive [x = m * 2^e]
    the integer square root [s] of a scaled significand is taken with at
    least [p + 2] bits; when the root is inexact, [s + 1/2] lies strictly
    between the same two neighbouring [p+1]-bit numbers as the real root, so
    rounding it gives the correctly rounded root. *)
Definition mpfr_sqrt (p : Z) (x : mpfr_t) : mpfr_t :=
  match x with
  | MNaN => MNaN
  | MInf false => MInf false
  | MInf true => MNaN
  | MZero s => MZero s
  | MFin true _ _ => MNaN
  | MFin false m e =>
      let k0 := Z.max 0 (2 * p + 4 - Z.log2 (Zpos m)) in
      let k := if Z.even (e - k0) then k0 else k0 + 1 in
      let M := Zpos m * 2 ^ k in
      let s := Z.sqrt M in
      let h := (e - k) / 2 in
      if s * s =? M then mpfr_round p (inject_Z s * pow2 h)
      else mpfr_round p ((inject_Z (2 * s + 1) / (2 # 1)) * pow2 h)
  end.

(** The value a variable declared with [MPFR_DECL_INIT (name, prec)] holds
    before it is assigned: the library initialises it to NaN. *)
Definition MPFR_DECL_INIT : mpfr_t := MNaN.

(** [mpfr_fits p x]: [x] is a value that a variable of precision [p] can
    hold: a regular number is canonical, has at most [p] significant bits and
    its exponent lies in the exponent range. *)
Definition mpfr_fits (p : Z) (x : mpfr_t) : bool :=
  match x with
  | MFin _ m e =>
      Z.odd (Zpos m) && (Z.log2 (Zpos m) <? p)
      && (mpfr_emin <=? e + Z.log2 (Zpos m) + 1)
      && (e + Z.log2 (Zpos m) + 1 <=? mpfr_emax)
  | _ => true
  end.

(** [mpfr_lessequal_p (x, y)] *)
Definition mpfr_lessequal_p (x y : mpfr_t) : bool :=
  match x, y with
  | MNaN, _ | _, MNaN => false
  | MInf true, _ => true
  | _, MInf false => true
  | MInf false, _ => false
  | _, MInf true => false
  | _, _ => Qle_bool (toQ x) (toQ y)
  end.

(** ** The accumulator: [stats_t], [stats_init], [stats_add], [stats_print] *)

(** [unsigned long] on the LP64 targets of GCC that provide [__float128]. *)
Definition ULONG_MAX : Z := 2 ^ 64 - 1.
Definition ulong (z : Z) : Z := z mod 2 ^ 64.

(** [typedef struct stats_s { const char *distribution, *generator;
                              unsigned long n; mpfr_t mean, m2; } stats_t;] *)
Record stats_t : Type := {
  distribution : string;
  generator : string;
  n : Z;
  mean : mpfr_t;
  m2 : mpfr_t
}.

(** [stats_init]: both MPFR fields get precision [MPFR_PREC] here, and no
    other code changes a precision; every result stored in [mean] or [m2] is
    therefore rounded to [MPFR_PREC] bits. *)
Definition stats_init (dist gen : string) : stats_t :=
  {| distribution := dist;
     generator := gen;
     n := 0;
     mean := mpfr_set_ui MPFR_PREC 0;
     m2 := mpfr_set_ui MPFR_PREC 0 |}.

(** The relative change computed at the head of [stats_add]:
    [mpfr_sub (diff, y, ref)], [mpfr_abs (reldiff, ref)],
    [mpfr_div (reldiff, diff, reldiff)]. *)
Definition stats_reldiff (y ref : mpfr_t) : mpfr_t :=
  let diff := mpfr_sub MPFR_PREC y ref in
  let reldiff := mpfr_abs MPFR_PREC ref in
  mpfr_div MPFR_PREC diff reldiff.

(** [stats_add], one [let] per statement of the source. *)
Definition stats_add (stats : stats_t) (y ref : mpfr_t) : stats_t :=
  let n1 := ulong (n stats + 1) in                            (* stats->n++ *)
  let diff := mpfr_sub MPFR_PREC y ref in
  let reldiff := mpfr_abs MPFR_PREC ref in
  let reldiff := mpfr_div MPFR_PREC diff reldiff in
  let delta := mpfr_sub MPFR_PREC reldiff (mean stats) in
  let t := mpfr_div_ui MPFR_PREC delta n1 in
  let mean1 := mpfr_add MPFR_PREC (mean stats) t in
  let t := mpfr_sub MPFR_PREC reldiff mean1 in
  let m21 := mpfr_fma MPFR_PREC delta t (m2 stats) in
  {| distribution := distribution stats;
     generator := generator stats;
     n := n1;
     mean := mean1;
     m2 := m21 |}.

(** What [stats_print] writes, one constructor per [mpfr_fprintf] call.  The
    decimal formatting of the numbers is not modelled: a line carries the
    value it prints. *)
Inductive line : Type :=
| LHeader (dist gen : string)
| LSamples (count : Z)
| LMean (v : mpfr_t)
| LVariance (v : mpfr_t)
| LStddev (v : mpfr_t)
| LBlank.

Definition FILE : Type := list line.

(** The two locals of [stats_print] after the [if]: both are declared with
    [MPFR_DECL_INIT] on every call and assigned only when [n > 1]. *)
Definition stats_variance_stddev (stats : stats_t) : mpfr_t * mpfr_t :=
  let variance := MPFR_DECL_INIT in
  let stddev := MPFR_DECL_INIT in
  if 1 <? n stats then
    let variance := mpfr_div_ui MPFR_PREC (m2 stats) (ulong (n stats - 1)) in
    let stddev := mpfr_sqrt MPFR_PREC variance in
    (variance, stddev)
  else (variance, stddev).

(** [stats_print (const stats_t *stats, FILE *fh)]: the cell is passed
    read-only and the stream grows by six lines. *)
Definition stats_print (stats : stats_t) (fh : FILE) : FILE :=
  let fh := fh ++ [LHeader (distribution stats) (generator stats)] in
  let fh := fh ++ [LSamples (n stats)] in
  let fh := fh ++ [LMean (mean stats)] in
  let '(variance, stddev) := stats_variance_stddev stats in
  let fh := fh ++ [LVariance variance] in
  let fh := fh ++ [LStddev stddev] in
  fh ++ [LBlank].

(** A sequence of [stats_add] calls on one cell. *)
Definition stats_add_all (stats : stats_t) (l : list (mpfr_t * mpfr_t)) : stats_t :=
  fold_left (fun c yr => stats_add c (fst yr) (snd yr)) l stats.

(** ** Native floating-point formats *)

(** An IEEE 754 binary interchange format: width of the exponent field and of
    the fraction field.  A native number is modelled as its bit pattern, the
    way the unions of the source see a [float]. *)
Record ieee_format : Type := { ebits : Z; mbits : Z }.

Definition binary32 : ieee_format := {| ebits := 8; mbits := 23 |}.
Definition binary64 : ieee_format := {| ebits := 11; mbits := 52 |}.
Definition binary128 : ieee_format := {| ebits := 15; mbits := 112 |}.

Definition ieee_bias (f : ieee_format) : Z := 2 ^ (ebits f - 1) - 1.
(** Exponent of the last fraction bit of the subnormal numbers. *)
Definition ieee_emin (f : ieee_format) : Z := 1 - ieee_bias f - mbits f.
Definition ieee_sign_bit (f : ieee_format) : Z := 2 ^ (ebits f + mbits f).
Definition ieee_inf (f : ieee_format) : Z := (2 ^ ebits f - 1) * 2 ^ mbits f.
Definition ieee_nan (f : ieee_format) : Z := ieee_inf f + 2 ^ (mbits f - 1).

Definition ieee_exp_field (f : ieee_format) (bits : Z) : Z :=
  Z.land (Z.shiftr bits (mbits f)) (Z.ones (ebits f)).
Definition ieee_frac_field (f : ieee_format) (bits : Z) : Z :=
  Z.land bits (Z.ones (mbits f)).

(** The number a bit pattern denotes, written as the MPFR number of the same
    value (NaN, an infinity, a signed zero or a canonical regular number). *)
Definition ieee_val (f : ieee_format) (bits : Z) : mpfr_t :=
  let sign := Z.testbit bits (ebits f + mbits f) in
  let ex := ieee_exp_field f bits in
  let frac := ieee_frac_field f bits in
  if ex =? Z.ones (ebits f) then (if frac =? 0 then MInf sign else MNaN)
  else if ex =? 0 then mk_fin sign frac (ieee_emin f)
  else mk_fin sign (2 ^ mbits f + frac) (ex - 1 + ieee_emin f).

(** Round to nearest, ties to even, of a positive rational into the format:
    [mbits + 1] significant bits, gradual underflow, overflow to infinity.
    Exponent field and fraction are packed by one addition, so that a carry
    out of the fraction moves into the exponent. *)
Definition ieee_round (f : ieee_format) (neg : bool) (ax : Q) : Z :=
  let e := Z.max (Qmag ax - (mbits f + 1)) (ieee_emin f) in
  let N := Qrne (ax / pow2 e) in
  let bits := (e - ieee_emin f) * 2 ^ mbits f + N in
  (if ieee_inf f <=? bits then ieee_inf f else bits)
  + (if neg then ieee_sign_bit f else 0).

(** Conversion of a value into the format. *)
Definition ieee_of_val (f : ieee_format) (v : mpfr_t) : Z :=
  match v with
  | MNaN => ieee_nan f
  | MInf s => ieee_inf f + (if s then ieee_sign_bit f else 0)
  | MZero s => if s then ieee_sign_bit f else 0
  | MFin s _ _ => ieee_round f s (Qabs (toQ v))
  end.

Definition float_val : Z -> mpfr_t := ieee_val binary32.
Definition double_val : Z -> mpfr_t := ieee_val binary64.
Definition float128_val : Z -> mpfr_t := ieee_val binary128.

(** [isfinite] on a [float]: the exponent field is not all ones. *)
Definition float_isfinite (x : Z) : bool :=
  negb (Z.land x 0x7F800000 =? 0x7F800000).

(** Conversion of an [unsigned long] to [float]. *)
Definition float_of_ulong (u : Z) : Z :=
  if u =? 0 then 0 else ieee_round binary32 false (inject_Z u).

(** Division of two [float]s. *)
Definition float_div (a b : Z) : Z :=
  let x := float_val a in
  let y := float_val b in
  let s := xorb (mpfr_signbit x) (mpfr_signbit y) in
  match x, y with
  | MNaN, _ | _, MNaN => ieee_nan binary32
  | MInf _, MInf _ | MZero _, MZero _ => ieee_nan binary32
  | MInf _, _ | _, MZero _ => ieee_of_val binary32 (MInf s)
  | _, MInf _ | MZero _, _ => ieee_of_val binary32 (MZero s)
  | _, _ => ieee_round binary32 s (Qabs (toQ x / toQ y))
  end.

(** The widening casts [(double) phase] and [(__float128) phase]. *)
Definition double_of_float (x : Z) : Z := ieee_of_val binary64 (float_val x).
Definition float128_of_float (x : Z) : Z := ieee_of_val binary128 (float_val x).

(** [long double] of x86: sign, 15 exponent bits and a 64-bit significand
    whose leading bit is explicit. *)
Definition long_double_val (bits : Z) : mpfr_t :=
  let sign := Z.testbit bits 79 in
  let ex := Z.land (Z.shiftr bits 64) (Z.ones 15) in
  let sig := Z.land bits (Z.ones 64) in
  if ex =? Z.ones 15 then (if sig =? 2 ^ 63 then MInf sign else MNaN)
  else mk_fin sign sig (Z.max ex 1 - 16383 - 63).

Definition long_double_round (neg : bool) (ax : Q) : Z :=
  let e := Z.max (Qmag ax - 64) (1 - 16383 - 63) in
  let N := Qrne (ax / pow2 e) in
  let '(N, e) := if N =? 2 ^ 64 then (2 ^ 63, e + 1) else (N, e) in
  let ex := if N <? 2 ^ 63 then 0 else e + 16383 + 63 in
  (if Z.ones 15 <=? ex then Z.ones 15 * 2 ^ 64 + 2 ^ 63 else ex * 2 ^ 64 + N)
  + (if neg then 2 ^ 79 else 0).

(** The cast [(long double) phase]. *)
Definition long_double_of_float (x : Z) : Z :=
  match float_val x with
  | MNaN => Z.ones 15 * 2 ^ 64 + 2 ^ 63 + 2 ^ 62
  | MInf s => Z.ones 15 * 2 ^ 64 + 2 ^ 63 + (if s then 2 ^ 79 else 0)
  | MZero s => if s then 2 ^ 79 else 0
  | MFin s _ _ as v => long_double_round s (Qabs (toQ v))
  end.

(** [mpfr_set_flt], [mpfr_set_d], [mpfr_set_ld] with MPFR_RNDN: the value of
    the native number, rounded to the precision [p] of the destination. *)
Definition mpfr_set_flt (p : Z) (x : Z) : mpfr_t := mpfr_set p (float_val x).
Definition mpfr_set_d (p : Z) (x : Z) : mpfr_t := mpfr_set p (double_val x).
Definition mpfr_set_ld (p : Z) (x : Z) : mpfr_t := mpfr_set p (long_double_val x).

(** ** Hardcoded representations of values just above PI/2 *)

(** [static const float gt_pid2 = 0x1.921fb6p+0;] as a bit pattern. *)
Definition gt_pid2 : Z := 0x3fc90fdb.
(** [static const uint32_t gt_pid2_int = 0x3fc90fdb;] *)
Definition gt_pid2_int : Z := 0x3fc90fdb.
(** [static const uint32_t gt_pid2_ls23_int = 13176795;] *)
Definition gt_pid2_ls23_int : Z := 13176795.

Definition uint32 (z : Z) : Z := z mod 2 ^ 32.

(** ** The hexadecimal string between [sinq] and MPFR *)

Local Open Scope char_scope.

Definition hex_char (d : Z) : ascii :=
  match d with
  | 0 => "0" | 1 => "1" | 2 => "2" | 3 => "3" | 4 => "4" | 5 => "5" | 6 => "6"
  | 7 => "7" | 8 => "8" | 9 => "9" | 10 => "a" | 11 => "b" | 12 => "c"
  | 13 => "d" | 14 => "e" | _ => "f"
  end%Z.

(** Exactly [count] hexadecimal digits of [v], most significant first. *)
Fixpoint hex_digits (count : nat) (v : Z) : list ascii :=
  match count with
  | O => []
  | S c => hex_digits c (v / 16) ++ [hex_char (v mod 16)]
  end.

(** Decimal digits of [v >= 0] without leading zeros (at most [fuel + 1]). *)
Fixpoint dec_digits (fuel : nat) (v : Z) : list ascii :=
  match fuel with
  | O => [hex_char (v mod 10)]
  | S f => if (v <? 10)%Z then [hex_char v]
           else dec_digits f (v / 10) ++ [hex_char (v mod 10)]
  end.

Fixpoint drop_trailing_zeros (l : list ascii) : list ascii :=
  match l with
  | [] => []
  | c :: t =>
      match drop_trailing_zeros t with
      | [] => if Ascii.eqb c "0" then [] else [c]
      | t' => c :: t'
      end
  end.

(** The characters ["%Qa"] prints for a [__float128]: sign, ["0x"], leading
    digit (0 for zero and subnormal numbers), the 28 fraction digits without
    trailing zeros behind a point when the fraction is not zero, ["p"] and the
    signed decimal exponent of two; ["inf"] and ["nan"] for the specials. *)
Definition printf_Qa (bits : Z) : list ascii :=
  let sign := Z.testbit bits 127 in
  let ex := ieee_exp_field binary128 bits in
  let frac := ieee_frac_field binary128 bits in
  (if sign then ["-"] else []) ++
  (if ex =? 32767 then
     (if frac =? 0 then ["i"; "n"; "f"] else ["n"; "a"; "n"])
   else
     let e := if ex =? 0 then (if frac =? 0 then 0 else -16382) else ex - 16383 in
     ["0"; "x"; if ex =? 0 then "0" else "1"]
     ++ (if frac =? 0 then [] else "." :: drop_trailing_zeros (hex_digits 28 frac))
     ++ ["p"; if e <? 0 then "-" else "+"] ++ dec_digits 19 (Z.abs e))%Z.

(** [quadmath_snprintf (s, size, "%Qa", x)]: at most [size - 1] characters
    are stored in [s]. *)
Definition quadmath_snprintf (size : nat) (x : Z) : list ascii :=
  firstn (size - 1) (printf_Qa x).

Definition digit_value (c : ascii) : option Z :=
  let k := Z.of_nat (nat_of_ascii c) in
  (if (48 <=? k) && (k <=? 57) then Some (k - 48)
   else if (97 <=? k) && (k <=? 122) then Some (k - 87)
   else if (65 <=? k) && (k <=? 90) then Some (k - 55)
   else None)%Z.

(** Reads digits of the base, extending the number [acc] and the count
    [cnt]; stops in front of the first other character. *)
Fixpoint parse_digits (base : Z) (s : list ascii) (acc cnt : Z) : Z * Z * list ascii :=
  match s with
  | c :: rest =>
      match digit_value c with
      | Some d => if (d <? base)%Z
                  then parse_digits base rest (acc * base + d)%Z (cnt + 1)%Z
                  else (acc, cnt, s)
      | None => (acc, cnt, s)
      end
  | [] => (acc, cnt, s)
  end.

Definition lower (c : ascii) : ascii :=
  let k := nat_of_ascii c in
  if ((65 <=? k) && (k <=? 90))%nat then ascii_of_nat (k + 32) else c.

Fixpoint skip_prefix (word s : list ascii) : option (list ascii) :=
  match word, s with
  | [], _ => Some s
  | w :: word', c :: s' => if Ascii.eqb w (lower c) then skip_prefix word' s' else None
  | _ :: _, [] => None
  end.

Definition isspace (c : ascii) : bool :=
  let k := nat_of_ascii c in ((k =? 32) || ((9 <=? k) && (k <=? 13)))%nat.

Fixpoint skip_space (s : list ascii) : list ascii :=
  match s with
  | c :: t => if isspace c then skip_space t else s
  | [] => []
  end.

(** Signed decimal exponent behind an exponent character; [None] when no
    digit follows. *)
Definition parse_exponent (s : list ascii) : option (Z * list ascii) :=
  let '(neg, s1) := match s with
                    | "-" :: t => (true, t)
                    | "+" :: t => (false, t)
                    | _ => (false, s)
                    end in
  let '(v, cnt, rest) := parse_digits 10 s1 0 0 in
  if (cnt =? 0)%Z then None else Some (if neg then (- v)%Z else v, rest).

(** The scale an exponent part multiplies the digits by, and the rest of
    the string: in bases 2 and 16 ["p"] introduces a decimal exponent of two,
    in base 10 ["e"] an exponent of ten, and ["@"] an exponent of the base.
    An exponent character without digits behind it is not consumed. *)
Definition parse_scale (base : Z) (s : list ascii) : Q * list ascii :=
  match s with
  | c :: t =>
      if (Ascii.eqb (lower c) "p" && negb (base =? 10)%Z)%bool then
        match parse_exponent t with
        | Some (e, r) => (pow2 e, r)
        | None => (1%Q, s)
        end
      else if (Ascii.eqb c "@" || (Ascii.eqb (lower c) "e" && (base =? 10)%Z))%bool then
        match parse_exponent t with
        | Some (e, r) => ((inject_Z base ^ e)%Q, r)
        | None => (1%Q, s)
        end
      else (1%Q, s)
  | [] => (1%Q, s)
  end.

(** Digits with an optional point and an optional exponent part, read in
    [base] and rounded to [p] bits with the sign [neg]; [None] when there is
    no digit. *)
Definition parse_number (p : Z) (neg : bool) (base : Z) (s : list ascii)
  : option (mpfr_t * list ascii) :=
  let '(m1, c1, s3) := parse_digits base s 0 0 in
  let '(m2, c2, s4) := match s3 with
                       | "." :: t => parse_digits base t m1 0
                       | _ => (m1, 0%Z, s3)
                       end in
  if (c1 + c2 =? 0)%Z then None
  else
    let '(scale, s5) := parse_scale base s4 in
    let q := (inject_Z m2 * (inject_Z base ^ (- c2)) * scale)%Q in
    Some (if (m2 =? 0)%Z then MZero neg else round_pos p neg q, s5).

(** [mpfr_strtofr (x, s, &end, 0, MPFR_RNDN)]: the number read from the
    longest valid prefix of [s], rounded to [p] bits, and the rest of the
    string.  With base 0 a prefix ["0x"] selects base 16 and ["0b"] base 2. *)
Definition mpfr_strtofr (p : Z) (s : list ascii) : mpfr_t * list ascii :=
  let s0 := skip_space s in
  let '(neg, s1) := match s0 with
                    | "-" :: t => (true, t)
                    | "+" :: t => (false, t)
                    | _ => (false, s0)
                    end in
  match skip_prefix ["n"; "a"; "n"] s1, skip_prefix ["i"; "n"; "f"] s1 with
  | Some rest, _ => (MNaN, rest)
  | None, Some rest =>
      match skip_prefix ["i"; "n"; "i"; "t"; "y"] rest with
      | Some rest' => (MInf neg, rest')
      | None => (MInf neg, rest)
      end
  | None, None =>
      let prefixed :=
        match s1 with
        | "0" :: c :: t =>
            if Ascii.eqb (lower c) "x" then parse_number p neg 16%Z t
            else if Ascii.eqb (lower c) "b" then parse_number p neg 2%Z t
            else None
        | _ => None
        end in
      match prefixed with
      | Some r => r
      | None =>
          match parse_number p neg 10%Z s1 with
          | Some r => r
          | None => (MZero false, s)
          end
      end
  end.

(** [mpfr_set_str (x, s, 0, MPFR_RNDN)]: the value left in [x], and the
    status, 0 when the whole string was a number and -1 otherwise. *)
Definition mpfr_set_str (p : Z) (s : list ascii) : mpfr_t * Z :=
  let '(v, rest) := mpfr_strtofr p s in
  (v, match rest with [] => 0%Z | _ => (-1)%Z end).

(** The number a list of digits denotes in [base], continuing from [acc]. *)
Definition digits_value (base : Z) (l : list ascii) (acc : Z) : Z :=
  fold_left (fun a c => match digit_value c with
                        | Some d => a * base + d
                        | None => a
                        end)%Z l acc.

Definition all_digits (base : Z) (l : list ascii) : Prop :=
  Forall (fun c => exists d, digit_value c = Some d /\ (0 <= d < base)%Z) l.

Local Close Scope char_scope.

(** ** External libraries *)

(** The GMP random state and the two draws the program makes.  A draw
    returns the advanced state and the integer. *)
Class GmpRandom : Type := {
  gmp_randstate_t : Type;
  (** [gmp_randinit_mt] followed by [gmp_randseed_ui (state, seed)] *)
  gmp_randseed_ui : Z -> gmp_randstate_t;
  (** [gmp_urandomm_ui (state, n)]: an integer in [0, n-1] *)
  gmp_urandomm_ui : gmp_randstate_t -> Z -> gmp_randstate_t * Z;
  (** [gmp_urandomb_ui (state, bits)]: an integer in [0, 2^bits - 1] *)
  gmp_urandomb_ui : gmp_randstate_t -> Z -> gmp_randstate_t * Z
}.

(** What the GMP manual promises about the range of a draw. *)
Definition gmp_random_range `{GmpRandom} : Prop :=
  (forall st k, 0 < k <= ULONG_MAX -> 0 <= snd (gmp_urandomm_ui st k) < k) /\
  (forall st b, 0 <= b <= 64 -> 0 <= snd (gmp_urandomb_ui st b) < 2 ^ b).

(** The native sine functions, on bit patterns of their formats, and the
    MPFR sine at the precision of its destination. *)
Class SineLibraries : Type := {
  sinf : Z -> Z;
  sin : Z -> Z;
  sinl : Z -> Z;
  sinq : Z -> Z;
  mpfr_sin : Z -> mpfr_t -> mpfr_t
}.

Section Engine.
Context `{GmpRandom} `{SineLibraries}.

(** ** Random inputs *)

(** [getrandom_1]: a bit pattern below that of [gt_pid2], read as a float. *)
Definition getrandom_1 (state : gmp_randstate_t) : gmp_randstate_t * Z :=
  let '(state, r) := gmp_urandomm_ui state gt_pid2_int in
  let x_ui := uint32 r in
  (state, x_ui).

(** [getrandom_2]: an integer below [gt_pid2_ls23_int], converted to float
    and divided by [1LU << 23] in float arithmetic. *)
Definition getrandom_2 (state : gmp_randstate_t) : gmp_randstate_t * Z :=
  let '(state, r) := gmp_urandomm_ui state gt_pid2_ls23_int in
  let f := float_of_ulong r in
  (state, float_div f (float_of_ulong (Z.shiftl 1 23))).

(** [getrandom_3]: 32 random bits, drawn again while the exponent field is
    all ones.  [fuel] bounds the number of draws. *)
Fixpoint getrandom_3 (fuel : nat) (state : gmp_randstate_t)
  : option (gmp_randstate_t * Z) :=
  match fuel with
  | O => None
  | S fuel' =>
      let '(state, r) := gmp_urandomb_ui state 32 in
      let x_ui := uint32 r in
      if Z.land x_ui 0x7F800000 =? 0x7F800000
      then getrandom_3 fuel' state
      else Some (state, x_ui)
  end.

(** The state after [k] draws of 32 bits, and whether the next draw from a
    state is accepted by the loop of [getrandom_3]. *)
Fixpoint draws32 (k : nat) (state : gmp_randstate_t) : gmp_randstate_t :=
  match k with
  | O => state
  | S k' => draws32 k' (fst (gmp_urandomb_ui state 32))
  end.

Definition accepted32 (state : gmp_randstate_t) : bool :=
  negb (Z.land (uint32 (snd (gmp_urandomb_ui state 32))) 0x7F800000 =? 0x7F800000).

(** The table [distribution[]]: name and code. *)
Definition distribution_table
  : list (string * (nat -> gmp_randstate_t -> option (gmp_randstate_t * Z))) :=
  [ ("+0 <= x < PI/2, non-uniform"%string, fun _ st => Some (getrandom_1 st));
    ("+0 <= x < PI/2, uniform"%string, fun _ st => Some (getrandom_2 st));
    ("all floats"%string, getrandom_3) ].

(** ** Sine generators: the value stored in [y], whose precision is [p] *)

Definition getsin_flt (p : Z) (phase : Z) : mpfr_t :=
  mpfr_set_flt p (sinf phase).

Definition getsin_d (p : Z) (phase : Z) : mpfr_t :=
  mpfr_set_d p (sin (double_of_float phase)).

Definition getsin_ld (p : Z) (phase : Z) : mpfr_t :=
  mpfr_set_ld p (sinl (long_double_of_float phase)).

Definition getsin_q (p : Z) (phase : Z) : mpfr_t :=
  let s := quadmath_snprintf 64 (sinq (float128_of_float phase)) in
  fst (mpfr_set_str p s).

(** The table [generator[]]. *)
Definition generator_table : list (string * (Z -> Z -> mpfr_t)) :=
  [ ("float"%string, getsin_flt);
    ("double"%string, getsin_d);
    ("long double"%string, getsin_ld);
    ("__float128"%string, getsin_q) ].

(** ** [main] *)

Definition NOBJS {A : Type} (table : list A) : nat := List.length table.

Definition default_cell : stats_t := stats_init "" "".

(** [stats[dist][gen]] and its update in place. *)
Definition cell (stats : list (list stats_t)) (dist gen : nat) : stats_t :=
  nth gen (nth dist stats []) default_cell.

Fixpoint list_set {A : Type} (i : nat) (x : A) (l : list A) : list A :=
  match l, i with
  | [], _ => []
  | _ :: t, O => x :: t
  | h :: t, S i' => h :: list_set i' x t
  end.

Definition cell_set (stats : list (list stats_t)) (dist gen : nat) (c : stats_t)
  : list (list stats_t) :=
  list_set dist (list_set gen c (nth dist stats [])) stats.

(** [for (size_t i = 0; i < count; i++) body], threading a state that a
    body can fail to produce. *)
Definition for_loop {S : Type} (count : nat) (body : nat -> S -> option S) (s : S)
  : option S :=
  fold_left (fun acc i => match acc with Some s => body i s | None => None end)
            (seq 0 count) (Some s).

(** The variables of [main] that change: the random state, the matrix of
    cells and what has been written to [stdout]. *)
Record engine : Type := {
  randstate : gmp_randstate_t;
  stats : list (list stats_t);
  stdout : FILE
}.

(** Precision of [mpfrtemp]: [MPFR_DECL_INIT (mpfrtemp, 128+16)]. *)
Definition mpfrtemp_prec : Z := 128 + 16.

(** The two initialisation loops and the seeding. *)
Definition main_init : engine :=
  {| randstate := gmp_randseed_ui 1111;
     stats := map (fun d => map (fun g => stats_init (fst d) (fst g)) generator_table)
                  distribution_table;
     stdout := [] |}.

(** The inner loop over the generators for the sample [phase] of
    distribution [dist] and its reference sine [refsin]. *)
Definition compare_generators (dist : nat) (phase : Z) (refsin : mpfr_t)
    (st : list (list stats_t)) : list (list stats_t) :=
  fold_left
    (fun st gen =>
       let mpfrtemp := snd (nth gen generator_table (""%string, getsin_flt)) mpfrtemp_prec phase in
       cell_set st dist gen (stats_add (cell st dist gen) mpfrtemp refsin))
    (seq 0 (NOBJS generator_table)) st.

(** The loop over the distributions: one sample, its reference sine, then
    all generators. *)
Definition run_combinations (fuel : nat) (e : engine) : option engine :=
  for_loop (NOBJS distribution_table)
    (fun dist e =>
       match snd (nth dist distribution_table (""%string, fun _ _ => None)) fuel (randstate e) with
       | None => None
       | Some (state, phase) =>
           let mpfrtemp := mpfr_set_flt mpfrtemp_prec phase in
           let refsin := mpfr_sin MPFR_PREC mpfrtemp in
           Some {| randstate := state;
                   stats := compare_generators dist phase refsin (stats e);
                   stdout := stdout e |}
       end)
    e.

(** The two nested loops that print every cell. *)
Definition print_all (e : engine) : engine :=
  {| randstate := randstate e;
     stats := stats e;
     stdout :=
       fold_left
         (fun fh dist =>
            fold_left (fun fh gen => stats_print (cell (stats e) dist gen) fh)
                      (seq 0 (NOBJS generator_table)) fh)
         (seq 0 (NOBJS distribution_table)) (stdout e) |}.

(** One pass of [while (running)]; [print] is the flag the SIGHUP handler
    sets, as the pass finds it. *)
Definition main_iteration (fuel : nat) (print : bool) (e : engine) : option engine :=
  match run_combinations fuel e with
  | None => None
  | Some e => Some (if print then print_all e else e)
  end.

(** [K] passes of the loop; [hup k] tells whether pass [k] finds the print
    flag set. *)
Definition main_loop (fuel : nat) (hup : N -> bool) (K : N) : option engine :=
  snd (N.iter K
         (fun '(k, e) =>
            (N.succ k,
             match e with Some e => main_iteration fuel (hup k) e | None => None end))
         (0%N, Some main_init)).

(** [main] when SIGINT ends the loop after [K] passes: the final report. *)
Definition main (fuel : nat) (hup : N -> bool) (K : N) : option FILE :=
  match main_loop fuel hup K with
  | Some e => Some (stdout (print_all e))
  | None => None
  end.

(** The six lines [stats_print] writes for a cell. *)
Definition report_block (c : stats_t) : FILE :=
  [LHeader (distribution c) (generator c); LSamples (n c); LMean (mean c);
   LVariance (fst (stats_variance_stddev c));
   LStddev (snd (stats_variance_stddev c)); LBlank].

(** A full report: the blocks of all cells, row by row. *)
Definition report (st : list (list stats_t)) : FILE :=
  List.concat (map report_block (List.concat st)).

(** The matrix has one row per distribution and one cell per generator. *)
Definition matrix_shape (st : list (list stats_t)) : Prop :=
  List.length st = NOBJS distribution_table /\
  Forall (fun row => List.length row = NOBJS generator_table) st.

(** Every cell of the matrix has the count [v]. *)
Definition all_counts (v : Z) (st : list (list stats_t)) : Prop :=
  forall dist gen, (dist < 3)%nat -> (gen < 4)%nat -> n (cell st dist gen) = v.

(** One pass in the words of the specification: for each distribution, in
    table order, one sample; one reference sine of that sample, shared by the
    generators; one [stats_add] on each cell of the row, with the estimate of
    the generator of that column. *)
Definition recorded_row (row : list stats_t) (phase : Z) : list stats_t :=
  let refsin := mpfr_sin MPFR_PREC (mpfr_set_flt mpfrtemp_prec phase) in
  map (fun cg => stats_add (fst cg) (snd (snd cg) mpfrtemp_prec phase) refsin)
      (combine row generator_table).

Definition pass_spec (fuel : nat) (e : engine) : option engine :=
  let '(s1, x1) := getrandom_1 (randstate e) in
  let '(s2, x2) := getrandom_2 s1 in
  match getrandom_3 fuel s2 with
  | None => None
  | Some (s3, x3) =>
      Some {| randstate := s3;
              stats := map (fun rx => recorded_row (fst rx) (snd rx))
                           (combine (stats e) [x1; x2; x3]);
              stdout := stdout e |}
  end.

(** From every state, one of the next [fuel] draws of 32 bits is accepted by
    the loop of [getrandom_3]. *)
Definition source_fair (fuel : nat) : Prop :=
  forall st, exists k, (k < fuel)%nat /\ accepted32 (draws32 k st) = true.

End Engine.

(** ** A small random source and sine library for examples *)

(** A source that replays five recorded draws in a cycle; two of them are
    NaN patterns, which [getrandom_3] has to skip. *)
Definition recorded_draws : list Z :=
  [0x7FC00000; 0x3F000000; 0xFF800001; 0x40490FDB; 0x00000001].

Definition replay_random : GmpRandom :=
  {| gmp_randstate_t := nat;
     gmp_randseed_ui := fun _ => O;
     gmp_urandomm_ui := fun i k => (Nat.modulo (S i) 5, nth i recorded_draws 0 mod k);
     gmp_urandomb_ui := fun i b => (Nat.modulo (S i) 5, nth i recorded_draws 0 mod 2 ^ b) |}.

(** Placeholders for the sines: the input itself, and zero for long double. *)
Definition identity_sines : SineLibraries :=
  {| sinf := fun x => x;
     sin := fun x => x;
     sinl := fun x => 0;
     sinq := fun x => x;
     mpfr_sin := fun p x => mpfr_set p x |}.

(** ** Predicates and sample values used by the statements *)

(** [mpfr_get_exp (x)] of a regular number: [x] lies in [2^(E-1), 2^E). *)
Definition mpfr_get_exp (x : mpfr_t) : Z :=
  match x with
  | MFin _ m e => e + Z.log2 (Zpos m) + 1
  | _ => 0
  end.

(** The exponent of a regular number lies in the exponent range. *)
Definition mpfr_in_range (x : mpfr_t) : bool :=
  match x with
  | MFin _ _ _ => (mpfr_emin <=? mpfr_get_exp x) && (mpfr_get_exp x <=? mpfr_emax)
  | _ => true
  end.

(** [mpfr_equal_p (x, y)] *)
Definition mpfr_equal_p (x y : mpfr_t) : bool :=
  match x, y with
  | MNaN, _ | _, MNaN => false
  | MInf a, MInf b => Bool.eqb a b
  | MZero _, MZero _ => true
  | MFin _ _ _, MFin _ _ _ => Qeq_bool (toQ x) (toQ y)
  | _, _ => false
  end.

Definition mpfr_zero : mpfr_t := MZero false.
Definition mpfr_one : mpfr_t := MFin false 1 0.
Definition mpfr_two : mpfr_t := MFin false 1 1.

(** A cell whose counter holds [ULONG_MAX]. *)
Definition cell_at_max : stats_t :=
  {| distribution := "d"; generator := "g";
     n := ULONG_MAX; mean := MZero false; m2 := MZero false |}.

(** A cell after the two samples [(2, 1)] and [(0, 1)], whose relative
    changes are [+1] and [-1]. *)
Definition cell_plus_minus_one : stats_t :=
  stats_add (stats_add (stats_init "d" "g") mpfr_two mpfr_one) mpfr_zero mpfr_one.

(** The reading of [stats_print] in which, for [n <= 1], variance and
    standard deviation keep the values [last] of the previous report. *)
Definition carried_variance_stddev (last : mpfr_t * mpfr_t) (stats : stats_t)
  : mpfr_t * mpfr_t :=
  if 1 <? n stats then
    let variance := mpfr_div_ui MPFR_PREC (m2 stats) (n stats - 1) in
    (variance, mpfr_sqrt MPFR_PREC variance)
  else last.

(** The variance line of the [k]-th report (from 0) of an output stream. *)
Definition variance_line (k : nat) (fh : FILE) : line := nth (6 * k + 3) fh LBlank.

(** [x <= y] in the order of [mpfr_lessequal_p]. *)
Definition mle (x y : mpfr_t) : Prop := mpfr_lessequal_p x y = true.

(** [r] is the exact result [q] rounded to [p] bits, up to the sign of a
    zero result (which the operations fix by rules of their own). *)
Definition rounds_to (p : Z) (q : Q) (r : mpfr_t) : Prop :=
  r = mpfr_round p q \/ (mpfr_zero_p r = true /\ (q == 0)%Q).

(** Along a run of samples, every relative change and every
    [delta = reldiff - mean] is a number (neither NaN nor infinite). *)
Fixpoint run_finite (stats : stats_t) (l : list (mpfr_t * mpfr_t)) : Prop :=
  match l with
  | [] => True
  | yr :: l' =>
      mpfr_number_p (stats_reldiff (fst yr) (snd yr)) = true /\
      mpfr_number_p (mpfr_sub MPFR_PREC (stats_reldiff (fst yr) (snd yr)) (mean stats)) = true /\
      run_finite (stats_add stats (fst yr) (snd yr)) l'
  end.

(** [x] lies between [a] and [b], whichever of the two is the larger. *)
Definition mpfr_between (a x b : mpfr_t) : Prop :=
  (mle a x /\ mle x b) \/ (mle b x /\ mle x a).

(** What [stats_add] keeps true of a cell while its inputs stay finite:
    the mean is a number, [m2] is not negative, both hold [MPFR_PREC] bits,
    and a cell without samples has the mean zero. *)
Definition welford_inv (stats : stats_t) : Prop :=
  mpfr_number_p (mean stats) = true /\
  mpfr_fits MPFR_PREC (mean stats) = true /\
  mle (MZero false) (m2 stats) /\
  mpfr_fits MPFR_PREC (m2 stats) = true /\
  0 <= n stats /\
  (n stats = 0 -> (toQ (mean stats) == 0)%Q).

(** [k] samples equal to their reference (relative change [+0]). *)
Definition unit_run (k : nat) : list (mpfr_t * mpfr_t) := repeat (mpfr_one, mpfr_one) k.

(** A fresh cell after [ULONG_MAX] such samples. *)
Definition cell_after_max_units : stats_t :=
  stats_add_all (stats_init "d" "g") (unit_run (Z.to_nat ULONG_MAX)).

(** Two samples of opposite, very large relative change: [y = 2^h] against
    [ref = -2^-h], and [y = -2^h] against [ref = 2^-h], with
    [2 h = emax - 1]. *)
Definition half_range : Z := 2 ^ 29 - 1.
Definition large_sample (neg : bool) : mpfr_t * mpfr_t :=
  (MFin neg 1 half_range, MFin (negb neg) 1 (- half_range)).

(** A fresh cell after the large positive sample. *)
Definition cell_large : stats_t :=
  stats_add (stats_init "d" "g") (fst (large_sample false)) (snd (large_sample false)).

(** ** Further notions used by the statements *)

(** A non-negative finite [float] counted in units of [2^-149], the
    smallest positive [float]. *)
Definition float_units (x : Z) : Z :=
  let ex := x / 2 ^ 23 in
  let frac := x mod 2 ^ 23 in
  if ex =? 0 then frac else (2 ^ 23 + frac) * 2 ^ (ex - 1).

(** The [j]-th draw of 32 bits from a state, as the [uint32_t] the loop of
    [getrandom_3] tests. *)
Definition draw32 `{GmpRandom} (j : nat) (state : gmp_randstate_t) : Z :=
  uint32 (snd (gmp_urandomb_ui (draws32 j state) 32)).

Section EngineRuns.
Context `{GmpRandom} `{SineLibraries}.

(** The three samples of one pass, in the order the loop over the
    distributions draws them. *)
Definition pass_phases (fuel : nat) (state : gmp_randstate_t) : option (list Z) :=
  let '(s1, x1) := getrandom_1 state in
  let '(s2, x2) := getrandom_2 s1 in
  match getrandom_3 fuel s2 with
  | Some (_, x3) => Some [x1; x2; x3]
  | None => None
  end.

(** [k] passes of the two sampling loops, from any state of the engine. *)
Fixpoint run_passes (fuel : nat) (k : nat) (e : engine) : option engine :=
  match k with
  | O => Some e
  | S k' =>
      match run_combinations fuel e with
      | Some e' => run_passes fuel k' e'
      | None => None
      end
  end.

(** The MPFR manual on [mpfr_sin]: the sine of a zero is that zero. *)
Definition mpfr_sin_zero : Prop :=
  forall p s, mpfr_sin p (MZero s) = MZero s.

(** The cell of distribution [dist] and generator [gen] is NaN or infinite
    in both statistics. *)
Definition cell_poisoned (st : list (list stats_t)) (dist gen : nat) : Prop :=
  mpfr_number_p (mean (cell st dist gen)) = false /\
  mpfr_number_p (m2 (cell st dist gen)) = false.

(** Every cell carries the names of its row and column in the two tables. *)
Definition names_ok (st : list (list stats_t)) : Prop :=
  forall dist gen, (dist < 3)%nat -> (gen < 4)%nat ->
    distribution (cell st dist gen)
      = fst (nth dist distribution_table (""%string, fun _ _ => None)) /\
    generator (cell st dist gen)
      = fst (nth gen generator_table (""%string, getsin_flt)).

End EngineRuns.

(** A random source whose every draw is [v] (reduced into the range asked
    for), for examples. *)
Definition constant_random (v : Z) : GmpRandom :=
  {| gmp_randstate_t := unit;
     gmp_randseed_ui := fun _ => tt;
     gmp_urandomm_ui := fun st k => (st, v mod k);
     gmp_urandomb_ui := fun st b => (st, v mod 2 ^ b) |}.

(** ** The two flags of [main] and the signals *)

(** [volatile bool running = true; volatile bool print = false;] *)
Record flags : Type := { running : bool; print : bool }.

Definition flags_init : flags := {| running := true; print := false |}.

Inductive signal : Type := SIGINT | SIGHUP.

(** The two handlers installed with [signal]: SIGINT clears [running],
    SIGHUP sets [print]. *)
Definition handler (s : signal) (f : flags) : flags :=
  match s with
  | SIGINT => {| running := false; print := print f |}
  | SIGHUP => {| running := running f; print := true |}
  end.

Definition deliver (sigs : list signal) (f : flags) : flags :=
  fold_left (fun f s => handler s f) sigs f.

Definition is_sigint (s : signal) : bool :=
  match s with SIGINT => true | SIGHUP => false end.
Definition is_sighup (s : signal) : bool :=
  match s with SIGHUP => true | SIGINT => false end.

(** The places where [main] reads or writes a flag: the test of
    [while (running)], the test of [for (; print; ...)] and its step
    [print = false].  The handlers touch nothing but the flags, so a signal
    takes effect at the next of these places, whenever it arrives before. *)
Inductive point : Type := AtWhile | AtPrintTest | AtPrintStep.

Section Signals.
Context `{GmpRandom} `{SineLibraries}.

(** Where a run of [main] stands: it has returned with a status and its
    output, it is still in the loop, or a sample could not be drawn within
    the bound on the draws. *)
Inductive outcome : Type :=
| Exited (status : Z) (out : FILE)
| InLoop (pt : point) (f : flags) (e : engine)
| Stuck.

(** [main] from one of these places on.  [arrivals] lists, for each place
    reached in turn, the signals that arrive before it (since the place
    before); the run is followed until the list ends. *)
Fixpoint main_signals (fuel : nat) (arrivals : list (list signal))
    (pt : point) (f : flags) (e : engine) : outcome :=
  match arrivals with
  | [] => InLoop pt f e
  | sigs :: arrivals =>
      let f := deliver sigs f in
      match pt with
      | AtWhile =>
          if running f then
            match run_combinations fuel e with
            | Some e => main_signals fuel arrivals AtPrintTest f e
            | None => Stuck
            end
          else Exited 0 (stdout (print_all e))
      | AtPrintTest =>
          if print f then main_signals fuel arrivals AtPrintStep f (print_all e)
          else main_signals fuel arrivals AtWhile f e
      | AtPrintStep =>
          main_signals fuel arrivals AtPrintTest {| running := running f; print := false |} e
      end
  end.

(** [main] from its start, the handlers installed. *)
Definition main_run (fuel : nat) (arrivals : list (list signal)) : outcome :=
  main_signals fuel arrivals AtWhile flags_init main_init.

(** The arrivals in which SIGHUP comes during the sampling of the passes
    [hup] marks, [n] passes from pass [k] on, and nothing else arrives. *)
Fixpoint hup_arrivals (hup : N -> bool) (k : N) (n : nat) : list (list signal) :=
  match n with
  | O => []
  | S n' =>
      [] :: (if hup k then [[SIGHUP]; []; []] else [[]])
         ++ hup_arrivals hup (N.succ k) n'
  end.

(** A matrix as a report may show it: complete, and every cell at the same
    count. *)
Definition snapshot (st : list (list stats_t)) : Prop :=
  matrix_shape st /\ exists v, all_counts v st.

End Signals.

(** ** A long [__float128] *)

(** The negative number of least normal exponent whose fraction bits are
    all ones: [-0x1.ffffffffffffffffffffffffffffp-16382]. *)
Definition float128_longest : Z := 2 ^ 127 + 2 ^ 112 + (2 ^ 112 - 1).

(** ** The fields of the x86 [long double] *)

(** Widths of the exponent field and of the significand field (with its
    explicit leading bit) of the 80-bit format. *)
Definition x87_fields : ieee_format := {| ebits := 15; mbits := 64 |}.
(** * Properties of the rounding model *)

(** ** Powers of two, magnitude, nearest integer *)

Lemma pow2_pos e : (0 < pow2 e)%Q.
Proof. unfold pow2. apply Qpower_0_lt. reflexivity. Qed.

Lemma pow2_add a b : (pow2 (a + b) == pow2 a * pow2 b)%Q.
Proof. unfold pow2. apply Qpower_plus. discriminate. Qed.

Lemma pow2_sub a b : (pow2 (a - b) == pow2 a / pow2 b)%Q.
Proof. unfold pow2. apply Qpower_minus. discriminate. Qed.

Lemma pow2_le a b : a <= b -> (pow2 a <= pow2 b)%Q.
Proof. intros. unfold pow2. apply Qpower_le_compat_l; [assumption | discriminate]. Qed.

Lemma pow2_lt a b : a < b -> (pow2 a < pow2 b)%Q.
Proof. intros. unfold pow2. apply Qpower_lt_compat_l; [assumption | reflexivity]. Qed.

Lemma pow2_lt_inv a b : (pow2 a < pow2 b)%Q -> a < b.
Proof. intros. unfold pow2 in H. apply Qpower_lt_compat_l_inv in H; [assumption | reflexivity]. Qed.

Lemma pow2_Z e : 0 <= e -> (pow2 e == inject_Z (2 ^ e))%Q.
Proof. intros. unfold pow2. rewrite Zpower_Qpower by assumption. reflexivity. Qed.

Lemma pow2_0 : (pow2 0 == 1)%Q.
Proof. reflexivity. Qed.

Lemma pow2_succ e : (pow2 (e + 1) == 2 * pow2 e)%Q.
Proof. rewrite pow2_add. change (pow2 1) with (2#1)%Q. ring. Qed.

Lemma Qmag_spec x : (0 < x)%Q -> (pow2 (Qmag x - 1) <= x /\ x < pow2 (Qmag x))%Q.
Proof.
  intros Hx. destruct x as [a b]. unfold Qmag; cbn [Qnum Qden].
  assert (Ha : 0 < a) by (unfold Qlt in Hx; cbn in Hx; lia).
  set (la := Z.log2 a). set (lb := Z.log2 (Z.pos b)).
  destruct (Z.log2_spec a Ha) as [Ha1 Ha2]. fold la in Ha1, Ha2.
  destruct (Z.log2_spec (Z.pos b) (Pos2Z.is_pos b)) as [Hb1 Hb2]. fold lb in Hb1, Hb2.
  assert (Hla : 0 <= la) by apply Z.log2_nonneg.
  assert (Hlb : 0 <= lb) by apply Z.log2_nonneg.
  assert (Hx' : (a # b == inject_Z a / inject_Z (Z.pos b))%Q) by (apply Qmake_Qdiv).
  assert (HB : (0 < inject_Z (Z.pos b))%Q) by (unfold Qlt; cbn; lia).
  assert (U : (a # b < pow2 (la - lb + 1))%Q).
  { rewrite Hx'. replace (la - lb + 1) with ((la + 1) - lb) by lia.
    rewrite pow2_sub. rewrite (pow2_Z (la+1)), (pow2_Z lb) by lia.
    apply Qlt_shift_div_r; [assumption|].
    unfold Qdiv. rewrite <- Qmult_assoc.
    assert (T : (/ inject_Z (2 ^ lb) * inject_Z (Z.pos b) == inject_Z (Z.pos b) / inject_Z (2^lb))%Q) by (unfold Qdiv; ring).
    rewrite T. 
    apply Qlt_le_trans with (inject_Z (2 ^ (la+1)) * 1)%Q.
    - rewrite Qmult_1_r. rewrite <- Zlt_Qlt. lia.
    - apply Qmult_le_l. { rewrite <- (Zlt_Qlt 0). lia. }
      apply Qle_shift_div_l. { rewrite <- (Zlt_Qlt 0). lia. }
      rewrite Qmult_1_l. rewrite <- Zle_Qle. lia. }
  assert (L : (pow2 (la - lb - 1) <= a # b)%Q).
  { rewrite Hx'. replace (la - lb - 1) with (la - (lb + 1)) by lia.
    rewrite pow2_sub. rewrite (pow2_Z la), (pow2_Z (lb + 1)) by lia.
    apply Qle_shift_div_l; [assumption|].
    unfold Qdiv. rewrite <- Qmult_assoc.
    assert (T : (/ inject_Z (2 ^ (lb+1)) * inject_Z (Z.pos b) == inject_Z (Z.pos b) / inject_Z (2^(lb+1)))%Q) by (unfold Qdiv; ring).
    rewrite T.
    apply Qle_trans with (inject_Z (2 ^ la) * 1)%Q.
    - apply Qmult_le_l. { rewrite <- (Zlt_Qlt 0). lia. }
      apply Qle_shift_div_r. { rewrite <- (Zlt_Qlt 0). lia. }
      rewrite Qmult_1_l. rewrite <- Zle_Qle. lia.
    - rewrite Qmult_1_r. rewrite <- Zle_Qle. lia. }
  destruct (Qle_bool (pow2 (la - lb)) (a # b)) eqn:C.
  - apply Qle_bool_iff in C. replace (la - lb + 1 - 1) with (la - lb) by lia. split; assumption.
  - split; [assumption|]. apply Qnot_le_lt. intro K. apply Qle_bool_iff in K. congruence.
Qed.

Lemma Qmag_unique x E : (pow2 (E - 1) <= x)%Q -> (x < pow2 E)%Q -> Qmag x = E.
Proof.
  intros H1 H2.
  assert (Hx : (0 < x)%Q) by (eapply Qlt_le_trans; [apply (pow2_pos (E-1))| assumption]).
  destruct (Qmag_spec x Hx) as [G1 G2].
  assert (A : Qmag x - 1 < E) by (apply pow2_lt_inv; eapply Qle_lt_trans; eauto).
  assert (B : E - 1 < Qmag x) by (apply pow2_lt_inv; eapply Qle_lt_trans; eauto).
  lia.
Qed.

(** Qrne *)
Lemma Qrne_bounds x : Qfloor x <= Qrne x <= Qfloor x + 1.
Proof.
  unfold Qrne. destruct (Qcompare _ _); [destruct (Z.even _)| |]; lia.
Qed.

Lemma Qrne_comp x y : (x == y)%Q -> Qrne x = Qrne y.
Proof.
  intros H. unfold Qrne. rewrite (Qfloor_comp _ _ H).
  assert (E : (x - inject_Z (Qfloor y) == y - inject_Z (Qfloor y))%Q) by (rewrite H; reflexivity).
  rewrite (Qcompare_comp _ _ E _ _ (Qeq_refl (1#2))). reflexivity.
Qed.

Lemma Qrne_Z k : Qrne (inject_Z k) = k.
Proof.
  unfold Qrne. rewrite Qfloor_Z.
  assert (E : (inject_Z k - inject_Z k == 0)%Q) by ring.
  rewrite (Qcompare_comp _ _ E _ _ (Qeq_refl (1#2))). reflexivity.
Qed.

Lemma Qrne_le_Z x k : (x <= inject_Z k)%Q -> Qrne x <= k.
Proof.
  intros H. pose proof (Qfloor_resp_le _ _ H) as F. rewrite Qfloor_Z in F.
  destruct (Z.eq_dec (Qfloor x) k) as [E|NE].
  - (* floor x = k, so x = k *)
    assert (X : (x == inject_Z k)%Q).
    { apply Qle_antisym; [assumption|]. rewrite <- E. apply Qfloor_le. }
    rewrite (Qrne_comp _ _ X), Qrne_Z. lia.
  - pose proof (Qrne_bounds x). lia.
Qed.

Lemma Qrne_ge_Z x k : (inject_Z k <= x)%Q -> k <= Qrne x.
Proof.
  intros H. pose proof (Qfloor_resp_le _ _ H) as F. rewrite Qfloor_Z in F.
  pose proof (Qrne_bounds x). lia.
Qed.

(** normalize *)
Lemma normalize_spec m : forall e,
  let r := normalize m e in
  Z.odd (Zpos (fst r)) = true /\ e <= snd r /\
  Zpos (fst r) * 2 ^ (snd r - e) = Zpos m /\
  Z.log2 (Zpos (fst r)) + snd r = Z.log2 (Zpos m) + e.
Proof.
  induction m as [m IH|m IH|]; intros e; cbn [normalize].
  - cbn [fst snd]. rewrite Z.sub_diag, Z.pow_0_r. repeat split; try reflexivity; lia.
  - specialize (IH (e + 1)). cbv zeta in *.
    destruct (normalize m (e+1)) as [m' e']. cbn [fst snd] in *.
    destruct IH as (O & L & V & G). repeat split; auto; try lia.
    + replace (e' - e) with ((e' - (e+1)) + 1) by lia.
      rewrite Z.pow_add_r by lia. change (Z.pos m~0) with (2 * Z.pos m). lia.
    + change (Z.pos m~0) with (2 * Z.pos m). rewrite Z.log2_double by lia. lia.
  - cbn [fst snd]. rewrite Z.sub_diag, Z.pow_0_r. repeat split; try reflexivity; lia.
Qed.

Lemma normalize_odd m e : Z.odd (Zpos m) = true -> normalize m e = (m, e).
Proof. destruct m; cbn; try reflexivity. discriminate. Qed.

Lemma normalize_shift k : 0 <= k -> forall m e m', Zpos m' = Zpos m * 2 ^ k ->
  normalize m' e = normalize m (e + k).
Proof.
  intros Hk. pattern k. apply natlike_ind; [| |assumption].
  - intros m e m' H. rewrite Z.mul_1_r in H. injection H as ->. f_equal. lia.
  - intros x Hx IH m e m' H.
    rewrite Z.pow_succ_r in H by assumption.
    destruct m' as [m'|m'|]; try lia.
    cbn [normalize]. rewrite (IH m (e+1) m') by lia. f_equal. lia.
Qed.

Lemma toQ_mk_fin s N e : 0 < N -> (toQ (mk_fin s N e) == sgnQ s * (inject_Z N * pow2 e))%Q.
Proof.
  intros HN. destruct N as [|m|m]; try lia. unfold mk_fin.
  pose proof (normalize_spec m e) as S. cbv zeta in S.
  destruct (normalize m e) as [m' e']. cbn [fst snd] in S. destruct S as (O & L & V & G).
  cbn [toQ]. apply Qmult_comp; [reflexivity|].
  rewrite <- V. rewrite inject_Z_mult. rewrite <- pow2_Z by lia.
  rewrite <- Qmult_assoc. rewrite <- pow2_add. replace (e' - e + e) with e' by lia. reflexivity.
Qed.

(** ** Correct rounding *)

Lemma scaled_range p x : (0 < x)%Q ->
  (pow2 (p - 1) <= x / pow2 (Qmag x - p) /\ x / pow2 (Qmag x - p) < pow2 p)%Q.
Proof.
  intros Hx. destruct (Qmag_spec x Hx) as [L U].
  pose proof (pow2_pos (Qmag x - p)) as Hp.
  split.
  - apply Qle_shift_div_l; [assumption|].
    rewrite <- pow2_add. replace (p - 1 + (Qmag x - p)) with (Qmag x - 1) by lia. assumption.
  - apply Qlt_shift_div_r; [assumption|].
    rewrite <- pow2_add. replace (p + (Qmag x - p)) with (Qmag x) by lia. assumption.
Qed.

Lemma N_range p x : 1 <= p -> (0 < x)%Q ->
  2 ^ (p - 1) <= Qrne (x / pow2 (Qmag x - p)) <= 2 ^ p.
Proof.
  intros Hp Hx. destruct (scaled_range p x Hx) as [L U]. split.
  - apply Qrne_ge_Z. rewrite <- pow2_Z by lia. assumption.
  - apply Qrne_le_Z. rewrite <- pow2_Z by lia. apply Qlt_le_weak. assumption.
Qed.

Lemma Qmag_comp x y : (0 < x)%Q -> (x == y)%Q -> Qmag x = Qmag y.
Proof.
  intros Hx E. destruct (Qmag_spec x Hx) as [L U].
  symmetry. apply Qmag_unique; rewrite <- E; assumption.
Qed.

Lemma Qle_bool_comp' a b c d : (a == b)%Q -> (c == d)%Q -> Qle_bool a c = Qle_bool b d.
Proof.
  intros E1 E2. destruct (Qle_bool a c) eqn:A; destruct (Qle_bool b d) eqn:B; try reflexivity.
  - apply Qle_bool_iff in A. rewrite E1, E2 in A. apply Qle_bool_iff in A. congruence.
  - apply Qle_bool_iff in B. rewrite <- E1, <- E2 in B. apply Qle_bool_iff in B. congruence.
Qed.

Lemma round_pos_comp p s x y : (0 < x)%Q -> (x == y)%Q -> round_pos p s x = round_pos p s y.
Proof.
  intros Hx E. unfold round_pos.
  rewrite <- (Qmag_comp x y Hx E).
  assert (E2 : (x / pow2 (Qmag x - p) == y / pow2 (Qmag x - p))%Q)
    by (apply Qmult_comp; [assumption | reflexivity]).
  rewrite <- (Qrne_comp _ _ E2).
  rewrite <- (Qle_bool_comp' x y _ _ E (Qeq_refl _)). reflexivity.
Qed.

Lemma mpfr_round_comp p x y : (x == y)%Q -> mpfr_round p x = mpfr_round p y.
Proof.
  intros E. unfold mpfr_round.
  rewrite <- (Qcompare_comp _ _ E _ _ (Qeq_refl 0)).
  destruct (Qcompare x 0) eqn:C; try reflexivity.
  - apply round_pos_comp; [|rewrite E; reflexivity].
    rewrite <- Qlt_alt in C. rewrite Qabs_neg by (apply Qlt_le_weak; assumption). lra.
  - apply round_pos_comp; [|rewrite E; reflexivity].
    rewrite <- Qgt_alt in C. rewrite Qabs_pos by (apply Qlt_le_weak; assumption). assumption.
Qed.

Lemma round_pos_sign p s x :
  round_pos p s x = (if s then mpfr_neg_val (round_pos p false x) else round_pos p false x).
Proof.
  destruct s; [|reflexivity]. unfold round_pos.
  destruct (mpfr_emax <? _); [reflexivity|].
  destruct (_ <? mpfr_emin); [destruct (Qle_bool _ _); reflexivity|].
  unfold mk_fin. destruct (Qrne _); try reflexivity.
  destruct (normalize _ _). reflexivity.
Qed.

(** value of Zpos m * 2^e and its magnitude *)
Lemma Qmag_dyadic m e : Qmag (inject_Z (Zpos m) * pow2 e) = e + Z.log2 (Zpos m) + 1.
Proof.
  destruct (Z.log2_spec (Zpos m) (Pos2Z.is_pos m)) as [L U].
  pose proof (Z.log2_nonneg (Zpos m)) as NN.
  pose proof (pow2_pos e).
  apply Qmag_unique.
  - replace (e + Z.log2 (Z.pos m) + 1 - 1) with (Z.log2 (Zpos m) + e) by lia.
    rewrite pow2_add. apply Qmult_le_compat_r; [|apply Qlt_le_weak; assumption].
    rewrite pow2_Z by lia. rewrite <- Zle_Qle. assumption.
  - replace (e + Z.log2 (Z.pos m) + 1) with (Z.succ (Z.log2 (Zpos m)) + e) by lia.
    rewrite pow2_add. apply Qmult_lt_compat_r; [assumption|].
    rewrite pow2_Z by lia. rewrite <- Zlt_Qlt. assumption.
Qed.

Lemma mpfr_fits_fin p s m e : mpfr_fits p (MFin s m e) = true <->
  Z.odd (Zpos m) = true /\ Z.log2 (Zpos m) < p /\
  mpfr_emin <= e + Z.log2 (Zpos m) + 1 <= mpfr_emax.
Proof.
  unfold mpfr_fits. rewrite !andb_true_iff, Z.ltb_lt, !Z.leb_le. tauto.
Qed.

Lemma round_pos_exact p s m e : mpfr_fits p (MFin s m e) = true ->
  round_pos p s (inject_Z (Zpos m) * pow2 e) = MFin s m e.
Proof.
  intros F. apply mpfr_fits_fin in F. destruct F as (O & B & R1 & R2).
  pose proof (Z.log2_nonneg (Zpos m)) as NN.
  destruct (Z.log2_spec (Zpos m) (Pos2Z.is_pos m)) as [L U].
  unfold round_pos. rewrite Qmag_dyadic.
  set (lg := Z.log2 (Zpos m)) in *.
  assert (S : (inject_Z (Z.pos m) * pow2 e / pow2 (e + lg + 1 - p)
               == inject_Z (Zpos m * 2 ^ (p - lg - 1)))%Q).
  { rewrite inject_Z_mult, <- pow2_Z by lia.
    unfold Qdiv. rewrite <- Qmult_assoc. apply Qmult_comp; [reflexivity|].
    fold (Qdiv (pow2 e) (pow2 (e + lg + 1 - p))). rewrite <- pow2_sub.
    replace (e - (e + lg + 1 - p)) with (p - lg - 1) by lia. reflexivity. }
  rewrite (Qrne_comp _ _ S), Qrne_Z.
  assert (LT : Zpos m * 2 ^ (p - lg - 1) < 2 ^ p).
  { replace p with ((lg + 1) + (p - lg - 1)) at 2 by lia.
    rewrite Z.pow_add_r by lia. apply Z.mul_lt_mono_pos_r; [apply Z.pow_pos_nonneg; lia|].
    replace (lg + 1) with (Z.succ lg) by lia. assumption. }
  destruct (Z.eqb_spec (Zpos m * 2 ^ (p - lg - 1)) (2 ^ p)); [lia|].
  destruct (Z.ltb_spec mpfr_emax (e + lg + 1)); [lia|].
  destruct (Z.ltb_spec (e + lg + 1) mpfr_emin); [lia|].
  unfold mk_fin.
  assert (P : 0 < Zpos m * 2 ^ (p - lg - 1)) by (apply Z.mul_pos_pos; [lia|apply Z.pow_pos_nonneg; lia]).
  destruct (Zpos m * 2 ^ (p - lg - 1)) as [|m'|m'] eqn:EQ; try lia.
  rewrite (normalize_shift (p - lg - 1) ltac:(lia) m _ m' (eq_sym EQ)).
  replace (e + lg + 1 - p + (p - lg - 1)) with e by lia.
  rewrite normalize_odd by assumption. reflexivity.
Qed.

Lemma dyadic_pos m e : (0 < inject_Z (Zpos m) * pow2 e)%Q.
Proof.
  apply Qmult_lt_0_compat; [|apply pow2_pos]. rewrite <- (Zlt_Qlt 0). lia.
Qed.

Lemma toQ_fin_pos m e : (0 < toQ (MFin false m e))%Q.
Proof. cbn [toQ sgnQ]. rewrite Qmult_1_l. apply dyadic_pos. Qed.

Lemma toQ_fin_neg m e : (toQ (MFin true m e) < 0)%Q.
Proof. cbn [toQ sgnQ]. pose proof (dyadic_pos m e). lra. Qed.

Lemma toQ_fin_true m e : (toQ (MFin true m e) == - (inject_Z (Zpos m) * pow2 e))%Q.
Proof. cbn [toQ sgnQ]. ring. Qed.

Lemma toQ_fin_false m e : (toQ (MFin false m e) == inject_Z (Zpos m) * pow2 e)%Q.
Proof. cbn [toQ sgnQ]. ring. Qed.

Lemma toQ_neg_val x : (toQ (mpfr_neg_val x) == - toQ x)%Q.
Proof. destruct x as [|s|s|s m e]; cbn [mpfr_neg_val toQ]; try ring. destruct s; cbn [negb sgnQ]; ring. Qed.

Lemma mpfr_round_pos p x : (0 < x)%Q -> mpfr_round p x = round_pos p false x.
Proof.
  intros H. unfold mpfr_round. rewrite Qgt_alt in H. rewrite H.
  apply round_pos_comp.
  - rewrite <- Qgt_alt in H. rewrite Qabs_pos by lra. assumption.
  - rewrite <- Qgt_alt in H. apply Qabs_pos. lra.
Qed.

Lemma mpfr_round_neg p x : (x < 0)%Q -> mpfr_round p x = round_pos p true (- x).
Proof.
  intros H. unfold mpfr_round. rewrite Qlt_alt in H. rewrite H.
  rewrite <- Qlt_alt in H. apply round_pos_comp.
  - rewrite Qabs_neg by lra. lra.
  - apply Qabs_neg. lra.
Qed.

Lemma mpfr_round_0 p x : (x == 0)%Q -> mpfr_round p x = MZero false.
Proof. intros H. unfold mpfr_round. rewrite Qeq_alt in H. rewrite H. reflexivity. Qed.

Lemma mpfr_round_opp p x : ~ (x == 0)%Q ->
  mpfr_round p (- x) = mpfr_neg_val (mpfr_round p x).
Proof.
  intros H. destruct (Q_dec x 0) as [[L|G]|E]; [| |contradiction].
  - rewrite (mpfr_round_pos p (- x)) by lra. rewrite (mpfr_round_neg p x L).
    rewrite (round_pos_sign p true). 
    destruct (round_pos p false (- x)) as [|s|s|s m e]; cbn; rewrite ?negb_involutive; reflexivity.
  - rewrite (mpfr_round_neg p (- x)) by lra. rewrite (mpfr_round_pos p x G).
    rewrite (round_pos_sign p true).
    rewrite (round_pos_comp p false (- - x) x); [reflexivity| lra | ring].
Qed.

(** A regular number that fits is a fixed point of rounding. *)
Lemma mpfr_round_toQ p c : mpfr_fits p c = true -> is_regular c = true ->
  mpfr_round p (toQ c) = c.
Proof.
  intros F R. destruct c as [|s|s|s m e]; try discriminate.
  destruct s.
  - rewrite mpfr_round_neg by apply toQ_fin_neg.
    rewrite (round_pos_comp p true _ (inject_Z (Zpos m) * pow2 e)).
    + apply round_pos_exact; assumption.
    + pose proof (toQ_fin_neg m e). lra.
    + rewrite toQ_fin_true. ring.
  - rewrite mpfr_round_pos by apply toQ_fin_pos.
    rewrite (round_pos_comp p false _ (inject_Z (Zpos m) * pow2 e)).
    + apply round_pos_exact; assumption.
    + apply toQ_fin_pos.
    + apply toQ_fin_false.
Qed.

Lemma mpfr_set_fits p c : mpfr_fits p c = true -> mpfr_set p c = c.
Proof.
  intros F. destruct c; try reflexivity. unfold mpfr_set. apply mpfr_round_toQ; [assumption|reflexivity].
Qed.

Lemma odd_pow2_factor m j p : Z.odd m = true -> 0 <= j -> 0 <= p -> 0 < m ->
  m * 2 ^ j = 2 ^ p -> m = 1.
Proof.
  intros O Hj Hp Hm E.
  assert (JP : j <= p).
  { destruct (Z_le_gt_dec j p); [assumption|].
    assert (2 ^ p < 2 ^ j) by (apply Z.pow_lt_mono_r; lia).
    assert (2 ^ j <= m * 2 ^ j) by nia. lia. }
  assert (M : m = 2 ^ (p - j)).
  { replace p with ((p - j) + j) in E by lia. rewrite Z.pow_add_r in E by lia.
    apply Z.mul_reg_r in E; [assumption|]. apply Z.pow_nonzero; lia. }
  destruct (Z.eq_dec (p - j) 0) as [Z0|NZ].
  - rewrite Z0 in M. assumption.
  - rewrite M in O. rewrite Z.odd_pow in O by lia. discriminate.
Qed.

Lemma mk_fin_spec p s N E : 1 <= p -> 2 ^ (p - 1) <= N <= 2 ^ p ->
  exists m e, mk_fin s N (E - p) = MFin s m e /\
    Z.odd (Zpos m) = true /\ Z.log2 (Zpos m) < p /\
    e + Z.log2 (Zpos m) + 1 = (if N =? 2 ^ p then E + 1 else E) /\
    (inject_Z (Zpos m) * pow2 e == inject_Z N * pow2 (E - p))%Q.
Proof.
  intros Hp [NL NU].
  assert (NP : 0 < N) by (pose proof (Z.pow_pos_nonneg 2 (p-1)); lia).
  destruct N as [|n|n]; try lia. unfold mk_fin.
  pose proof (normalize_spec n (E - p)) as S. cbv zeta in S.
  destruct (normalize n (E - p)) as [m e]. cbn [fst snd] in S. destruct S as (O & L & V & G).
  exists m, e. split; [reflexivity|]. split; [assumption|].
  assert (VQ : (inject_Z (Z.pos m) * pow2 e == inject_Z (Z.pos n) * pow2 (E - p))%Q).
  { rewrite <- V. rewrite inject_Z_mult. rewrite <- pow2_Z by lia.
    rewrite <- Qmult_assoc. rewrite <- pow2_add. replace (e - (E - p) + (E - p)) with e by lia. reflexivity. }
  destruct (Z.eqb_spec (Zpos n) (2 ^ p)) as [EQ|NE].
  - assert (M1 : Zpos m = 1).
    { apply (odd_pow2_factor _ (e - (E - p)) p); try lia. assumption. }
    rewrite M1 in *. change (Z.log2 1) with 0 in *.
    rewrite EQ in G. rewrite Z.log2_pow2 in G by lia.
    repeat split; try lia. assumption.
  - assert (LN : Z.log2 (Zpos n) = p - 1).
    { apply Z.log2_unique; [lia|]. replace (Z.succ (p-1)) with p by lia. lia. }
    assert (Zpos m <= Zpos n).
    { rewrite <- V. pose proof (Z.pow_pos_nonneg 2 (e - (E - p))). nia. }
    assert (Z.log2 (Zpos m) <= Z.log2 (Zpos n)) by (apply Z.log2_le_mono; assumption).
    repeat split; try lia. assumption.
Qed.

Lemma emin_emax : mpfr_emin < 0 < mpfr_emax.
Proof. unfold mpfr_emin, mpfr_emax. lia. Qed.

Lemma round_pos_fits p s x : 1 <= p -> (0 < x)%Q -> mpfr_fits p (round_pos p s x) = true.
Proof.
  intros Hp Hx. unfold round_pos.
  pose proof (N_range p x Hp Hx) as NR.
  set (N := Qrne _) in *. set (E := Qmag x) in *.
  destruct (Z.ltb_spec mpfr_emax (if N =? 2 ^ p then E + 1 else E)); [reflexivity|].
  destruct (Z.ltb_spec (if N =? 2 ^ p then E + 1 else E) mpfr_emin).
  - destruct (Qle_bool _ _); [reflexivity|].
    apply mpfr_fits_fin. change (Z.log2 1) with 0. pose proof emin_emax.
    repeat split; try lia.
  - destruct (mk_fin_spec p s N E Hp NR) as (m & e & EQ & O & B & X & V).
    rewrite EQ. apply mpfr_fits_fin. repeat split; try assumption; lia.
Qed.

Lemma mpfr_round_fits p x : 1 <= p -> mpfr_fits p (mpfr_round p x) = true.
Proof.
  intros Hp. unfold mpfr_round. destruct (Qcompare x 0) eqn:C; [reflexivity| |].
  - apply round_pos_fits; [assumption|]. rewrite <- Qlt_alt in C. rewrite Qabs_neg by lra. lra.
  - apply round_pos_fits; [assumption|]. rewrite <- Qgt_alt in C. rewrite Qabs_pos by lra. lra.
Qed.

Lemma dyadic_lower m e :
  (pow2 (e + Z.log2 (Zpos m)) <= inject_Z (Zpos m) * pow2 e)%Q.
Proof.
  pose proof (dyadic_pos m e) as P.
  destruct (Qmag_spec _ P) as [L _]. rewrite Qmag_dyadic in L.
  replace (e + Z.log2 (Z.pos m) + 1 - 1) with (e + Z.log2 (Zpos m)) in L by lia. assumption.
Qed.

Lemma dyadic_upper m e :
  (inject_Z (Zpos m) * pow2 e < pow2 (e + Z.log2 (Zpos m) + 1))%Q.
Proof.
  pose proof (dyadic_pos m e) as P.
  destruct (Qmag_spec _ P) as [_ U]. rewrite Qmag_dyadic in U. assumption.
Qed.

Lemma Qabs_toQ_fin s m e : (Qabs (toQ (MFin s m e)) == inject_Z (Zpos m) * pow2 e)%Q.
Proof.
  pose proof (dyadic_pos m e). destruct s.
  - rewrite toQ_fin_true. rewrite Qabs_opp. apply Qabs_pos. lra.
  - rewrite toQ_fin_false. apply Qabs_pos. lra.
Qed.

(** Above half the smallest positive number, rounding does not give zero. *)
Lemma round_pos_nonzero p s x : 1 <= p -> (pow2 (mpfr_emin - 1) <= x)%Q ->
  round_pos p s x = MInf s \/ exists m e, round_pos p s x = MFin s m e.
Proof.
  intros Hp Hx.
  assert (X0 : (0 < x)%Q) by (pose proof (pow2_pos (mpfr_emin - 1)); lra).
  unfold round_pos. pose proof (N_range p x Hp X0) as NR.
  set (N := Qrne _) in *. set (E := Qmag x) in *.
  destruct (mpfr_emax <? _); [left; reflexivity|]. right.
  destruct (_ <? mpfr_emin).
  - destruct (Qle_bool x (pow2 (mpfr_emin - 2))) eqn:C.
    + apply Qle_bool_iff in C.
      pose proof (pow2_lt (mpfr_emin - 2) (mpfr_emin - 1) ltac:(lia)). lra.
    + eauto.
  - destruct (mk_fin_spec p s N E Hp NR) as (m & e & EQ & _). eauto.
Qed.

Lemma mpfr_abs_regular p x : 1 <= p -> is_regular x = true -> mpfr_in_range x = true ->
  mpfr_abs p x = MInf false \/ exists m e, mpfr_abs p x = MFin false m e.
Proof.
  intros Hp R I. destruct x as [|s|s|s m e]; try discriminate.
  unfold mpfr_in_range, mpfr_get_exp in I. apply andb_true_iff in I. destruct I as [I1 I2].
  apply Z.leb_le in I1. apply Z.leb_le in I2.
  unfold mpfr_abs.
  assert (L : (pow2 (mpfr_emin - 1) <= Qabs (toQ (MFin s m e)))%Q).
  { rewrite Qabs_toQ_fin. eapply Qle_trans; [|apply dyadic_lower]. apply pow2_le. lia. }
  rewrite mpfr_round_pos by (pose proof (pow2_pos (mpfr_emin - 1)); lra).
  apply round_pos_nonzero; assumption.
Qed.

(** Every result of an operation fits the precision it was rounded to. *)
Lemma mpfr_sub_fits p x y : 1 <= p -> mpfr_fits p (mpfr_sub p x y) = true.
Proof.
  intros Hp. destruct x as [|a|a|a m e], y as [|b|b|b m' e']; cbn [mpfr_sub];
    try reflexivity; try (apply mpfr_round_fits; assumption).
  destruct (Bool.eqb a b); reflexivity.
Qed.

Lemma mpfr_add_fits p x y : 1 <= p -> mpfr_fits p (mpfr_add p x y) = true.
Proof.
  intros Hp. destruct x as [|a|a|a m e], y as [|b|b|b m' e']; cbn [mpfr_add];
    try reflexivity; try (apply mpfr_round_fits; assumption).
  destruct (Bool.eqb a b); reflexivity.
Qed.

Lemma mpfr_div_fits p x y : 1 <= p -> mpfr_fits p (mpfr_div p x y) = true.
Proof.
  intros Hp. destruct x as [|a|a|a m e], y as [|b|b|b m' e']; cbn [mpfr_div];
    try reflexivity; try (apply mpfr_round_fits; assumption).
Qed.

Lemma mpfr_div_ui_fits p x u : 1 <= p -> mpfr_fits p (mpfr_div_ui p x u) = true.
Proof.
  intros Hp. destruct x as [|a|a|a m e]; cbn [mpfr_div_ui]; try reflexivity.
  - destruct (u =? 0); reflexivity.
  - destruct (u =? 0); [reflexivity|]. apply mpfr_round_fits; assumption.
Qed.

Lemma mpfr_set_result_fits p x : 1 <= p -> mpfr_fits p (mpfr_set p x) = true.
Proof.
  intros Hp. destruct x; try reflexivity. apply mpfr_round_fits; assumption.
Qed.

Lemma mpfr_fma_fits p x y z : 1 <= p -> mpfr_fits p (mpfr_fma p x y z) = true.
Proof.
  intros Hp.
  destruct x as [|a|a|a m e], y as [|b|b|b m' e'], z as [|c|c|c m2 e2]; cbn [mpfr_fma];
    try reflexivity; try (apply mpfr_round_fits; assumption);
    try (destruct (Bool.eqb _ c); reflexivity);
    try (apply (mpfr_set_result_fits p (MFin c m2 e2)); assumption).
Qed.

Lemma MPFR_PREC_pos : 1 <= MPFR_PREC.
Proof. unfold MPFR_PREC. lia. Qed.

Lemma stats_reldiff_fits y ref : mpfr_fits MPFR_PREC (stats_reldiff y ref) = true.
Proof. apply mpfr_div_fits, MPFR_PREC_pos. Qed.

(** Exactness of the operations on values that need no rounding. *)
Lemma mpfr_div_ui_1 p x : mpfr_fits p x = true -> mpfr_div_ui p x 1 = x.
Proof.
  intros F. destruct x as [|a|a|a m e]; try reflexivity. cbn [mpfr_div_ui Z.eqb].
  rewrite (mpfr_round_comp p _ (toQ (MFin a m e))) by (field).
  apply mpfr_round_toQ; [assumption|reflexivity].
Qed.

Lemma mpfr_sub_zero_r p x : mpfr_fits p x = true -> is_regular x = true ->
  mpfr_sub p x (MZero false) = x.
Proof.
  intros F R. destruct x as [|a|a|a m e]; try discriminate. cbn [mpfr_sub].
  rewrite (mpfr_round_comp p _ (toQ (MFin a m e))) by (cbn [toQ]; ring).
  apply mpfr_round_toQ; assumption.
Qed.

Lemma mpfr_add_zero_l p x : mpfr_fits p x = true -> is_regular x = true ->
  mpfr_add p (MZero false) x = x.
Proof.
  intros F R. destruct x as [|a|a|a m e]; try discriminate. cbn [mpfr_add].
  rewrite (mpfr_round_comp p _ (toQ (MFin a m e))) by (cbn [toQ]; ring).
  apply mpfr_round_toQ; assumption.
Qed.

Lemma mpfr_sub_same p x : is_regular x = true -> mpfr_sub p x x = MZero false.
Proof.
  intros R. destruct x as [|a|a|a m e]; try discriminate. cbn [mpfr_sub].
  apply mpfr_round_0. ring.
Qed.

Lemma mpfr_add_opp p x : is_regular x = true -> mpfr_add p x (mpfr_neg_val x) = MZero false.
Proof.
  intros R. destruct x as [|a|a|a m e]; try discriminate. cbn [mpfr_add mpfr_neg_val].
  apply mpfr_round_0. rewrite (toQ_neg_val (MFin a m e)). ring.
Qed.

(** * The accumulator *)

(** ** [stats_add] step by step *)

Lemma ulong_range z : 0 <= ulong z <= ULONG_MAX.
Proof. unfold ulong, ULONG_MAX. pose proof (Z.mod_pos_bound z (2 ^ 64)). lia. Qed.

Lemma ulong_small z : 0 <= z <= ULONG_MAX -> ulong z = z.
Proof. unfold ulong, ULONG_MAX. intros. apply Z.mod_small. lia. Qed.

Lemma stats_add_reldiff stats y ref :
  stats_add stats y ref =
  let reldiff := stats_reldiff y ref in
  let n1 := ulong (n stats + 1) in
  let delta := mpfr_sub MPFR_PREC reldiff (mean stats) in
  let mean1 := mpfr_add MPFR_PREC (mean stats) (mpfr_div_ui MPFR_PREC delta n1) in
  {| distribution := distribution stats; generator := generator stats;
     n := n1; mean := mean1;
     m2 := mpfr_fma MPFR_PREC delta (mpfr_sub MPFR_PREC reldiff mean1) (m2 stats) |}.
Proof. reflexivity. Qed.

(** C1, as the code has it: [stats_add] performs exactly the stated Welford
    steps at [MPFR_PREC] bits and leaves the two names alone; the counter is
    an [unsigned long], so it becomes [n + 1] for every counter below
    [ULONG_MAX] and [0] at [ULONG_MAX]. *)
Theorem stats_add_welford (stats : stats_t) (y ref : mpfr_t) :
  0 <= n stats <= ULONG_MAX ->
  let diff := mpfr_sub MPFR_PREC y ref in
  let reldiff := mpfr_div MPFR_PREC diff (mpfr_abs MPFR_PREC ref) in
  let delta := mpfr_sub MPFR_PREC reldiff (mean stats) in
  let n1 := if n stats =? ULONG_MAX then 0 else n stats + 1 in
  let mean1 := mpfr_add MPFR_PREC (mean stats) (mpfr_div_ui MPFR_PREC delta n1) in
  let mean2_delta := mpfr_sub MPFR_PREC reldiff mean1 in
  stats_add stats y ref =
    {| distribution := distribution stats;
       generator := generator stats;
       n := n1;
       mean := mean1;
       m2 := mpfr_fma MPFR_PREC delta mean2_delta (m2 stats) |}.
Proof.
  intros R. cbv zeta.
  assert (E : ulong (n stats + 1) = if n stats =? ULONG_MAX then 0 else n stats + 1).
  { destruct (Z.eqb_spec (n stats) ULONG_MAX) as [E|NE].
    - rewrite E. reflexivity.
    - apply Z.mod_small. unfold ULONG_MAX in *. lia. }
  rewrite <- E. reflexivity.
Qed.

Lemma stats_add_welford_witness :
  stats_add (stats_init "d" "g") mpfr_two mpfr_one =
    {| distribution := "d"; generator := "g"; n := 1;
       mean := mpfr_one; m2 := MZero false |}.
Proof.
  refine (eq_trans (stats_add_welford (stats_init "d" "g") mpfr_two mpfr_one _) _).
  - vm_compute. split; discriminate.
  - vm_compute. reflexivity.
Defined.

(** C1 as stated fails at a full counter: the count goes from [ULONG_MAX] to
    [0], not up by one. *)
Lemma stats_add_count_wraps :
  n cell_at_max = ULONG_MAX /\
  n (stats_add cell_at_max mpfr_one mpfr_one) = 0 /\
  n (stats_add cell_at_max mpfr_one mpfr_one) <> n cell_at_max + 1.
Proof.
  split; [reflexivity|]. split; [reflexivity|]. discriminate.
Qed.

(** ** [stats_print] *)

(** C3, as the code has it: a report appends six lines and reads the cell
    only; with [n > 1] the variance is [m2 / (n - 1)] and the deviation its
    square root, both at [MPFR_PREC] bits; with [n <= 1] both lines show NaN,
    the value [MPFR_DECL_INIT] gives the two locals on every call. *)
Theorem stats_print_report (stats : stats_t) (fh : FILE) :
  0 <= n stats <= ULONG_MAX ->
  let variance :=
    if 1 <? n stats then mpfr_div_ui MPFR_PREC (m2 stats) (n stats - 1) else MNaN in
  let stddev :=
    if 1 <? n stats then mpfr_sqrt MPFR_PREC variance else MNaN in
  stats_print stats fh =
    fh ++ [LHeader (distribution stats) (generator stats);
           LSamples (n stats); LMean (mean stats);
           LVariance variance; LStddev stddev; LBlank].
Proof.
  intros R. cbv zeta. unfold stats_print, stats_variance_stddev, MPFR_DECL_INIT.
  destruct (Z.ltb_spec 1 (n stats)).
  - rewrite ulong_small by lia. rewrite <- !app_assoc. reflexivity.
  - rewrite <- !app_assoc. reflexivity.
Qed.

Lemma stats_print_report_witness :
  stats_print cell_plus_minus_one [] =
    [LHeader "d" "g"; LSamples 2; LMean (MZero false);
     LVariance mpfr_two; LStddev (mpfr_sqrt MPFR_PREC mpfr_two); LBlank].
Proof.
  refine (eq_trans (stats_print_report cell_plus_minus_one [] _) _).
  - vm_compute. split; discriminate.
  - vm_compute. reflexivity.
Defined.

(** C3 as stated fails: a report on a fresh cell that follows a report with
    variance 2 shows NaN, not the carried value. *)
Lemma stats_print_no_carry :
  let fh := stats_print (stats_init "d" "g") (stats_print cell_plus_minus_one []) in
  variance_line 0 fh = LVariance mpfr_two /\
  variance_line 1 fh = LVariance MNaN /\
  fst (carried_variance_stddev (stats_variance_stddev cell_plus_minus_one)
         (stats_init "d" "g")) = mpfr_two /\
  stats_variance_stddev (stats_init "d" "g")
    <> carried_variance_stddev (stats_variance_stddev cell_plus_minus_one)
         (stats_init "d" "g").
Proof.
  cbv zeta. split; [vm_compute; reflexivity|]. split; [vm_compute; reflexivity|].
  split; [vm_compute; reflexivity|]. vm_compute. discriminate.
Qed.

(** ** A zero reference poisons the cell *)

Lemma mpfr_div_by_zero p d s : mpfr_number_p (mpfr_div p d (MZero s)) = false.
Proof. destruct d; reflexivity. Qed.

Lemma mpfr_sub_nan_inf_l p x y : mpfr_number_p x = false ->
  mpfr_number_p (mpfr_sub p x y) = false.
Proof.
  destruct x as [|a|a|a m e]; try discriminate; intros _.
  - reflexivity.
  - destruct y as [|b|b|b m' e']; try reflexivity. cbn. destruct (Bool.eqb a b); reflexivity.
Qed.

Lemma mpfr_sub_nan_inf_r p x y : mpfr_number_p y = false ->
  mpfr_number_p (mpfr_sub p x y) = false.
Proof.
  destruct y as [|b|b|b m e]; try discriminate; intros _.
  - destruct x; reflexivity.
  - destruct x as [|a|a|a m' e']; try reflexivity. cbn. destruct (Bool.eqb a b); reflexivity.
Qed.

Lemma mpfr_div_ui_nan_inf p x u : mpfr_number_p x = false ->
  mpfr_number_p (mpfr_div_ui p x u) = false.
Proof. destruct x; try discriminate; reflexivity. Qed.

Lemma mpfr_add_nan_inf_l p x y : mpfr_number_p x = false ->
  mpfr_number_p (mpfr_add p x y) = false.
Proof.
  destruct x as [|a|a|a m e]; try discriminate; intros _.
  - reflexivity.
  - destruct y as [|b|b|b m' e']; try reflexivity. cbn. destruct (Bool.eqb a b); reflexivity.
Qed.

Lemma mpfr_add_nan_inf_r p x y : mpfr_number_p y = false ->
  mpfr_number_p (mpfr_add p x y) = false.
Proof.
  destruct y as [|b|b|b m e]; try discriminate; intros _.
  - destruct x; reflexivity.
  - destruct x as [|a|a|a m' e']; try reflexivity. cbn. destruct (Bool.eqb a b); reflexivity.
Qed.

Lemma mpfr_fma_nan_inf p x y z :
  mpfr_number_p x = false -> mpfr_number_p y = false ->
  mpfr_number_p (mpfr_fma p x y z) = false.
Proof.
  destruct x as [|a|a|a m e]; try discriminate; intros _;
  destruct y as [|b|b|b m' e']; try discriminate; intros _;
  destruct z as [|c|c|c m2 e2]; try reflexivity.
  cbn. destruct (Bool.eqb (xorb a b) c); reflexivity.
Qed.

(** One [stats_add] on a cell whose mean is NaN or infinite leaves mean and
    [m2] NaN or infinite, whatever the sample. *)
Lemma stats_add_poisoned stats y ref :
  mpfr_number_p (mean stats) = false ->
  mpfr_number_p (mean (stats_add stats y ref)) = false /\
  mpfr_number_p (m2 (stats_add stats y ref)) = false.
Proof.
  intros M. rewrite stats_add_reldiff. cbv zeta. cbn [mean m2].
  set (r := stats_reldiff y ref).
  set (delta := mpfr_sub MPFR_PREC r (mean stats)).
  assert (D : mpfr_number_p delta = false) by (apply mpfr_sub_nan_inf_r; assumption).
  assert (M1 : mpfr_number_p
            (mpfr_add MPFR_PREC (mean stats) (mpfr_div_ui MPFR_PREC delta (ulong (n stats + 1)))) = false)
    by (apply mpfr_add_nan_inf_l; assumption).
  split; [assumption|].
  apply mpfr_fma_nan_inf; [assumption|]. apply mpfr_sub_nan_inf_r. assumption.
Qed.

Lemma stats_add_all_poisoned l : forall stats,
  mpfr_number_p (mean stats) = false -> mpfr_number_p (m2 stats) = false ->
  mpfr_number_p (mean (stats_add_all stats l)) = false /\
  mpfr_number_p (m2 (stats_add_all stats l)) = false.
Proof.
  induction l as [|[y ref] l IH]; intros stats M V.
  - split; assumption.
  - cbn [stats_add_all fold_left fst snd].
    destruct (stats_add_poisoned stats y ref M) as [M1 V1].
    apply (IH (stats_add stats y ref) M1 V1).
Qed.

(** C4: with a reference equal to zero (of either sign) the relative change
    is NaN or infinite for every [y]; it enters the statistics unguarded: mean
    and [m2] are NaN or infinite after that call and after every further
    sequence of calls. *)
Theorem stats_add_zero_reference (stats : stats_t) (y : mpfr_t) (s : bool)
    (l : list (mpfr_t * mpfr_t)) :
  let poisoned := stats_add stats y (MZero s) in
  mpfr_number_p (stats_reldiff y (MZero s)) = false /\
  mpfr_number_p (mean poisoned) = false /\
  mpfr_number_p (m2 poisoned) = false /\
  mpfr_number_p (mean (stats_add_all poisoned l)) = false /\
  mpfr_number_p (m2 (stats_add_all poisoned l)) = false.
Proof.
  cbv zeta.
  assert (R : mpfr_number_p (stats_reldiff y (MZero s)) = false)
    by (unfold stats_reldiff; cbn [mpfr_abs]; apply mpfr_div_by_zero).
  assert (P : mpfr_number_p (mean (stats_add stats y (MZero s))) = false /\
              mpfr_number_p (m2 (stats_add stats y (MZero s))) = false).
  { rewrite stats_add_reldiff. cbv zeta. cbn [mean m2].
    set (r := stats_reldiff y (MZero s)) in *.
    set (delta := mpfr_sub MPFR_PREC r (mean stats)).
    assert (D : mpfr_number_p delta = false) by (apply mpfr_sub_nan_inf_l; assumption).
    assert (M1 : mpfr_number_p
              (mpfr_add MPFR_PREC (mean stats) (mpfr_div_ui MPFR_PREC delta (ulong (n stats + 1)))) = false)
      by (apply mpfr_add_nan_inf_r, mpfr_div_ui_nan_inf; assumption).
    split; [assumption|].
    apply mpfr_fma_nan_inf; [assumption|]. apply mpfr_sub_nan_inf_r. assumption. }
  destruct P as [PM PV].
  split; [assumption|]. split; [assumption|]. split; [assumption|].
  apply stats_add_all_poisoned; assumption.
Qed.

(** ** First samples *)

Lemma stats_init_fields dist gen :
  n (stats_init dist gen) = 0 /\
  mean (stats_init dist gen) = MZero false /\
  m2 (stats_init dist gen) = MZero false.
Proof. repeat split. Qed.

(** The first sample of a fresh cell: the mean becomes the relative change
    [r] itself and [m2] stays zero. *)
Lemma stats_add_first dist gen y ref :
  is_regular (stats_reldiff y ref) = true ->
  stats_add (stats_init dist gen) y ref =
    {| distribution := dist; generator := gen; n := 1;
       mean := stats_reldiff y ref; m2 := MZero false |}.
Proof.
  intros R. rewrite stats_add_reldiff. cbv zeta.
  pose proof (stats_reldiff_fits y ref) as F.
  set (r := stats_reldiff y ref) in *.
  change (mean (stats_init dist gen)) with (MZero false).
  change (m2 (stats_init dist gen)) with (MZero false).
  change (ulong (n (stats_init dist gen) + 1)) with 1.
  rewrite (mpfr_sub_zero_r _ r F R), (mpfr_div_ui_1 _ r F), (mpfr_add_zero_l _ r F R).
  rewrite (mpfr_sub_same _ r R).
  destruct r as [|a|a|a m e]; try discriminate.
  cbn. rewrite andb_false_r. reflexivity.
Qed.

(** C8, as the code has it: one sample with [y] equal to a regular (finite,
    non-zero) reference leaves mean [+0] and count 1. *)
Theorem stats_add_equal_sample (dist gen : string) (y ref : mpfr_t) :
  mpfr_equal_p y ref = true ->
  is_regular ref = true ->
  mpfr_in_range ref = true ->
  mean (stats_add (stats_init dist gen) y ref) = MZero false /\
  n (stats_add (stats_init dist gen) y ref) = 1.
Proof.
  intros EQ R I. split; [|reflexivity].
  assert (RD : stats_reldiff y ref = MZero false).
  { unfold stats_reldiff.
    assert (D : mpfr_sub MPFR_PREC y ref = MZero false).
    { destruct ref as [|b|b|b m' e']; try discriminate.
      destruct y as [|a|a|a m e]; try discriminate.
      cbn [mpfr_equal_p] in EQ. apply Qeq_bool_iff in EQ.
      cbn [mpfr_sub]. apply mpfr_round_0. rewrite EQ. ring. }
    rewrite D.
    destruct (mpfr_abs_regular MPFR_PREC ref MPFR_PREC_pos R I) as [A|(m & e & A)];
      rewrite A; reflexivity. }
  rewrite stats_add_reldiff. cbv zeta. cbn [mean]. rewrite RD. reflexivity.
Qed.

Lemma stats_add_equal_sample_witness :
  mean (stats_add (stats_init "d" "g") mpfr_two mpfr_two) = MZero false /\
  n (stats_add (stats_init "d" "g") mpfr_two mpfr_two) = 1.
Proof.
  apply (stats_add_equal_sample "d" "g" mpfr_two mpfr_two); reflexivity.
Defined.

(** C8 as stated fails for the equal pair [(0, 0)]: the relative change is
    [0/0] and the mean is NaN. *)
Lemma stats_add_equal_zero_sample :
  mpfr_equal_p mpfr_zero mpfr_zero = true /\
  mean (stats_add (stats_init "d" "g") mpfr_zero mpfr_zero) = MNaN /\
  mean (stats_add (stats_init "d" "g") mpfr_zero mpfr_zero) <> MZero false.
Proof. split; [reflexivity|]. split; [reflexivity|]. discriminate. Qed.

(** ** Two opposite samples *)

Lemma mpfr_fits_double p s m e :
  mpfr_fits p (MFin s m e) = true -> mpfr_get_exp (MFin s m e) < mpfr_emax ->
  mpfr_fits p (MFin s m (e + 1)) = true.
Proof.
  intros F X. apply mpfr_fits_fin in F. apply mpfr_fits_fin.
  unfold mpfr_get_exp in X. repeat split; try tauto; lia.
Qed.

Lemma toQ_negb s m e : (toQ (MFin (negb s) m e) == - toQ (MFin s m e))%Q.
Proof. exact (toQ_neg_val (MFin s m e)). Qed.

Lemma toQ_double s m e : (toQ (MFin s m (e + 1)) == 2 * toQ (MFin s m e))%Q.
Proof. cbn [toQ]. rewrite pow2_succ. ring. Qed.

(** C2, as the code has it: after the relative changes [+e] and [-e] on a
    fresh cell ([e] regular, [2e] below the overflow threshold) the mean is
    [+0], the count 2, and the reported variance is [2 e^2] rounded to
    [MPFR_PREC] bits: [m2 = 2 e^2] divided by [n - 1 = 1]. *)
Theorem stats_add_opposite_pair (dist gen : string) (y1 ref1 y2 ref2 e : mpfr_t) :
  stats_reldiff y1 ref1 = e ->
  stats_reldiff y2 ref2 = mpfr_neg_val e ->
  is_regular e = true ->
  mpfr_get_exp e < mpfr_emax ->
  let stats := stats_add (stats_add (stats_init dist gen) y1 ref1) y2 ref2 in
  n stats = 2 /\
  mean stats = MZero false /\
  fst (stats_variance_stddev stats) = mpfr_round MPFR_PREC (2 * (toQ e * toQ e)).
Proof.
  intros R1 R2 Re X. cbv zeta.
  pose proof (stats_reldiff_fits y1 ref1) as F. rewrite R1 in F.
  rewrite (stats_add_first dist gen y1 ref1) by (rewrite R1; assumption).
  rewrite R1. rewrite stats_add_reldiff. cbv zeta. cbn [n mean m2 distribution generator].
  rewrite R2. change (ulong (1 + 1)) with 2.
  destruct e as [|s|s|s m ex]; try discriminate.
  cbn [mpfr_neg_val].
  pose proof (mpfr_fits_double _ _ _ _ F X) as FD.
  assert (FN : mpfr_fits MPFR_PREC (MFin (negb s) m ex) = true) by exact F.
  assert (FDN : mpfr_fits MPFR_PREC (MFin (negb s) m (ex + 1)) = true) by exact FD.
  (* delta = -2e, exactly *)
  assert (D : mpfr_sub MPFR_PREC (MFin (negb s) m ex) (MFin s m ex) = MFin (negb s) m (ex + 1)).
  { cbn [mpfr_sub].
    rewrite (mpfr_round_comp _ _ (toQ (MFin (negb s) m (ex + 1)))).
    - apply mpfr_round_toQ; [assumption|reflexivity].
    - rewrite toQ_double, toQ_negb. ring. }
  rewrite D.
  (* delta / 2 = -e, exactly *)
  assert (T : mpfr_div_ui MPFR_PREC (MFin (negb s) m (ex + 1)) 2 = MFin (negb s) m ex).
  { cbn [mpfr_div_ui Z.eqb].
    rewrite (mpfr_round_comp _ _ (toQ (MFin (negb s) m ex))).
    - apply mpfr_round_toQ; [assumption|reflexivity].
    - rewrite toQ_double. field. }
  rewrite T.
  change (MFin (negb s) m ex) with (mpfr_neg_val (MFin s m ex)).
  rewrite (mpfr_add_opp _ (MFin s m ex)) by reflexivity.
  cbn [mpfr_neg_val].
  rewrite (mpfr_sub_zero_r _ _ FN) by reflexivity.
  split; [reflexivity|]. split; [reflexivity|].
  unfold stats_variance_stddev. cbn [n m2 Z.ltb Z.compare fst].
  change (ulong (2 - 1)) with 1.
  rewrite mpfr_div_ui_1 by (apply mpfr_fma_fits, MPFR_PREC_pos).
  cbn [mpfr_fma].
  apply mpfr_round_comp.
  rewrite toQ_double, toQ_negb. cbn [toQ]. ring.
Qed.

Lemma stats_add_opposite_pair_witness :
  n cell_plus_minus_one = 2 /\
  mean cell_plus_minus_one = MZero false /\
  fst (stats_variance_stddev cell_plus_minus_one)
    = mpfr_round MPFR_PREC (2 * (toQ mpfr_one * toQ mpfr_one)).
Proof.
  apply (stats_add_opposite_pair "d" "g" mpfr_two mpfr_one mpfr_zero mpfr_one mpfr_one);
    vm_compute; reflexivity.
Defined.

(** C2 as stated fails already for [e = 1]: the variance reported with the
    [n - 1] divisor is 2, not [e^2 = 1]. *)
Lemma stats_add_opposite_pair_variance :
  stats_reldiff mpfr_two mpfr_one = mpfr_one /\
  stats_reldiff mpfr_zero mpfr_one = mpfr_neg_val mpfr_one /\
  mean cell_plus_minus_one = MZero false /\
  fst (stats_variance_stddev cell_plus_minus_one) = mpfr_two /\
  ~ (toQ (fst (stats_variance_stddev cell_plus_minus_one)) == toQ mpfr_one * toQ mpfr_one)%Q.
Proof.
  split; [vm_compute; reflexivity|]. split; [vm_compute; reflexivity|].
  split; [vm_compute; reflexivity|]. split; [vm_compute; reflexivity|].
  vm_compute. discriminate.
Qed.

(** * Native floats and the random inputs *)

(** ** Rational bounds on PI *)

Lemma PI_half_lower : (13176794.5 / 2 ^ 23 < PI / 2)%R.
Proof.
  pose proof (PI_2_3_7_ineq 4) as [L _].
  unfold PI_2_3_7_tg, tg_alt, Ratan_seq in L.
  cbn [sum_f_R0 Nat.mul Nat.add INR pow] in L.
  lra.
Qed.

Lemma PI_half_upper : (PI / 2 < 13176795 / 2 ^ 23)%R.
Proof.
  pose proof (PI_2_3_7_ineq 4) as [_ U].
  unfold PI_2_3_7_tg, tg_alt, Ratan_seq in U.
  cbn [sum_f_R0 Nat.mul Nat.add INR pow] in U.
  lra.
Qed.

(** ** Fields of a binary32 bit pattern *)

Lemma exp_mask_land x :
  Z.land x 0x7F800000 = Z.shiftl (ieee_exp_field binary32 x) 23.
Proof.
  unfold ieee_exp_field. cbn [mbits ebits binary32].
  change 0x7F800000 with (Z.shiftl (Z.ones 8) 23).
  apply Z.bits_inj'. intros k Hk.
  rewrite Z.land_spec.
  destruct (Z.ltb_spec k 23).
  - rewrite !Z.shiftl_spec_low by assumption. apply andb_false_r.
  - rewrite !Z.shiftl_spec by assumption.
    rewrite Z.land_spec, Z.shiftr_spec by lia.
    replace (k - 23 + 23) with k by lia. reflexivity.
Qed.

Lemma exp_field_range f x : 0 <= ebits f -> 0 <= ieee_exp_field f x < 2 ^ ebits f.
Proof.
  intros. unfold ieee_exp_field. rewrite Z.land_ones by assumption.
  apply Z.mod_pos_bound. apply Z.pow_pos_nonneg; lia.
Qed.

Lemma frac_field_range f x : 0 <= mbits f -> 0 <= ieee_frac_field f x < 2 ^ mbits f.
Proof.
  intros. unfold ieee_frac_field. rewrite Z.land_ones by assumption.
  apply Z.mod_pos_bound. apply Z.pow_pos_nonneg; lia.
Qed.

Lemma float_isfinite_exp x :
  float_isfinite x = negb (ieee_exp_field binary32 x =? 255).
Proof.
  unfold float_isfinite. rewrite exp_mask_land. f_equal.
  change 0x7F800000 with (Z.shiftl 255 23).
  rewrite !Z.shiftl_mul_pow2 by lia.
  destruct (Z.eqb_spec (ieee_exp_field binary32 x) 255) as [E|NE].
  - rewrite E. apply Z.eqb_refl.
  - apply Z.eqb_neq. lia.
Qed.

Lemma mk_fin_number s N e : mpfr_number_p (mk_fin s N e) = true.
Proof. unfold mk_fin. destruct N; try reflexivity. destruct (normalize _ _). reflexivity. Qed.

(** [float_isfinite] is finiteness of the value. *)
Lemma float_isfinite_val x : float_isfinite x = mpfr_number_p (float_val x).
Proof.
  rewrite float_isfinite_exp. unfold float_val, ieee_val.
  change (Z.ones (ebits binary32)) with 255.
  destruct (ieee_exp_field binary32 x =? 255).
  - destruct (_ =? 0); reflexivity.
  - destruct (_ =? 0); rewrite mk_fin_number; reflexivity.
Qed.

Lemma toQ_mk_fin_nonneg s N e : 0 <= N ->
  (toQ (mk_fin s N e) == sgnQ s * (inject_Z N * pow2 e))%Q.
Proof.
  intros HN. destruct (Z.eq_dec N 0) as [->|NZ].
  - cbn. ring.
  - apply toQ_mk_fin. lia.
Qed.

Lemma small_fields x : 0 <= x < 2 ^ 31 ->
  Z.testbit x 31 = false /\
  ieee_exp_field binary32 x = x / 2 ^ 23 /\
  ieee_frac_field binary32 x = x mod 2 ^ 23.
Proof.
  intros [L U]. split; [|split].
  - destruct (Z.eq_dec x 0) as [->|NZ]; [reflexivity|].
    apply Z.bits_above_log2; [assumption|]. apply Z.log2_lt_pow2; lia.
  - unfold ieee_exp_field. cbn [mbits ebits binary32].
    rewrite Z.land_ones, Z.shiftr_div_pow2 by lia.
    apply Z.mod_small. split.
    + apply Z.div_pos; lia.
    + apply Z.div_lt_upper_bound; lia.
  - unfold ieee_frac_field. cbn [mbits binary32]. apply Z.land_ones. lia.
Qed.

(** The value of a non-negative finite float, as a rational. *)
Lemma float_val_small x : 0 <= x < 0x7F800000 ->
  let ex := x / 2 ^ 23 in
  let frac := x mod 2 ^ 23 in
  (toQ (float_val x) ==
   if ex =? 0 then inject_Z frac * pow2 (-149)
   else inject_Z (2 ^ 23 + frac) * pow2 (ex - 150))%Q.
Proof.
  intros R. cbv zeta.
  destruct (small_fields x ltac:(lia)) as (S & E & F).
  pose proof (Z.mod_pos_bound x (2 ^ 23) ltac:(lia)) as FR.
  assert (EX : 0 <= x / 2 ^ 23 < 255).
  { split; [apply Z.div_pos; lia|]. apply Z.div_lt_upper_bound; lia. }
  unfold float_val, ieee_val.
  change (ebits binary32 + mbits binary32) with 31. rewrite S, E, F.
  change (Z.ones (ebits binary32)) with 255.
  destruct (Z.eqb_spec (x / 2 ^ 23) 255); [lia|].
  change (ieee_emin binary32) with (-149). change (mbits binary32) with 23.
  destruct (Z.eqb_spec (x / 2 ^ 23) 0).
  - rewrite toQ_mk_fin_nonneg by lia. cbn [sgnQ]. ring.
  - rewrite toQ_mk_fin_nonneg by lia. cbn [sgnQ].
    replace (x / 2 ^ 23 - 1 + -149) with (x / 2 ^ 23 - 150) by lia. ring.
Qed.

Lemma pow2_neg_Z k : 0 <= k -> (pow2 (- k) == 1 / inject_Z (2 ^ k))%Q.
Proof.
  intros Hk. replace (- k) with (0 - k) by lia. rewrite pow2_sub.
  rewrite (pow2_Z k Hk). rewrite pow2_0. reflexivity.
Qed.

(** Non-negative floats are ordered like their bit patterns: a pattern below
    that of [gt_pid2] has a value of at most [13176794 / 2^23]. *)
Lemma float_val_below_gt_pid2 x : 0 <= x < gt_pid2_int ->
  (0 <= toQ (float_val x) /\ toQ (float_val x) <= 13176794 # 8388608)%Q.
Proof.
  unfold gt_pid2_int. intros R.
  rewrite (float_val_small x) by lia. cbv zeta.
  pose proof (Z.mod_pos_bound x (2 ^ 23) ltac:(lia)) as FR.
  assert (EX : 0 <= x / 2 ^ 23 <= 127).
  { split; [apply Z.div_pos; lia|]. apply Z.lt_succ_r. apply Z.div_lt_upper_bound; lia. }
  pose proof (Z.div_mod x (2 ^ 23) ltac:(lia)) as DM.
  set (ex := x / 2 ^ 23) in *. set (frac := x mod 2 ^ 23) in *.
  assert (F0 : (0 <= inject_Z frac)%Q) by (rewrite <- (Zle_Qle 0); lia).
  assert (F1 : (inject_Z frac <= inject_Z (2 ^ 23))%Q) by (rewrite <- Zle_Qle; lia).
  destruct (Z.eqb_spec ex 0).
  - pose proof (pow2_pos (-149)) as P.
    assert (P2 : (pow2 (-149) <= pow2 (-23))%Q) by (apply pow2_le; lia).
    assert (V : (pow2 (-23) == 1 # 8388608)%Q) by reflexivity.
    split.
    + apply Qmult_le_0_compat; lra.
    + apply Qle_trans with (inject_Z (2 ^ 23) * pow2 (-23))%Q.
      * apply Qle_trans with (inject_Z (2 ^ 23) * pow2 (-149))%Q.
        -- apply Qmult_le_compat_r; lra.
        -- apply Qmult_le_l; [reflexivity | assumption].
      * rewrite V. unfold Qle. cbn. lia.
  - pose proof (pow2_pos (ex - 150)) as P.
    assert (G0 : (0 <= inject_Z (2 ^ 23 + frac))%Q) by (rewrite <- (Zle_Qle 0); lia).
    split; [apply Qmult_le_0_compat; lra|].
    destruct (Z.eq_dec ex 127) as [E127|NE].
    + rewrite E127. change (pow2 (127 - 150)) with (1 # 8388608)%Q.
      assert (FB : frac <= 4788186) by lia.
      assert (G1 : (inject_Z (2 ^ 23 + frac) <= inject_Z 13176794)%Q) by (rewrite <- Zle_Qle; lia).
      apply Qle_trans with (inject_Z 13176794 * (1 # 8388608))%Q.
      * apply Qmult_le_compat_r; [assumption | discriminate].
      * unfold Qle. cbn. lia.
    + assert (P2 : (pow2 (ex - 150) <= pow2 (-24))%Q) by (apply pow2_le; lia).
      assert (G1 : (inject_Z (2 ^ 23 + frac) <= inject_Z (2 ^ 24))%Q) by (rewrite <- Zle_Qle; lia).
      apply Qle_trans with (inject_Z (2 ^ 24) * pow2 (-24))%Q.
      * apply Qle_trans with (inject_Z (2 ^ 24) * pow2 (ex - 150))%Q.
        -- apply Qmult_le_compat_r; lra.
        -- apply Qmult_le_l; [reflexivity | assumption].
      * change (pow2 (-24)) with (1 # 16777216)%Q. unfold Qle. cbn. lia.
Qed.

Lemma below_PI_half q : (q <= 13176794 # 8388608)%Q -> (Q2R q < PI / 2)%R.
Proof.
  intros H. apply Qle_Rle in H.
  assert (E : Q2R (13176794 # 8388608) = (13176794 / 2 ^ 23)%R).
  { unfold Q2R. cbn [Qnum Qden]. change (Z.pos 8388608) with (2 ^ 23). 
    rewrite pow_IZR. reflexivity. }
  rewrite E in H. pose proof PI_half_lower. lra.
Qed.

(** ** Exact conversions and divisions in binary32 *)

Lemma mk_fin_shift s N k e : 0 < N -> 0 <= k -> mk_fin s (N * 2 ^ k) e = mk_fin s N (e + k).
Proof.
  intros HN Hk.
  assert (P : 0 < N * 2 ^ k) by (apply Z.mul_pos_pos; [lia|apply Z.pow_pos_nonneg; lia]).
  destruct N as [|m|m]; try lia.
  destruct (Z.pos m * 2 ^ k) as [|m'|m'] eqn:EQ; try lia.
  unfold mk_fin. rewrite (normalize_shift k Hk m e m' (eq_sym EQ)). reflexivity.
Qed.

Lemma ieee_round_comp f s x y : (0 < x)%Q -> (x == y)%Q -> ieee_round f s x = ieee_round f s y.
Proof.
  intros Hx E. unfold ieee_round. rewrite <- (Qmag_comp x y Hx E).
  assert (E2 : (x / pow2 (Z.max (Qmag x - (mbits f + 1)) (ieee_emin f))
               == y / pow2 (Z.max (Qmag x - (mbits f + 1)) (ieee_emin f)))%Q)
    by (apply Qmult_comp; [assumption | reflexivity]).
  rewrite (Qrne_comp _ _ E2). reflexivity.
Qed.

(** A number with at most 24 significant bits, no bit below [2^-149] and a
    magnitude below [2^128] is a float: rounding returns its own pattern. *)
Lemma float_round_exact N0 e0 :
  0 < N0 < 2 ^ 24 -> -149 <= e0 -> e0 + Z.log2 N0 + 1 <= 128 ->
  0 <= ieee_round binary32 false (inject_Z N0 * pow2 e0) < 0x7F800000 /\
  float_val (ieee_round binary32 false (inject_Z N0 * pow2 e0)) = mk_fin false N0 e0.
Proof.
  intros [N0p N0u] He0 Hmag.
  destruct N0 as [|m|m]; try lia.
  destruct (Z.log2_spec (Zpos m) ltac:(lia)) as [LL LU].
  pose proof (Z.log2_nonneg (Zpos m)) as L0.
  set (L := Z.log2 (Zpos m)) in *.
  assert (L23 : L <= 23).
  { destruct (Z_le_gt_dec L 23); [assumption|].
    assert (2 ^ 24 <= 2 ^ L) by (apply Z.pow_le_mono_r; lia). lia. }
  unfold ieee_round. rewrite Qmag_dyadic. fold L.
  change (mbits binary32 + 1) with 24. change (ieee_emin binary32) with (-149).
  change (mbits binary32) with 23. change (ieee_inf binary32) with 0x7F800000.
  set (e := Z.max (e0 + L + 1 - 24) (-149)).
  assert (Ee : e <= e0) by lia.
  assert (S : (inject_Z (Z.pos m) * pow2 e0 / pow2 e == inject_Z (Zpos m * 2 ^ (e0 - e)))%Q).
  { rewrite inject_Z_mult, <- pow2_Z by lia.
    unfold Qdiv. rewrite <- Qmult_assoc. apply Qmult_comp; [reflexivity|].
    fold (Qdiv (pow2 e0) (pow2 e)). rewrite <- pow2_sub. reflexivity. }
  rewrite (Qrne_comp _ _ S), Qrne_Z.
  set (k := e0 - e) in *. set (N := Zpos m * 2 ^ k).
  assert (Kp : 0 < 2 ^ k) by (apply Z.pow_pos_nonneg; lia).
  assert (NB : 0 < N < 2 ^ 24 /\ (-149 < e -> 2 ^ 23 <= N) /\ (N < 2 ^ 23 -> e = -149)).
  { unfold N. destruct (Z.max_spec (e0 + L + 1 - 24) (-149)) as [[C ME]|[C ME]]; fold e in ME.
    - (* e = -149 *)
      assert (KL : L + 1 + k <= 23) by lia.
      assert (Zpos m * 2 ^ k < 2 ^ (L + 1) * 2 ^ k) by (apply Z.mul_lt_mono_pos_r; lia).
      rewrite <- Z.pow_add_r in H by lia.
      assert (2 ^ (L + 1 + k) <= 2 ^ 23) by (apply Z.pow_le_mono_r; lia).
      repeat split; try lia.
    - (* e = e0 + L - 23 *)
      assert (KL : k = 23 - L) by lia.
      assert (U : Zpos m * 2 ^ k < 2 ^ (L + 1) * 2 ^ k) by (apply Z.mul_lt_mono_pos_r; lia).
      rewrite <- Z.pow_add_r in U by lia. replace (L + 1 + k) with 24 in U by lia.
      assert (Lw : 2 ^ L * 2 ^ k <= Zpos m * 2 ^ k) by (apply Z.mul_le_mono_nonneg_r; lia).
      rewrite <- Z.pow_add_r in Lw by lia. replace (L + k) with 23 in Lw by lia.
      repeat split; try lia. }
  destruct NB as ((Np & Nu) & Nn & Ns).
  assert (E104 : -149 <= e <= 104) by lia.
  set (bits := (e - -149) * 2 ^ 23 + N).
  assert (BR : 0 <= bits < 0x7F800000) by (unfold bits; lia).
  destruct (Z.leb_spec 0x7F800000 bits); [lia|].
  rewrite Z.add_0_r. split; [assumption|].
  destruct (small_fields bits ltac:(lia)) as (Sg & Ex & Fr).
  unfold float_val, ieee_val.
  change (ebits binary32 + mbits binary32) with 31. rewrite Sg, Ex, Fr.
  change (Z.ones (ebits binary32)) with 255. change (ieee_emin binary32) with (-149).
  change (mbits binary32) with 23.
  assert (T : mk_fin false N e = mk_fin false (Zpos m) e0).
  { unfold N. rewrite mk_fin_shift by lia. f_equal. lia. }
  destruct (Z_lt_ge_dec N (2 ^ 23)) as [Small|Big].
  - specialize (Ns Small).
    assert (B : bits = N) by (unfold bits; lia).
    rewrite B, Z.div_small, Z.mod_small by lia.
    cbn [Z.eqb]. rewrite <- T, Ns. reflexivity.
  - assert (B : bits = (N - 2 ^ 23) + (e + 150) * 2 ^ 23) by (unfold bits; lia).
    rewrite B, Z.div_add, Z.mod_add by lia.
    rewrite Z.div_small, Z.mod_small by lia.
    destruct (Z.eqb_spec (0 + (e + 150)) 255); [lia|].
    destruct (Z.eqb_spec (0 + (e + 150)) 0); [lia|].
    rewrite <- T. f_equal; lia.
Qed.

(** The conversion of an integer below [2^24] is exact. *)
Lemma float_of_ulong_exact i : 0 <= i < 2 ^ 24 ->
  float_val (float_of_ulong i) = mk_fin false i 0 /\ float_isfinite (float_of_ulong i) = true.
Proof.
  intros R. unfold float_of_ulong. destruct (Z.eqb_spec i 0) as [->|NZ]; [split; reflexivity|].
  assert (LG : Z.log2 i < 24) by (apply Z.log2_lt_pow2; lia).
  assert (X : (inject_Z i == inject_Z i * pow2 0)%Q) by (rewrite pow2_0; ring).
  assert (I0 : (0 < inject_Z i)%Q) by (rewrite <- (Zlt_Qlt 0); lia).
  rewrite (ieee_round_comp binary32 false _ _ I0 X).
  destruct (float_round_exact i 0 ltac:(lia) ltac:(lia) ltac:(lia)) as [B V].
  split; [assumption|]. rewrite float_isfinite_val, V. apply mk_fin_number.
Qed.

Lemma mk_fin_pos_regular s N e : 0 < N -> exists m e', mk_fin s N e = MFin s m e'.
Proof.
  intros. destruct N as [|m|m]; try lia. unfold mk_fin.
  destruct (normalize m e) as [m' e']. eauto.
Qed.

(** Dividing the float of an integer below [2^24] by the float [2^23]
    only moves the exponent. *)
Lemma float_div_pow2_exact i : 0 <= i < 2 ^ 24 ->
  float_val (float_div (float_of_ulong i) (float_of_ulong (Z.shiftl 1 23)))
    = mk_fin false i (-23).
Proof.
  intros R. unfold float_div.
  destruct (float_of_ulong_exact i R) as [V _]. rewrite V.
  assert (D : float_val (float_of_ulong (Z.shiftl 1 23)) = MFin false 1 23)
    by (vm_compute; reflexivity).
  rewrite D.
  destruct (Z.eq_dec i 0) as [->|NZ]; [reflexivity|].
  destruct (mk_fin_pos_regular false i 0 ltac:(lia)) as (m & e' & M).
  pose proof (toQ_mk_fin false i 0 ltac:(lia)) as TQ. rewrite M in TQ |- *.
  cbn [mpfr_signbit xorb].
  assert (X : (Qabs (toQ (MFin false m e') / toQ (MFin false 1 23))
               == inject_Z i * pow2 (-23))%Q).
  { rewrite TQ. cbn [sgnQ]. rewrite toQ_fin_false.
    assert (I0 : (0 < inject_Z i)%Q) by (rewrite <- (Zlt_Qlt 0); lia).
    change (pow2 23) with (8388608 # 1)%Q. change (pow2 (-23)) with (1 # 8388608)%Q.
    change (pow2 0) with 1%Q.
    rewrite Qabs_pos.
    - field.
    - apply Qle_shift_div_l; [reflexivity|]. lra. }
  assert (LG : Z.log2 i < 24) by (apply Z.log2_lt_pow2; lia).
  assert (P : (0 < Qabs (toQ (MFin false m e') / toQ (MFin false 1 23)))%Q).
  { rewrite X. apply Qmult_lt_0_compat; [rewrite <- (Zlt_Qlt 0); lia | apply pow2_pos]. }
  rewrite (ieee_round_comp binary32 false _ _ P X).
  apply (float_round_exact i (-23)); lia.
Qed.

(** ** The three distributions *)

Section RandomInputs.
Context `{GmpRandom}.

Lemma getrandom_1_draw st :
  snd (getrandom_1 st) = uint32 (snd (gmp_urandomm_ui st gt_pid2_int)).
Proof. unfold getrandom_1. destruct (gmp_urandomm_ui st gt_pid2_int). reflexivity. Qed.

Lemma getrandom_2_draw st :
  snd (getrandom_2 st) =
  float_div (float_of_ulong (snd (gmp_urandomm_ui st gt_pid2_ls23_int)))
            (float_of_ulong (Z.shiftl 1 23)).
Proof. unfold getrandom_2. destruct (gmp_urandomm_ui st gt_pid2_ls23_int). reflexivity. Qed.

Lemma getrandom_3_finite fuel : forall st st' x,
  getrandom_3 fuel st = Some (st', x) -> float_isfinite x = true.
Proof.
  induction fuel as [|fuel IH]; intros st st' x E; [discriminate|].
  cbn [getrandom_3] in E. destruct (gmp_urandomb_ui st 32) as [st1 r].
  destruct (Z.land (uint32 r) 0x7F800000 =? 0x7F800000) eqn:T.
  - eapply IH; eassumption.
  - injection E as _ <-. unfold float_isfinite. rewrite T. reflexivity.
Qed.

(** The loop returns as soon as a draw is accepted. *)
Lemma getrandom_3_returns k : forall st,
  accepted32 (draws32 k st) = true ->
  exists st' x, getrandom_3 (S k) st = Some (st', x).
Proof.
  induction k as [|k IH]; intros st A.
  - cbn [draws32] in A. unfold accepted32 in A. cbn [getrandom_3].
    destruct (gmp_urandomb_ui st 32) as [st1 r]. cbn [snd] in A.
    destruct (Z.land (uint32 r) 0x7F800000 =? 0x7F800000); [discriminate|]. eauto.
  - cbn [draws32] in A. specialize (IH _ A).
    change (getrandom_3 (S (S k)) st) with
      (let '(state, r) := gmp_urandomb_ui st 32 in
       if Z.land (uint32 r) 0x7F800000 =? 0x7F800000
       then getrandom_3 (S k) state else Some (state, uint32 r)).
    destruct (gmp_urandomb_ui st 32) as [st1 r]. cbn [fst] in IH.
    destruct (Z.land (uint32 r) 0x7F800000 =? 0x7F800000); eauto.
Qed.

Lemma uint32_small z : 0 <= z < 2 ^ 32 -> uint32 z = z.
Proof. intros. apply Z.mod_small. assumption. Qed.

(** C5: every sample is a finite float: for [getrandom_1] and [getrandom_2]
    at every state, with a value in [0, PI/2); for [getrandom_3] whenever it
    returns, and it returns once a draw has an exponent field that is not all
    ones. *)
Theorem getrandom_finite :
  gmp_random_range ->
  (forall st, let x := snd (getrandom_1 st) in
     mpfr_number_p (float_val x) = true /\
     (0 <= toQ (float_val x))%Q /\ (Q2R (toQ (float_val x)) < PI / 2)%R) /\
  (forall st, let x := snd (getrandom_2 st) in
     mpfr_number_p (float_val x) = true /\
     (0 <= toQ (float_val x))%Q /\ (Q2R (toQ (float_val x)) < PI / 2)%R) /\
  (forall fuel st st' x, getrandom_3 fuel st = Some (st', x) ->
     mpfr_number_p (float_val x) = true) /\
  (forall k st, accepted32 (draws32 k st) = true ->
     exists st' x, getrandom_3 (S k) st = Some (st', x) /\
                   mpfr_number_p (float_val x) = true).
Proof.
  intros [RM RB]. split; [|split; [|split]].
  - intros st. cbv zeta. rewrite getrandom_1_draw.
    pose proof (RM st gt_pid2_int ltac:(unfold gt_pid2_int, ULONG_MAX; lia)) as R.
    set (r := snd (gmp_urandomm_ui st gt_pid2_int)) in *.
    rewrite uint32_small by (unfold gt_pid2_int in R; lia).
    destruct (float_val_below_gt_pid2 r R) as [L U].
    split; [|split].
    + rewrite <- float_isfinite_val, float_isfinite_exp.
      destruct (small_fields r ltac:(unfold gt_pid2_int in R; lia)) as (_ & E & _).
      rewrite E. apply negb_true_iff, Z.eqb_neq.
      assert (r / 2 ^ 23 < 255) by (apply Z.div_lt_upper_bound; unfold gt_pid2_int in R; lia).
      lia.
    + assumption.
    + apply below_PI_half. assumption.
  - intros st. cbv zeta. rewrite getrandom_2_draw.
    pose proof (RM st gt_pid2_ls23_int ltac:(unfold gt_pid2_ls23_int, ULONG_MAX; lia)) as R.
    set (i := snd (gmp_urandomm_ui st gt_pid2_ls23_int)) in *.
    unfold gt_pid2_ls23_int in R.
    rewrite (float_div_pow2_exact i) by lia.
    split; [apply mk_fin_number|].
    assert (I0 : (0 <= inject_Z i)%Q) by (rewrite <- (Zle_Qle 0); lia).
    assert (I1 : (inject_Z i <= inject_Z 13176794)%Q) by (rewrite <- Zle_Qle; lia).
    assert (V : (toQ (mk_fin false i (-23)) == inject_Z i * (1 # 8388608))%Q).
    { rewrite toQ_mk_fin_nonneg by lia. cbn [sgnQ].
      change (pow2 (-23)) with (1 # 8388608)%Q. ring. }
    split.
    + rewrite V. apply Qmult_le_0_compat; [assumption | discriminate].
    + apply below_PI_half. rewrite V.
      apply Qle_trans with (inject_Z 13176794 * (1 # 8388608))%Q.
      * apply Qmult_le_compat_r; [assumption | discriminate].
      * unfold Qle. cbn. lia.
  - intros fuel st st' x E. rewrite <- float_isfinite_val.
    eapply getrandom_3_finite; eassumption.
  - intros k st A. destruct (getrandom_3_returns k st A) as (st' & x & E).
    exists st', x. split; [assumption|].
    rewrite <- float_isfinite_val. eapply getrandom_3_finite; eassumption.
Qed.

(** C6: [gt_pid2_ls23_int] is [2^23 * PI/2] rounded to the nearest integer;
    the integer [i] drawn by [getrandom_2] lies in [0, gt_pid2_ls23_int); its
    conversion to float and the division by the float [2^23] are exact, so
    that the sample is [i * 2^-23], a multiple of [2^-23] in [0, PI/2). *)
Theorem getrandom_2_exact :
  gmp_random_range ->
  (Rabs (IZR gt_pid2_ls23_int - 2 ^ 23 * (PI / 2)) < 1 / 2)%R /\
  forall st,
    let i := snd (gmp_urandomm_ui st gt_pid2_ls23_int) in
    let f := float_of_ulong i in
    let x := snd (getrandom_2 st) in
    0 <= i < gt_pid2_ls23_int /\
    (toQ (float_val f) == inject_Z i)%Q /\
    (toQ (float_val x) == toQ (float_val f) / inject_Z (2 ^ 23))%Q /\
    (toQ (float_val x) == inject_Z i * pow2 (-23))%Q /\
    (0 <= Q2R (toQ (float_val x)) < PI / 2)%R.
Proof.
  intros [RM RB]. split.
  - unfold gt_pid2_ls23_int. pose proof PI_half_lower. pose proof PI_half_upper.
    apply Rabs_def1; lra.
  - intros st. cbv zeta. rewrite getrandom_2_draw.
    pose proof (RM st gt_pid2_ls23_int ltac:(unfold gt_pid2_ls23_int, ULONG_MAX; lia)) as R.
    set (i := snd (gmp_urandomm_ui st gt_pid2_ls23_int)) in *.
    split; [assumption|]. unfold gt_pid2_ls23_int in R.
    destruct (float_of_ulong_exact i ltac:(lia)) as [VF _].
    rewrite (float_div_pow2_exact i) by lia. rewrite VF.
    assert (V0 : (toQ (mk_fin false i 0) == inject_Z i)%Q).
    { rewrite toQ_mk_fin_nonneg by lia. cbn [sgnQ]. rewrite pow2_0. ring. }
    assert (V : (toQ (mk_fin false i (-23)) == inject_Z i * pow2 (-23))%Q).
    { rewrite toQ_mk_fin_nonneg by lia. cbn [sgnQ]. ring. }
    assert (I0 : (0 <= inject_Z i)%Q) by (rewrite <- (Zle_Qle 0); lia).
    assert (I1 : (inject_Z i <= inject_Z 13176794)%Q) by (rewrite <- Zle_Qle; lia).
    split; [assumption|]. split; [|split; [assumption|]].
    + rewrite V, V0. change (pow2 (-23)) with (1 # 8388608)%Q.
      change (inject_Z (2 ^ 23)) with (8388608 # 1)%Q. field.
    + split.
      * replace 0%R with (Q2R 0) by (unfold Q2R; cbn; lra).
        apply Qle_Rle. rewrite V. apply Qmult_le_0_compat; [assumption|].
        apply Qlt_le_weak, pow2_pos.
      * apply below_PI_half. rewrite V. change (pow2 (-23)) with (1 # 8388608)%Q.
        apply Qle_trans with (inject_Z 13176794 * (1 # 8388608))%Q.
        -- apply Qmult_le_compat_r; [assumption | discriminate].
        -- unfold Qle. cbn. lia.
Qed.

End RandomInputs.

Lemma replay_random_range : @gmp_random_range replay_random.
Proof.
  split; intros st k Hk; cbn [gmp_urandomm_ui gmp_urandomb_ui replay_random snd].
  - apply Z.mod_pos_bound. lia.
  - apply Z.mod_pos_bound. apply Z.pow_pos_nonneg; lia.
Qed.

Lemma getrandom_finite_witness :
  @gmp_random_range replay_random /\
  mpfr_number_p (float_val (snd (@getrandom_1 replay_random 3%nat))) = true.
Proof.
  split; [exact replay_random_range|].
  exact (proj1 (proj1 (@getrandom_finite replay_random replay_random_range) 3%nat)).
Defined.

Lemma getrandom_2_exact_witness :
  @gmp_random_range replay_random /\
  (toQ (float_val (snd (@getrandom_2 replay_random 3%nat)))
   == inject_Z (snd (@gmp_urandomm_ui replay_random 3%nat gt_pid2_ls23_int)) * pow2 (-23))%Q.
Proof.
  split; [exact replay_random_range|].
  exact (proj1 (proj2 (proj2 (proj2
           (proj2 (@getrandom_2_exact replay_random replay_random_range) 3%nat))))).
Defined.

(** * The main loop *)

Section MainLoop.
Context `{GmpRandom} `{SineLibraries}.

Lemma stats_print_block c fh : stats_print c fh = fh ++ report_block c.
Proof.
  unfold stats_print, report_block. destruct (stats_variance_stddev c) as [v s].
  rewrite <- !app_assoc. reflexivity.
Qed.

(** A well-shaped matrix, cell by cell. *)
Lemma matrix_shape_cells st : matrix_shape st ->
  exists a0 a1 a2 a3 b0 b1 b2 b3 c0 c1 c2 c3,
    st = [[a0; a1; a2; a3]; [b0; b1; b2; b3]; [c0; c1; c2; c3]].
Proof.
  intros [L F]. cbn in L.
  destruct st as [|ra [|rb [|rc [|? ?]]]]; try discriminate.
  inversion F as [|? ? Fa F1]; subst. inversion F1 as [|? ? Fb F2]; subst.
  inversion F2 as [|? ? Fc _]; subst. cbn in Fa, Fb, Fc.
  destruct ra as [|a0 [|a1 [|a2 [|a3 [|? ?]]]]]; try discriminate.
  destruct rb as [|b0 [|b1 [|b2 [|b3 [|? ?]]]]]; try discriminate.
  destruct rc as [|c0 [|c1 [|c2 [|c3 [|? ?]]]]]; try discriminate.
  repeat eexists.
Qed.

Lemma cells_shape a0 a1 a2 a3 b0 b1 b2 b3 c0 c1 c2 c3 :
  matrix_shape [[a0; a1; a2; a3]; [b0; b1; b2; b3]; [c0; c1; c2; c3]].
Proof. split; [reflexivity|]. repeat constructor. Qed.

(** The loops of one pass do what the specification words: [run_combinations]
    is [pass_spec]. *)
Lemma run_combinations_pass fuel e : matrix_shape (stats e) ->
  run_combinations fuel e = pass_spec fuel e.
Proof.
  intros S. destruct e as [rs st out]. cbn [stats] in S.
  destruct (matrix_shape_cells st S)
    as (a0 & a1 & a2 & a3 & b0 & b1 & b2 & b3 & c0 & c1 & c2 & c3 & ->).
  unfold run_combinations, pass_spec, for_loop.
  cbn [NOBJS List.length distribution_table seq fold_left nth snd fst randstate stats stdout].
  destruct (getrandom_1 rs) as [s1 x1].
  cbn [NOBJS List.length distribution_table seq fold_left nth snd fst randstate stats stdout].
  destruct (getrandom_2 s1) as [s2 x2].
  cbn [NOBJS List.length distribution_table seq fold_left nth snd fst randstate stats stdout].
  destruct (getrandom_3 fuel s2) as [[s3 x3]|]; [|reflexivity].
  reflexivity.
Qed.


Lemma getrandom_3_mono fuel : forall st r fuel',
  getrandom_3 fuel st = Some r -> (fuel <= fuel')%nat -> getrandom_3 fuel' st = Some r.
Proof.
  induction fuel as [|fuel IH]; intros st r fuel' E L; [discriminate|].
  destruct fuel' as [|fuel']; [lia|].
  cbn [getrandom_3] in E |- *. destruct (gmp_urandomb_ui st 32) as [st1 x].
  destruct (Z.land (uint32 x) 0x7F800000 =? 0x7F800000); [|assumption].
  apply IH; [assumption | lia].
Qed.

Lemma source_fair_returns fuel st : source_fair fuel ->
  exists r, getrandom_3 fuel st = Some r.
Proof.
  intros F. destruct (F st) as (k & Lk & A).
  destruct (getrandom_3_returns k st A) as (st' & x & E).
  exists (st', x). apply (getrandom_3_mono (S k)); [assumption | lia].
Qed.

(** One pass adds one sample to every cell. *)
Lemma pass_spec_counts fuel e e' v :
  matrix_shape (stats e) -> all_counts v (stats e) ->
  pass_spec fuel e = Some e' ->
  matrix_shape (stats e') /\ all_counts (ulong (v + 1)) (stats e') /\ stdout e' = stdout e.
Proof.
  intros S C E. destruct e as [rs st out]. cbn [stats stdout] in *.
  destruct (matrix_shape_cells st S)
    as (a0 & a1 & a2 & a3 & b0 & b1 & b2 & b3 & c0 & c1 & c2 & c3 & ->).
  unfold pass_spec in E. cbn [randstate stats stdout] in E.
  destruct (getrandom_1 rs) as [s1 x1]. destruct (getrandom_2 s1) as [s2 x2].
  destruct (getrandom_3 fuel s2) as [[s3 x3]|]; [|discriminate].
  injection E as <-. cbn [stats stdout].
  unfold recorded_row. cbn [map combine generator_table fst snd].
  split; [apply cells_shape|]. split; [|reflexivity].
  intros d g Hd Hg. specialize (C d g Hd Hg).
  destruct d as [|[|[|d]]]; try lia; destruct g as [|[|[|[|g]]]]; try lia;
    cbn [cell nth] in C |- *; change (n (stats_add ?c ?y ?r)) with (ulong (n c + 1));
    rewrite C; reflexivity.
Qed.

Lemma print_all_stdout e : matrix_shape (stats e) ->
  stdout (print_all e) = stdout e ++ report (stats e) /\
  stats (print_all e) = stats e.
Proof.
  intros S. split; [|reflexivity]. destruct e as [rs st out]. cbn [stats stdout] in *.
  destruct (matrix_shape_cells st S)
    as (a0 & a1 & a2 & a3 & b0 & b1 & b2 & b3 & c0 & c1 & c2 & c3 & ->).
  unfold print_all, report.
  cbn [stats stdout NOBJS List.length distribution_table generator_table seq fold_left
       cell nth List.concat map app].
  rewrite !stats_print_block. rewrite <- !app_assoc. reflexivity.
Qed.

Lemma report_samples st dist gen : matrix_shape st -> (dist < 3)%nat -> (gen < 4)%nat ->
  nth (6 * (4 * dist + gen) + 1) (report st) LBlank = LSamples (n (cell st dist gen)).
Proof.
  intros S Hd Hg.
  destruct (matrix_shape_cells st S)
    as (a0 & a1 & a2 & a3 & b0 & b1 & b2 & b3 & c0 & c1 & c2 & c3 & ->).
  destruct dist as [|[|[|d]]]; try lia; destruct gen as [|[|[|[|g]]]]; try lia; reflexivity.
Qed.

Lemma main_init_shape : matrix_shape (stats main_init) /\ all_counts 0 (stats main_init).
Proof.
  split; [apply cells_shape|].
  intros d g Hd Hg.
  destruct d as [|[|[|d]]]; try lia; destruct g as [|[|[|[|g]]]]; try lia; reflexivity.
Qed.

(** After [K] passes every cell has counted [K] samples, modulo [2^64]. *)
Lemma main_loop_counts fuel hup K : source_fair fuel ->
  exists e, main_loop fuel hup K = Some e /\
            matrix_shape (stats e) /\ all_counts (Z.of_N K mod 2 ^ 64) (stats e).
Proof.
  intros F. unfold main_loop.
  set (step := fun '(k, e) =>
         (N.succ k, match e with Some e => main_iteration fuel (hup k) e | None => None end)).
  enough (G : exists e, N.iter K step (0%N, Some main_init) = (K, Some e) /\
                        matrix_shape (stats e) /\ all_counts (Z.of_N K mod 2 ^ 64) (stats e)).
  { destruct G as (e & E & S & C). exists e. rewrite E. auto. }
  induction K as [|K IH] using N.peano_ind.
  - exists main_init. split; [reflexivity|]. apply main_init_shape.
  - destruct IH as (e & E & S & C).
    rewrite N.iter_succ, E. cbn [step].
    unfold main_iteration. rewrite run_combinations_pass by assumption.
    assert (P : exists e', pass_spec fuel e = Some e').
    { unfold pass_spec. destruct (getrandom_1 (randstate e)) as [s1 x1].
      destruct (getrandom_2 s1) as [s2 x2].
      destruct (source_fair_returns fuel s2 F) as ([s3 x3] & R). rewrite R. eauto. }
    destruct P as (e' & P). rewrite P.
    destruct (pass_spec_counts fuel e e' _ S C P) as (S' & C' & _).
    assert (V : ulong (Z.of_N K mod 2 ^ 64 + 1) = Z.of_N (N.succ K) mod 2 ^ 64).
    { unfold ulong. rewrite N2Z.inj_succ. rewrite Z.add_mod_idemp_l by lia. f_equal. }
    rewrite V in C'.
    exists (if hup K then print_all e' else e'). split; [reflexivity|].
    destruct (hup K); auto.
Qed.

(** C7, as the code has it: one pass of the loop is the pass of the
    specification (one sample per distribution in table order, one shared
    reference sine, one [stats_add] per generator on the cell of that pair);
    after [K] passes every cell has the count [K] modulo [2^64], the width of
    the counter, and the final report shows that count in all twelve blocks. *)
Theorem main_counts (fuel : nat) :
  source_fair fuel ->
  (forall e, matrix_shape (stats e) -> run_combinations fuel e = pass_spec fuel e) /\
  (forall hup K, exists e,
      main_loop fuel hup K = Some e /\
      main fuel hup K = Some (stdout e ++ report (stats e)) /\
      forall dist gen, (dist < 3)%nat -> (gen < 4)%nat ->
        n (cell (stats e) dist gen) = Z.of_N K mod 2 ^ 64 /\
        nth (6 * (4 * dist + gen) + 1) (report (stats e)) LBlank
          = LSamples (Z.of_N K mod 2 ^ 64)).
Proof.
  intros F. split; [intros e S; apply run_combinations_pass; assumption|].
  intros hup K. destruct (main_loop_counts fuel hup K F) as (e & E & S & C).
  exists e. split; [assumption|]. split.
  - unfold main. rewrite E. f_equal. apply print_all_stdout. assumption.
  - intros d g Hd Hg. split; [apply C; assumption|].
    rewrite report_samples by assumption. f_equal. apply C; assumption.
Qed.

End MainLoop.

Lemma replay_random_fair : @source_fair replay_random 2.
Proof.
  intros st.
  destruct st as [|[|[|[|[|st]]]]].
  - exists 1%nat. split; [lia | reflexivity].
  - exists 0%nat. split; [lia | reflexivity].
  - exists 1%nat. split; [lia | reflexivity].
  - exists 0%nat. split; [lia | reflexivity].
  - exists 0%nat. split; [lia | reflexivity].
  - exists 0%nat. split; [lia|]. unfold accepted32.
    cbn [draws32 gmp_urandomb_ui replay_random snd nth recorded_draws]. 
    destruct st; reflexivity.
Qed.

Lemma main_counts_witness :
  @source_fair replay_random 2 /\
  exists e, @main_loop replay_random identity_sines 2 (fun _ => false) 3 = Some e /\
            n (cell (stats e) 2 3) = 3.
Proof.
  split; [exact replay_random_fair|].
  destruct (proj2 (@main_counts replay_random identity_sines 2 replay_random_fair)
              (fun _ => false) 3%N) as (e & E & _ & C).
  exists e. split; [exact E|]. exact (proj1 (C 2%nat 3%nat ltac:(lia) ltac:(lia))).
Defined.

(** C7 as stated fails once the counter has wrapped: after [2^64] passes
    every cell shows the count 0. *)
Lemma main_counts_wrap :
  exists e, @main_loop replay_random identity_sines 2 (fun _ => false) (2 ^ 64)%N = Some e /\
            n (cell (stats e) 0 0) = 0 /\
            n (cell (stats e) 0 0) <> Z.of_N (2 ^ 64)%N.
Proof.
  destruct (@main_loop_counts replay_random identity_sines 2 (fun _ => false) (2 ^ 64)%N
              replay_random_fair) as (e & E & _ & C).
  exists e. split; [exact E|].
  pose proof (C 0%nat 0%nat ltac:(lia) ltac:(lia)) as C0.
  assert (Z0 : Z.of_N (2 ^ 64)%N mod 2 ^ 64 = 0) by reflexivity.
  rewrite Z0 in C0. rewrite C0. split; [reflexivity|]. discriminate.
Qed.

(** * Widening the native results *)

Lemma mk_fin_fits p s N e : 0 <= N < 2 ^ p ->
  mpfr_emin <= e + 1 -> e + p <= mpfr_emax ->
  mpfr_fits p (mk_fin s N e) = true.
Proof.
  intros [N0 NU] E1 E2.
  destruct N as [|m|m]; try lia; [reflexivity|].
  unfold mk_fin. pose proof (normalize_spec m e) as S. cbv zeta in S.
  destruct (normalize m e) as [m' e']. cbn [fst snd] in S. destruct S as (O & L & V & G).
  assert (P0 : 0 <= p).
  { destruct (Z_lt_ge_dec p 0) as [Neg|]; [|lia]. rewrite Z.pow_neg_r in NU by assumption. lia. }
  assert (LN : Z.log2 (Zpos m) < p) by (apply Z.log2_lt_pow2; lia).
  pose proof (Z.log2_nonneg (Zpos m)). pose proof (Z.log2_nonneg (Zpos m')).
  assert (LM : Z.log2 (Zpos m') <= Z.log2 (Zpos m)).
  { apply Z.log2_le_mono. rewrite <- V. pose proof (Z.pow_pos_nonneg 2 (e' - e)). nia. }
  apply mpfr_fits_fin. repeat split; try assumption; lia.
Qed.

(** Rounding to [p] bits leaves every number alone that [mk_fin] builds
    from at most [p] bits within the exponent range. *)
Lemma mpfr_set_mk_fin p s N e : 0 <= N < 2 ^ p ->
  mpfr_emin <= e + 1 -> e + p <= mpfr_emax ->
  mpfr_set p (mk_fin s N e) = mk_fin s N e.
Proof. intros. apply mpfr_set_fits, mk_fin_fits; assumption. Qed.

Lemma ieee_val_fits f p bits :
  0 <= ebits f -> 0 <= mbits f -> mbits f + 1 <= p ->
  mpfr_emin <= ieee_emin f + 1 -> ieee_emin f + 2 ^ ebits f + p <= mpfr_emax ->
  mpfr_fits p (ieee_val f bits) = true.
Proof.
  intros He Hm Hp E1 E2. unfold ieee_val.
  pose proof (exp_field_range f bits He) as XR.
  pose proof (frac_field_range f bits Hm) as FR.
  assert (PM : 2 ^ (mbits f + 1) <= 2 ^ p) by (apply Z.pow_le_mono_r; lia).
  rewrite Z.pow_add_r in PM by lia. change (2 ^ 1) with 2 in PM.
  pose proof (Z.pow_pos_nonneg 2 (ebits f) ltac:(lia) He) as EP.
  pose proof (Z.pow_pos_nonneg 2 (mbits f) ltac:(lia) Hm) as MP.
  destruct (_ =? Z.ones (ebits f)); [destruct (_ =? 0); reflexivity|].
  destruct (Z.eqb_spec (ieee_exp_field f bits) 0); apply mk_fin_fits; lia.
Qed.

Lemma long_double_val_fits p bits : 64 <= p -> p <= 2 ^ 29 ->
  mpfr_fits p (long_double_val bits) = true.
Proof.
  intros Hp Hq. unfold long_double_val.
  assert (XR : 0 <= Z.land (Z.shiftr bits 64) (Z.ones 15) < 2 ^ 15).
  { rewrite Z.land_ones by lia. apply Z.mod_pos_bound. lia. }
  assert (SR : 0 <= Z.land bits (Z.ones 64) < 2 ^ 64).
  { rewrite Z.land_ones by lia. apply Z.mod_pos_bound. lia. }
  assert (PM : 2 ^ 64 <= 2 ^ p) by (apply Z.pow_le_mono_r; lia).
  destruct (_ =? Z.ones 15); [destruct (_ =? 2 ^ 63); reflexivity|].
  apply mk_fin_fits; unfold mpfr_emin, mpfr_emax; lia.
Qed.

(** ** Digits and their values *)

Lemma digit_value_hex_char d : 0 <= d <= 15 -> digit_value (hex_char d) = Some d.
Proof.
  intros R.
  assert (C : d = 0 \/ d = 1 \/ d = 2 \/ d = 3 \/ d = 4 \/ d = 5 \/ d = 6 \/ d = 7 \/
              d = 8 \/ d = 9 \/ d = 10 \/ d = 11 \/ d = 12 \/ d = 13 \/ d = 14 \/ d = 15) by lia.
  repeat (destruct C as [->|C]; [reflexivity|]). subst. reflexivity.
Qed.

Lemma hex_char_zero d : 0 <= d <= 15 -> Ascii.eqb (hex_char d) "0"%char = (d =? 0).
Proof.
  intros R.
  assert (C : d = 0 \/ d = 1 \/ d = 2 \/ d = 3 \/ d = 4 \/ d = 5 \/ d = 6 \/ d = 7 \/
              d = 8 \/ d = 9 \/ d = 10 \/ d = 11 \/ d = 12 \/ d = 13 \/ d = 14 \/ d = 15) by lia.
  repeat (destruct C as [->|C]; [reflexivity|]). subst. reflexivity.
Qed.

Lemma digits_value_app base l1 l2 acc :
  digits_value base (l1 ++ l2) acc = digits_value base l2 (digits_value base l1 acc).
Proof. unfold digits_value. apply fold_left_app. Qed.

(** Digits are read to their end. *)
Lemma parse_digits_app base l : forall rest acc cnt, all_digits base l ->
  parse_digits base (l ++ rest) acc cnt =
  parse_digits base rest (digits_value base l acc) (cnt + Z.of_nat (List.length l)).
Proof.
  induction l as [|c l IH]; intros rest acc cnt A.
  - cbn [app digits_value fold_left List.length Z.of_nat]. rewrite Z.add_0_r. reflexivity.
  - inversion A as [|? ? (d & D & R) A']; subst.
    cbn [app parse_digits]. rewrite D.
    destruct (Z.ltb_spec d base); [|lia].
    rewrite IH by assumption. unfold digits_value at 2. cbn [fold_left]. rewrite D.
    f_equal. cbn [List.length]. lia.
Qed.

Lemma hex_digits_spec k : forall v acc, 0 <= v < 16 ^ Z.of_nat k ->
  all_digits 16 (hex_digits k v) /\
  digits_value 16 (hex_digits k v) acc = acc * 16 ^ Z.of_nat k + v /\
  List.length (hex_digits k v) = k.
Proof.
  induction k as [|k IH]; intros v acc R.
  - cbn in R. cbn [hex_digits]. repeat split; [constructor | cbn; lia].
  - rewrite Nat2Z.inj_succ, Z.pow_succ_r in R by lia.
    pose proof (Z.mod_pos_bound v 16 ltac:(lia)) as M.
    pose proof (Z.div_mod v 16 ltac:(lia)) as DM.
    assert (Q : 0 <= v / 16 < 16 ^ Z.of_nat k).
    { split; [apply Z.div_pos; lia|]. apply Z.div_lt_upper_bound; lia. }
    destruct (IH (v / 16) acc Q) as (A & V & L).
    cbn [hex_digits]. split; [|split].
    + apply Forall_app. split; [assumption|]. constructor; [|constructor].
      exists (v mod 16). split; [apply digit_value_hex_char; lia | lia].
    + rewrite digits_value_app, V. unfold digits_value. cbn [fold_left].
      rewrite digit_value_hex_char by lia.
      rewrite Nat2Z.inj_succ, Z.pow_succ_r by lia. lia.
    + rewrite length_app, L. cbn. lia.
Qed.

Lemma dec_digits_spec fuel : forall v acc, 0 <= v < 10 ^ Z.of_nat (S fuel) ->
  let l := dec_digits fuel v in
  all_digits 10 l /\
  digits_value 10 l acc = acc * 10 ^ Z.of_nat (List.length l) + v /\
  (1 <= List.length l <= S fuel)%nat.
Proof.
  induction fuel as [|fuel IH]; intros v acc R; cbv zeta.
  - change (10 ^ Z.of_nat 1) with 10 in R. cbn [dec_digits].
    rewrite Z.mod_small by lia. split; [|split].
    + constructor; [|constructor]. exists v. split; [apply digit_value_hex_char; lia | lia].
    + unfold digits_value. cbn [fold_left]. rewrite digit_value_hex_char by lia.
      cbn [List.length]. change (10 ^ Z.of_nat 1) with 10. lia.
    + cbn. lia.
  - cbn [dec_digits]. destruct (Z.ltb_spec v 10).
    + split; [|split].
      * constructor; [|constructor]. exists v. split; [apply digit_value_hex_char; lia | lia].
      * unfold digits_value. cbn [fold_left]. rewrite digit_value_hex_char by lia.
        cbn [List.length]. change (10 ^ Z.of_nat 1) with 10. lia.
      * cbn. lia.
    + rewrite Nat2Z.inj_succ, Z.pow_succ_r in R by lia.
      pose proof (Z.mod_pos_bound v 10 ltac:(lia)) as M.
      pose proof (Z.div_mod v 10 ltac:(lia)) as DM.
      assert (Q : 0 <= v / 10 < 10 ^ Z.of_nat (S fuel)).
      { split; [apply Z.div_pos; lia|]. apply Z.div_lt_upper_bound; lia. }
      destruct (IH (v / 10) acc Q) as (A & V & L). cbv zeta in *.
      split; [|split].
      * apply Forall_app. split; [assumption|]. constructor; [|constructor].
        exists (v mod 10). split; [apply digit_value_hex_char; lia | lia].
      * rewrite digits_value_app, V. unfold digits_value. cbn [fold_left].
        rewrite digit_value_hex_char by lia.
        rewrite length_app. cbn [List.length]. rewrite Nat2Z.inj_add.
        change (Z.of_nat 1) with 1. rewrite Z.pow_add_r by lia. lia.
      * rewrite length_app. cbn [List.length]. lia.
Qed.

Lemma drop_trailing_zeros_snoc l c :
  drop_trailing_zeros (l ++ [c]) =
  if Ascii.eqb c "0"%char then drop_trailing_zeros l else l ++ [c].
Proof.
  induction l as [|x l IH].
  - cbn. destruct (Ascii.eqb c "0"%char); reflexivity.
  - cbn [app drop_trailing_zeros]. rewrite IH.
    destruct (Ascii.eqb c "0"%char); [reflexivity|].
    destruct (l ++ [c]) eqn:E; [destruct l; discriminate | reflexivity].
Qed.

(** Stripping the trailing zeros of [k] digits of [v] leaves the [j] digits
    of [v / 16^(k-j)], a division without remainder. *)
Lemma drop_trailing_zeros_hex k : forall v, 0 <= v < 16 ^ Z.of_nat k ->
  exists j v', (j <= k)%nat /\ 0 <= v' < 16 ^ Z.of_nat j /\
    drop_trailing_zeros (hex_digits k v) = hex_digits j v' /\
    v = v' * 16 ^ (Z.of_nat k - Z.of_nat j) /\ (v <> 0 -> j <> O).
Proof.
  induction k as [|k IH]; intros v R.
  - exists O, 0. cbn in R. cbn [hex_digits drop_trailing_zeros]. repeat split; try lia.
  - rewrite Nat2Z.inj_succ, Z.pow_succ_r in R by lia.
    pose proof (Z.mod_pos_bound v 16 ltac:(lia)) as M.
    pose proof (Z.div_mod v 16 ltac:(lia)) as DM.
    assert (Q : 0 <= v / 16 < 16 ^ Z.of_nat k).
    { split; [apply Z.div_pos; lia|]. apply Z.div_lt_upper_bound; lia. }
    cbn [hex_digits]. rewrite drop_trailing_zeros_snoc, hex_char_zero by lia.
    destruct (Z.eqb_spec (v mod 16) 0) as [Z0|NZ].
    + destruct (IH (v / 16) Q) as (j & v' & J & V' & D & E & NZ').
      exists j, v'. repeat split; try lia; try assumption.
      rewrite Nat2Z.inj_succ.
      replace (Z.succ (Z.of_nat k) - Z.of_nat j) with (Z.succ (Z.of_nat k - Z.of_nat j)) by lia.
      rewrite Z.pow_succ_r by lia. lia.
    + exists (S k), v. rewrite Z.sub_diag, Z.pow_0_r. cbn [hex_digits].
      rewrite Nat2Z.inj_succ, Z.pow_succ_r by lia. repeat split; try lia.
Qed.

Lemma drop_trailing_zeros_length l :
  (List.length (drop_trailing_zeros l) <= List.length l)%nat.
Proof.
  induction l as [|c l IH]; [cbn; lia|].
  cbn [drop_trailing_zeros]. destruct (drop_trailing_zeros l).
  - destruct (Ascii.eqb c "0"%char); cbn; lia.
  - cbn [List.length] in *. lia.
Qed.

(** ** From ["%Qa"] back to the number *)

Lemma round_pos_mk_fin p s N e : 0 < N < 2 ^ p ->
  mpfr_emin <= e + 1 -> e + p <= mpfr_emax ->
  round_pos p s (inject_Z N * pow2 e) = mk_fin s N e.
Proof.
  intros R E1 E2.
  pose proof (mk_fin_fits p s N e ltac:(lia) E1 E2) as F.
  pose proof (toQ_mk_fin false N e ltac:(lia)) as V.
  destruct (mk_fin_pos_regular s N e ltac:(lia)) as (m & e' & M).
  assert (M' : mk_fin false N e = MFin false m e').
  { unfold mk_fin in *. destruct N; try discriminate.
    destruct (normalize _ _). injection M as -> ->. reflexivity. }
  rewrite M in F |- *. rewrite M' in V. cbn [toQ sgnQ] in V.
  rewrite <- (round_pos_exact p s m e' F).
  apply round_pos_comp.
  - apply Qmult_lt_0_compat; [rewrite <- (Zlt_Qlt 0); lia | apply pow2_pos].
  - rewrite !Qmult_1_l in V. symmetry. exact V.
Qed.

Lemma pow16 z : (inject_Z 16 ^ z == pow2 (4 * z))%Q.
Proof. unfold pow2. rewrite Qpower_mult. reflexivity. Qed.

Lemma pow16_Z k : 0 <= k -> (inject_Z (16 ^ k) == pow2 (4 * k))%Q.
Proof.
  intros. rewrite pow2_Z by lia. rewrite Z.pow_mul_r by lia. reflexivity.
Qed.

Lemma parse_exponent_dec (neg : bool) a : 0 <= a < 10 ^ 20 ->
  parse_exponent ((if neg then "-"%char else "+"%char) :: dec_digits 19 a)
  = Some (if neg then - a else a, []).
Proof.
  intros R. destruct (dec_digits_spec 19 a 0 R) as (A & V & L). cbv zeta in *.
  unfold parse_exponent.
  assert (P : parse_digits 10 (dec_digits 19 a) 0 0
              = (a, Z.of_nat (List.length (dec_digits 19 a)), [])).
  { rewrite <- (app_nil_r (dec_digits 19 a)) at 1.
    rewrite parse_digits_app by assumption. cbn [parse_digits]. rewrite V. f_equal. }
  destruct neg; rewrite P;
    (destruct (Z.eqb_spec (Z.of_nat (List.length (dec_digits 19 a))) 0); [lia | reflexivity]).
Qed.

Lemma parse_scale_p e :
  - 10 ^ 20 < e < 10 ^ 20 ->
  parse_scale 16 ("p"%char :: (if e <? 0 then "-"%char else "+"%char)
                            :: dec_digits 19 (Z.abs e)) = (pow2 e, []).
Proof.
  intros R. unfold parse_scale.
  change (Ascii.eqb (lower "p") "p" && negb (16 =? 10))%bool with true. cbv iota.
  rewrite parse_exponent_dec by lia.
  destruct (Z.ltb_spec e 0); f_equal; f_equal; lia.
Qed.

(** The digits behind ["0x"]: a leading digit, the stripped fraction behind
    a point when there is one, and the exponent part. *)
Lemma parse_number_hex p neg d0 j v e :
  0 <= d0 <= 1 -> 0 <= v < 16 ^ Z.of_nat j -> - 10 ^ 20 < e < 10 ^ 20 ->
  let tail := "p"%char :: (if e <? 0 then "-"%char else "+"%char) :: dec_digits 19 (Z.abs e) in
  let m := d0 * 16 ^ Z.of_nat j + v in
  parse_number p neg 16 (hex_char d0 :: (match j with
                                         | O => tail
                                         | S _ => "."%char :: hex_digits j v ++ tail
                                         end))
  = Some (if m =? 0 then MZero neg
          else round_pos p neg (inject_Z m * pow2 (e - 4 * Z.of_nat j)), []).
Proof.
  intros D0 V E. cbv zeta.
  set (tail := "p"%char :: (if e <? 0 then "-"%char else "+"%char) :: dec_digits 19 (Z.abs e)).
  assert (PT : parse_scale 16 tail = (pow2 e, [])) by (apply parse_scale_p; assumption).
  unfold parse_number.
  assert (H0 : digit_value (hex_char d0) = Some d0) by (apply digit_value_hex_char; lia).
  cbn [parse_digits]. rewrite H0. destruct (Z.ltb_spec d0 16); [|lia].
  change (0 * 16 + d0) with d0. change (0 + 1) with 1.
  destruct j as [|j].
  - change (parse_digits 16 tail d0 1) with (d0, 1, tail).
    cbv iota beta. change (match tail with "."%char :: t => parse_digits 16 t d0 0 | _ => (d0, 0, tail) end)
      with (d0, 0, tail).
    cbv iota beta. change (1 + 0 =? 0) with false. cbv iota.
    rewrite PT. cbn in V. assert (v = 0) by lia. subst v.
    change (Z.of_nat 0) with 0. rewrite Z.mul_0_r, Z.sub_0_r, Z.pow_0_r, Z.mul_1_r, Z.add_0_r.
    destruct (Z.eqb_spec d0 0); [reflexivity|]. f_equal. f_equal.
    apply round_pos_comp.
    + repeat apply Qmult_lt_0_compat; try apply pow2_pos; try reflexivity.
      rewrite <- (Zlt_Qlt 0). lia.
    + change (inject_Z 16 ^ (- 0))%Q with 1%Q. ring.
  - change (parse_digits 16 ("."%char :: hex_digits (S j) v ++ tail) d0 1)
      with (d0, 1, "."%char :: hex_digits (S j) v ++ tail).
    cbv iota beta.
    destruct (hex_digits_spec (S j) v d0 V) as (A & DV & L).
    rewrite parse_digits_app by assumption. rewrite DV, L.
    change (parse_digits 16 tail ?a ?c) with (a, c, tail).
    cbv iota beta.
    destruct (Z.eqb_spec (1 + (0 + Z.of_nat (S j))) 0); [lia|].
    rewrite PT. rewrite Z.add_0_l.
    pose proof (Z.pow_pos_nonneg 16 (Z.of_nat (S j)) ltac:(lia) ltac:(lia)) as PP.
    destruct (Z.eqb_spec (d0 * 16 ^ Z.of_nat (S j) + v) 0); [reflexivity|]. f_equal. f_equal.
    apply round_pos_comp.
    + repeat apply Qmult_lt_0_compat; try apply pow2_pos.
      * rewrite <- (Zlt_Qlt 0). nia.
      * rewrite pow16. apply pow2_pos.
    + rewrite pow16. rewrite <- Qmult_assoc. rewrite <- pow2_add.
      replace (4 * - Z.of_nat (S j) + e) with (e - 4 * Z.of_nat (S j)) by lia. reflexivity.
Qed.

Lemma mpfr_strtofr_0x p (neg : bool) t r :
  parse_number p neg 16 t = Some r ->
  mpfr_strtofr p ((if neg then ["-"%char] else []) ++ "0"%char :: "x"%char :: t) = r.
Proof.
  intros E. unfold mpfr_strtofr.
  destruct neg; cbv -[parse_number]; rewrite E; reflexivity.
Qed.

Lemma hex_digits_length k : forall v, List.length (hex_digits k v) = k.
Proof.
  induction k as [|k IH]; intros v; [reflexivity|].
  cbn [hex_digits]. rewrite length_app, IH. cbn. lia.
Qed.

Lemma printf_Qa_length bits : (List.length (printf_Qa bits) <= 63)%nat.
Proof.
  unfold printf_Qa.
  set (ex := ieee_exp_field binary128 bits). set (frac := ieee_frac_field binary128 bits).
  set (e := if ex =? 0 then if frac =? 0 then 0 else -16382 else ex - 16383).
  assert (XR : 0 <= ex < 2 ^ 15) by (apply (exp_field_range binary128); cbn; lia).
  assert (ER : 0 <= Z.abs e < 10 ^ Z.of_nat 20).
  { unfold e. destruct (ex =? 0); [destruct (frac =? 0)|]; lia. }
  destruct (dec_digits_spec 19 (Z.abs e) 0 ER) as (_ & _ & DL). cbv zeta in DL.
  pose proof (drop_trailing_zeros_length (hex_digits 28 frac)) as SL.
  rewrite hex_digits_length in SL.
  rewrite length_app.
  assert (S1 : (List.length (if Z.testbit bits 127 then ["-"%char] else []) <= 1)%nat)
    by (destruct (Z.testbit bits 127); cbn; lia).
  destruct (ex =? 32767).
  - destruct (frac =? 0); cbn [List.length]; lia.
  - rewrite !length_app. cbn [List.length].
    destruct (frac =? 0); cbn [List.length]; lia.
Qed.

Lemma drop_trailing_zeros_of_zero k : drop_trailing_zeros (hex_digits k 0) = [].
Proof.
  induction k as [|k IH]; [reflexivity|]. cbn [hex_digits].
  rewrite drop_trailing_zeros_snoc. change (0 / 16) with 0. exact IH.
Qed.

(** What ["%Qa"] prints is read back as the number it was printed from,
    whenever the destination has room for the 113 bits of a [__float128]. *)
Lemma printf_Qa_strtofr p bits : 113 <= p <= 2 ^ 29 ->
  mpfr_strtofr p (printf_Qa bits) = (float128_val bits, []).
Proof.
  intros Hp. unfold printf_Qa, float128_val, ieee_val.
  change (ebits binary128 + mbits binary128) with 127.
  change (Z.ones (ebits binary128)) with 32767.
  change (ieee_emin binary128) with (-16494). change (mbits binary128) with 112.
  set (sign := Z.testbit bits 127).
  set (ex := ieee_exp_field binary128 bits). set (frac := ieee_frac_field binary128 bits).
  assert (XR : 0 <= ex < 2 ^ 15) by (apply (exp_field_range binary128); cbn; lia).
  assert (FR : 0 <= frac < 16 ^ Z.of_nat 28) by (apply (frac_field_range binary128); cbn; lia).
  assert (P2 : 2 ^ 113 <= 2 ^ p) by (apply Z.pow_le_mono_r; lia).
  destruct (Z.eqb_spec ex 32767) as [X1|X1].
  { destruct (frac =? 0); destruct sign; reflexivity. }
  set (e := if ex =? 0 then if frac =? 0 then 0 else -16382 else ex - 16383).
  assert (ER : - 10 ^ 20 < e < 10 ^ 20).
  { unfold e. destruct (ex =? 0); [destruct (frac =? 0)|]; lia. }
  set (d0 := if ex =? 0 then 0 else 1).
  assert (LD : (if ex =? 0 then "0"%char else "1"%char) = hex_char d0)
    by (unfold d0; destruct (ex =? 0); reflexivity).
  rewrite LD.
  assert (D0 : 0 <= d0 <= 1) by (unfold d0; destruct (ex =? 0); lia).
  destruct (drop_trailing_zeros_hex 28 frac FR) as (j & v & J & V & DZ & FV & JN).
  pose proof (parse_number_hex p sign d0 j v e D0 V ER) as PN. cbv zeta in PN.
  assert (SH : (["0"%char; "x"%char; hex_char d0]
                ++ (if frac =? 0 then []
                    else "."%char :: drop_trailing_zeros (hex_digits 28 frac))
                ++ ["p"%char; if e <? 0 then "-"%char else "+"%char] ++ dec_digits 19 (Z.abs e))
               = "0"%char :: "x"%char :: hex_char d0 ::
                 match j with
                 | O => "p"%char :: (if e <? 0 then "-"%char else "+"%char) :: dec_digits 19 (Z.abs e)
                 | S _ => "."%char :: hex_digits j v ++
                          "p"%char :: (if e <? 0 then "-"%char else "+"%char) :: dec_digits 19 (Z.abs e)
                 end).
  { destruct (Z.eqb_spec frac 0) as [F0|F0].
    - destruct j as [|j]; [reflexivity|]. exfalso.
      rewrite F0, drop_trailing_zeros_of_zero in DZ.
      pose proof (hex_digits_length (S j) v) as L. rewrite <- DZ in L. discriminate.
    - specialize (JN F0). destruct j as [|j]; [contradiction|]. rewrite DZ. reflexivity. }
  rewrite SH. rewrite (mpfr_strtofr_0x p sign _ _ PN). f_equal.
  (* the value *)
  set (m := d0 * 16 ^ Z.of_nat j + v).
  pose proof (Z.pow_pos_nonneg 16 (Z.of_nat j) ltac:(lia) ltac:(lia)) as PJ.
  assert (P28 : 16 ^ Z.of_nat 28 = 16 ^ Z.of_nat j * 16 ^ (Z.of_nat 28 - Z.of_nat j)).
  { rewrite <- Z.pow_add_r by lia. f_equal. lia. }
  pose proof (Z.pow_pos_nonneg 16 (Z.of_nat 28 - Z.of_nat j) ltac:(lia) ltac:(lia)) as PK.
  assert (KQ : (inject_Z (16 ^ (Z.of_nat 28 - Z.of_nat j))
                == pow2 (4 * (Z.of_nat 28 - Z.of_nat j)))%Q)
    by (apply pow16_Z; lia).
  set (K := 16 ^ (Z.of_nat 28 - Z.of_nat j)) in *.
  change (2 ^ 112) with (16 ^ Z.of_nat 28).
  assert (DV : d0 = if ex =? 0 then 0 else 1) by reflexivity.
  assert (EV : e = if ex =? 0 then if frac =? 0 then 0 else -16382 else ex - 16383)
    by reflexivity.
  clearbody d0 e.
  destruct (Z.eqb_spec ex 0) as [X0|X0].
  - (* zero and subnormal numbers *)
    assert (M : m = v) by (unfold m; lia).
    rewrite M. destruct (Z.eqb_spec v 0) as [V0|V0].
    + rewrite FV, V0. reflexivity.
    + assert (F0 : frac <> 0) by (rewrite FV; nia).
      assert (EE : e = -16382) by (destruct (Z.eqb_spec frac 0); [contradiction | assumption]).
      rewrite <- (round_pos_mk_fin p sign frac (-16494))
        by (unfold mpfr_emin, mpfr_emax; change (16 ^ Z.of_nat 28) with (2 ^ 112) in FR; lia).
      apply round_pos_comp.
      * apply Qmult_lt_0_compat; [rewrite <- (Zlt_Qlt 0); lia | apply pow2_pos].
      * rewrite FV, inject_Z_mult, KQ, <- Qmult_assoc, <- pow2_add.
        replace (4 * (Z.of_nat 28 - Z.of_nat j) + -16494) with (e - 4 * Z.of_nat j) by lia.
        reflexivity.
  - (* normal numbers *)
    assert (M : m = 16 ^ Z.of_nat j + v) by (unfold m; lia).
    destruct (Z.eqb_spec m 0); [lia|].
    rewrite <- (round_pos_mk_fin p sign (16 ^ Z.of_nat 28 + frac) (ex - 1 + -16494))
      by (unfold mpfr_emin, mpfr_emax; change (16 ^ Z.of_nat 28) with (2 ^ 112) in *; lia).
    apply round_pos_comp.
    + apply Qmult_lt_0_compat; [rewrite <- (Zlt_Qlt 0); lia | apply pow2_pos].
    + replace (16 ^ Z.of_nat 28 + frac) with (m * K) by (rewrite P28, FV, M; ring).
      rewrite inject_Z_mult, KQ, <- Qmult_assoc, <- pow2_add.
      replace (4 * (Z.of_nat 28 - Z.of_nat j) + (ex - 1 + -16494))
        with (e - 4 * Z.of_nat j) by lia.
      reflexivity.
Qed.

(** ** The four generators *)

Section Generators.
Context `{SineLibraries}.

Lemma quadmath_snprintf_all bits : quadmath_snprintf 64 bits = printf_Qa bits.
Proof.
  unfold quadmath_snprintf. apply firstn_all2.
  change (64 - 1)%nat with 63%nat. apply printf_Qa_length.
Qed.

(** C9: each generator leaves in the 144-bit [mpfrtemp] exactly the number
    its native sine returned: 24, 53, 64 and 113 significant bits fit, the
    native exponents lie inside the exponent range of MPFR, and the
    hexadecimal string of the [__float128] result (never cut by the 64-byte
    buffer) is read back whole, without rounding. *)
Theorem getsin_exact (phase : Z) :
  getsin_flt mpfrtemp_prec phase = float_val (sinf phase) /\
  getsin_d mpfrtemp_prec phase = double_val (sin (double_of_float phase)) /\
  getsin_ld mpfrtemp_prec phase = long_double_val (sinl (long_double_of_float phase)) /\
  getsin_q mpfrtemp_prec phase = float128_val (sinq (float128_of_float phase)) /\
  mpfr_set_str mpfrtemp_prec (quadmath_snprintf 64 (sinq (float128_of_float phase)))
    = (float128_val (sinq (float128_of_float phase)), 0).
Proof.
  assert (Q : forall bits, mpfr_set_str mpfrtemp_prec (quadmath_snprintf 64 bits)
                           = (float128_val bits, 0)).
  { intros bits. unfold mpfr_set_str. rewrite quadmath_snprintf_all.
    rewrite printf_Qa_strtofr by (unfold mpfrtemp_prec; lia). reflexivity. }
  split; [|split; [|split; [|split]]].
  - unfold getsin_flt, mpfr_set_flt. apply mpfr_set_fits.
    apply ieee_val_fits; cbn; unfold mpfr_emin, mpfr_emax; lia.
  - unfold getsin_d, mpfr_set_d. apply mpfr_set_fits.
    apply ieee_val_fits; cbn; unfold mpfr_emin, mpfr_emax; lia.
  - unfold getsin_ld, mpfr_set_ld. apply mpfr_set_fits.
    apply long_double_val_fits; unfold mpfrtemp_prec; lia.
  - unfold getsin_q. rewrite Q. reflexivity.
  - apply Q.
Qed.

End Generators.

(** * Rounding and order *)

(** ** The rounded value lies between the representable neighbours *)

(** A number [mc * 2^ec] of at most [p] bits above a positive [x] is also
    above [x] rounded to [p] bits with an unbounded exponent. *)
Lemma core_le p x mc ec : 1 <= p -> (0 < x)%Q -> 0 < mc < 2 ^ p ->
  (x <= inject_Z mc * pow2 ec)%Q ->
  (inject_Z (Qrne (x / pow2 (Qmag x - p))) * pow2 (Qmag x - p) <= inject_Z mc * pow2 ec)%Q.
Proof.
  intros Hp Hx [M0 MU] Hc.
  destruct (Qmag_spec x Hx) as [L U].
  set (E := Qmag x) in *. pose proof (pow2_pos (E - p)) as PE.
  destruct (Z_le_gt_dec (E - p) ec) as [C|C].
  - (* [c] is a multiple of the unit of [x] *)
    assert (K : (inject_Z mc * pow2 ec == inject_Z (mc * 2 ^ (ec - (E - p))) * pow2 (E - p))%Q).
    { rewrite inject_Z_mult, <- pow2_Z by lia. rewrite <- Qmult_assoc, <- pow2_add.
      replace (ec - (E - p) + (E - p)) with ec by lia. reflexivity. }
    rewrite K. apply Qmult_le_compat_r; [|lra].
    rewrite <- Zle_Qle. apply Qrne_le_Z.
    apply Qle_shift_div_r; [assumption|]. rewrite <- K. assumption.
  - (* [c] is below [2^(E-1)], hence below [x] *)
    exfalso.
    assert (B : (inject_Z mc * pow2 ec < pow2 (E - 1))%Q).
    { apply Qlt_le_trans with (inject_Z (2 ^ p) * pow2 ec)%Q.
      - apply Qmult_lt_compat_r; [apply pow2_pos|]. rewrite <- Zlt_Qlt. lia.
      - rewrite <- pow2_Z by lia. rewrite <- pow2_add. apply pow2_le. lia. }
    lra.
Qed.

Lemma core_ge p x mc ec : 1 <= p -> (0 < x)%Q -> 0 < mc < 2 ^ p ->
  (inject_Z mc * pow2 ec <= x)%Q ->
  (inject_Z mc * pow2 ec <= inject_Z (Qrne (x / pow2 (Qmag x - p))) * pow2 (Qmag x - p))%Q.
Proof.
  intros Hp Hx [M0 MU] Hc.
  destruct (Qmag_spec x Hx) as [L U].
  pose proof (N_range p x Hp Hx) as [NL NU].
  set (E := Qmag x) in *. pose proof (pow2_pos (E - p)) as PE.
  set (N := Qrne (x / pow2 (E - p))) in *.
  destruct (Z_le_gt_dec (E - p) ec) as [C|C].
  - assert (K : (inject_Z mc * pow2 ec == inject_Z (mc * 2 ^ (ec - (E - p))) * pow2 (E - p))%Q).
    { rewrite inject_Z_mult, <- pow2_Z by lia. rewrite <- Qmult_assoc, <- pow2_add.
      replace (ec - (E - p) + (E - p)) with ec by lia. reflexivity. }
    rewrite K. apply Qmult_le_compat_r; [|lra].
    rewrite <- Zle_Qle. apply Qrne_ge_Z.
    apply Qle_shift_div_l; [assumption|]. rewrite <- K. assumption.
  - apply Qle_trans with (pow2 (E - 1)).
    + apply Qlt_le_weak.
      apply Qlt_le_trans with (inject_Z (2 ^ p) * pow2 ec)%Q.
      * apply Qmult_lt_compat_r; [apply pow2_pos|]. rewrite <- Zlt_Qlt. lia.
      * rewrite <- pow2_Z by lia. rewrite <- pow2_add. apply pow2_le. lia.
    + replace (E - 1) with ((p - 1) + (E - p)) by lia. rewrite pow2_add.
      apply Qmult_le_compat_r; [|lra].
      rewrite pow2_Z by lia. rewrite <- Zle_Qle. assumption.
Qed.

(** The four outcomes of rounding a positive number, with the value [v]
    rounded at an unbounded exponent. *)
Lemma round_pos_cases p s x : 1 <= p -> (0 < x)%Q ->
  let v := (inject_Z (Qrne (x / pow2 (Qmag x - p))) * pow2 (Qmag x - p))%Q in
  (round_pos p s x = MInf s /\ (pow2 mpfr_emax <= v)%Q) \/
  (round_pos p s x = MZero s /\ (v < pow2 (mpfr_emin - 1))%Q /\ (x <= pow2 (mpfr_emin - 2))%Q) \/
  (round_pos p s x = MFin s 1 (mpfr_emin - 1) /\
     (v < pow2 (mpfr_emin - 1))%Q /\ (pow2 (mpfr_emin - 2) < x)%Q) \/
  (exists m e, round_pos p s x = MFin s m e /\ (inject_Z (Zpos m) * pow2 e == v)%Q /\
               (pow2 (mpfr_emin - 1) <= v)%Q /\ (v < pow2 mpfr_emax)%Q).
Proof.
  intros Hp Hx v. unfold round_pos.
  pose proof (N_range p x Hp Hx) as [NL NU].
  set (E := Qmag x) in *. set (N := Qrne (x / pow2 (E - p))) in *. fold N in v.
  pose proof (pow2_pos (E - p)) as PE.
  set (E' := if N =? 2 ^ p then E + 1 else E).
  assert (VB : (pow2 (E' - 1) <= v /\ v < pow2 E')%Q).
  { unfold E', v. destruct (Z.eqb_spec N (2 ^ p)) as [EQ|NE].
    - rewrite EQ. rewrite <- pow2_Z by lia. rewrite <- pow2_add.
      replace (p + (E - p)) with (E + 1 - 1) by lia. split; [lra|]. apply pow2_lt. lia.
    - split.
      + replace (E - 1) with ((p - 1) + (E - p)) by lia. rewrite pow2_add.
        apply Qmult_le_compat_r; [|lra]. rewrite pow2_Z by lia. rewrite <- Zle_Qle. assumption.
      + replace E with (p + (E - p)) at 2 by lia. rewrite pow2_add.
        apply Qmult_lt_compat_r; [assumption|]. rewrite pow2_Z by lia. rewrite <- Zlt_Qlt. lia. }
  destruct VB as [VL VU]. fold E'.
  destruct (Z.ltb_spec mpfr_emax E').
  { left. split; [reflexivity|]. eapply Qle_trans; [|exact VL]. apply pow2_le. lia. }
  destruct (Z.ltb_spec E' mpfr_emin).
  { assert (VS : (v < pow2 (mpfr_emin - 1))%Q).
    { eapply Qlt_le_trans; [exact VU|]. apply pow2_le. lia. }
    destruct (Qle_bool x (pow2 (mpfr_emin - 2))) eqn:C.
    - right. left. apply Qle_bool_iff in C. auto.
    - right. right. left. split; [reflexivity|]. split; [assumption|].
      apply Qnot_le_lt. intro K. apply Qle_bool_iff in K. congruence. }
  right. right. right.
  destruct (mk_fin_spec p s N E Hp (conj NL NU)) as (m & e & EQ & _ & _ & _ & V).
  exists m, e. split; [assumption|]. split; [assumption|]. split.
  - eapply Qle_trans; [|exact VL]. apply pow2_le. lia.
  - eapply Qlt_le_trans; [exact VU|]. apply pow2_le. lia.
Qed.

Lemma fits_bounds p s m e : mpfr_fits p (MFin s m e) = true ->
  0 < Zpos m < 2 ^ p /\
  (pow2 (mpfr_emin - 1) <= inject_Z (Zpos m) * pow2 e)%Q /\
  (inject_Z (Zpos m) * pow2 e < pow2 mpfr_emax)%Q.
Proof.
  intros F. apply mpfr_fits_fin in F. destruct F as (O & B & R1 & R2).
  pose proof (Z.log2_nonneg (Zpos m)).
  split; [|split].
  - split; [lia|]. apply Z.log2_lt_pow2; lia.
  - eapply Qle_trans; [|apply dyadic_lower]. apply pow2_le. lia.
  - eapply Qlt_le_trans; [apply dyadic_upper|]. apply pow2_le. lia.
Qed.

(** Rounding a positive [x] below a representable [c] stays below [c] and
    does not overflow. *)
Lemma round_pos_le p x m e : 1 <= p -> (0 < x)%Q ->
  mpfr_fits p (MFin false m e) = true ->
  (x <= inject_Z (Zpos m) * pow2 e)%Q ->
  mpfr_number_p (round_pos p false x) = true /\
  mpfr_signbit (round_pos p false x) = false /\
  (toQ (round_pos p false x) <= inject_Z (Zpos m) * pow2 e)%Q.
Proof.
  intros Hp Hx F Hc. destruct (fits_bounds _ _ _ _ F) as (MB & CL & CU).
  pose proof (core_le p x (Zpos m) e Hp Hx MB Hc) as V.
  destruct (round_pos_cases p false x Hp Hx) as [(R & B)|[(R & B & _)|[(R & B & _)|(m' & e' & R & B & _)]]];
    cbv zeta in B; rewrite R.
  - lra.
  - repeat split. cbn [toQ]. pose proof (pow2_pos (mpfr_emin - 1)). lra.
  - repeat split. rewrite toQ_fin_false. change (inject_Z 1) with 1%Q. lra.
  - repeat split. rewrite toQ_fin_false. lra.
Qed.

(** Rounding a positive [x] above a representable [c] stays above [c] (or
    overflows) and does not underflow. *)
Lemma round_pos_ge p x m e : 1 <= p -> (0 < x)%Q ->
  mpfr_fits p (MFin false m e) = true ->
  (inject_Z (Zpos m) * pow2 e <= x)%Q ->
  round_pos p false x = MInf false \/
  exists m' e', round_pos p false x = MFin false m' e' /\
                (inject_Z (Zpos m) * pow2 e <= inject_Z (Zpos m') * pow2 e')%Q.
Proof.
  intros Hp Hx F Hc. destruct (fits_bounds _ _ _ _ F) as (MB & CL & CU).
  pose proof (core_ge p x (Zpos m) e Hp Hx MB Hc) as V.
  destruct (round_pos_cases p false x Hp Hx) as [(R & B)|[(R & B & _)|[(R & B & _)|(m' & e' & R & B & _)]]];
    cbv zeta in B; rewrite R.
  - left. reflexivity.
  - lra.
  - lra.
  - right. exists m', e'. split; [reflexivity|]. lra.
Qed.

(** Below a power of two, in or out of the exponent range, rounding stays
    below it unless it overflows. *)
Lemma round_pos_le_pow2 p x k : 1 <= p -> (0 < x)%Q -> (x <= pow2 k)%Q ->
  mpfr_number_p (round_pos p false x) = true ->
  (toQ (round_pos p false x) <= pow2 k)%Q.
Proof.
  intros Hp Hx Hk Num.
  assert (P1 : 0 < 1 < 2 ^ p) by (split; [lia|]; apply Z.pow_gt_1; lia).
  assert (C1 : (x <= inject_Z 1 * pow2 k)%Q) by (change (inject_Z 1) with 1%Q; lra).
  pose proof (core_le p x 1 k Hp Hx P1 C1) as V. change (inject_Z 1) with 1%Q in V.
  destruct (round_pos_cases p false x Hp Hx) as [(R & B)|[(R & B & _)|[(R & B & XL)|(m' & e' & R & B & _)]]];
    cbv zeta in B; rewrite R in *.
  - discriminate.
  - cbn [toQ]. apply Qlt_le_weak, pow2_pos.
  - rewrite toQ_fin_false. change (inject_Z 1) with 1%Q. rewrite Qmult_1_l.
    apply pow2_le. assert (mpfr_emin - 2 < k) by (apply pow2_lt_inv; lra). lia.
  - rewrite toQ_fin_false. lra.
Qed.

(** ** The order of [mpfr_lessequal_p] *)

Lemma mle_number x y : mpfr_number_p x = true -> mpfr_number_p y = true ->
  (mle x y <-> (toQ x <= toQ y)%Q).
Proof.
  intros X Y. unfold mle.
  destruct x as [|a|a|a m e], y as [|b|b|b m' e']; try discriminate;
    cbn [mpfr_lessequal_p]; apply Qle_bool_iff.
Qed.

Lemma mle_refl x : mpfr_number_p x = true -> mle x x.
Proof. intros X. apply mle_number; [assumption..|]. apply Qle_refl. Qed.

Lemma mle_inf_r x : x <> MNaN -> mle x (MInf false).
Proof. intros X. destruct x as [|[|]|a|a m e]; try reflexivity. contradiction. Qed.

Lemma mle_zero_inv r : mle (MZero false) r ->
  r = MInf false \/ (mpfr_number_p r = true /\ (0 <= toQ r)%Q).
Proof.
  unfold mle. destruct r as [|[|]|a|a m e]; cbn [mpfr_lessequal_p]; try discriminate; intros L.
  - left. reflexivity.
  - right. split; [reflexivity|]. cbn. lra.
  - right. split; [reflexivity|]. apply Qle_bool_iff in L. exact L.
Qed.

Lemma mle_inv_zero r : mle r (MZero false) ->
  r = MInf true \/ (mpfr_number_p r = true /\ (toQ r <= 0)%Q).
Proof.
  unfold mle. destruct r as [|[|]|a|a m e]; cbn [mpfr_lessequal_p]; try discriminate; intros L.
  - left. reflexivity.
  - right. split; [reflexivity|]. cbn. lra.
  - right. split; [reflexivity|]. apply Qle_bool_iff in L. exact L.
Qed.

Lemma round_pos_shape p s x : 1 <= p -> (0 < x)%Q ->
  round_pos p s x = MInf s \/ round_pos p s x = MZero s \/
  exists m e, round_pos p s x = MFin s m e.
Proof.
  intros Hp Hx.
  destruct (round_pos_cases p s x Hp Hx) as [(R & _)|[(R & _)|[(R & _)|(m & e & R & _)]]];
    rewrite R; eauto.
Qed.

(** Rounding below a representable number stays below it. *)
Lemma mpfr_round_le p x c : 1 <= p ->
  mpfr_number_p c = true -> mpfr_fits p c = true ->
  (x <= toQ c)%Q -> mle (mpfr_round p x) c.
Proof.
  intros Hp Nc Fc Hx.
  destruct (Q_dec x 0) as [[Neg|Pos]|Zero].
  - (* x < 0 *)
    rewrite mpfr_round_neg by assumption.
    destruct c as [|b|b|[|] m e]; try discriminate.
    + destruct (round_pos_shape p true (- x) Hp ltac:(lra)) as [R|[R|(m' & e' & R)]];
        rewrite R; try reflexivity.
      apply mle_number; try reflexivity. pose proof (toQ_fin_neg m' e'). cbn [toQ] in *. lra.
    + rewrite toQ_fin_true in Hx.
      assert (F' : mpfr_fits p (MFin false m e) = true) by exact Fc.
      rewrite round_pos_sign.
      destruct (round_pos_ge p (- x) m e Hp ltac:(lra) F' ltac:(lra)) as [R|(m' & e' & R & V)];
        rewrite R; [reflexivity|].
      cbn [mpfr_neg_val negb]. apply mle_number; try reflexivity.
      rewrite !toQ_fin_true. lra.
    + destruct (round_pos_shape p true (- x) Hp ltac:(lra)) as [R|[R|(m' & e' & R)]];
        rewrite R; try reflexivity.
      * apply mle_number; try reflexivity. pose proof (toQ_fin_pos m e). cbn [toQ] in *. lra.
      * apply mle_number; try reflexivity.
        pose proof (toQ_fin_pos m e). pose proof (toQ_fin_neg m' e'). lra.
  - (* 0 < x *)
    rewrite mpfr_round_pos by assumption.
    destruct c as [|b|b|[|] m e]; try discriminate.
    + cbn [toQ] in Hx. lra.
    + pose proof (toQ_fin_neg m e). lra.
    + rewrite toQ_fin_false in Hx.
      destruct (round_pos_le p x m e Hp Pos Fc Hx) as (N & _ & V).
      apply mle_number; try assumption; try reflexivity. rewrite toQ_fin_false. assumption.
  - rewrite mpfr_round_0 by assumption.
    apply mle_number; try assumption; try reflexivity. cbn [toQ]. lra.
Qed.

(** Rounding above a representable number stays above it. *)
Lemma mpfr_round_ge p x c : 1 <= p ->
  mpfr_number_p c = true -> mpfr_fits p c = true ->
  (toQ c <= x)%Q -> mle c (mpfr_round p x).
Proof.
  intros Hp Nc Fc Hx.
  destruct (Q_dec x 0) as [[Neg|Pos]|Zero].
  - (* x < 0 *)
    rewrite mpfr_round_neg by assumption.
    destruct c as [|b|b|[|] m e]; try discriminate.
    + cbn [toQ] in Hx. lra.
    + rewrite toQ_fin_true in Hx.
      assert (F' : mpfr_fits p (MFin false m e) = true) by exact Fc.
      rewrite round_pos_sign.
      destruct (round_pos_le p (- x) m e Hp ltac:(lra) F' ltac:(lra)) as (N & S & V).
      destruct (round_pos p false (- x)) as [|a|a|a m' e']; try discriminate;
        cbn [mpfr_signbit] in S; subst a; cbn [mpfr_neg_val negb].
      * apply mle_number; try reflexivity. pose proof (toQ_fin_neg m e). cbn [toQ] in *. lra.
      * apply mle_number; try reflexivity. rewrite !toQ_fin_true. rewrite toQ_fin_false in V. lra.
    + pose proof (toQ_fin_pos m e). lra.
  - (* 0 < x *)
    rewrite mpfr_round_pos by assumption.
    destruct c as [|b|b|[|] m e]; try discriminate.
    + destruct (round_pos_shape p false x Hp Pos) as [R|[R|(m' & e' & R)]];
        rewrite R; try reflexivity.
      apply mle_number; try reflexivity. pose proof (toQ_fin_pos m' e'). cbn [toQ] in *. lra.
    + destruct (round_pos_shape p false x Hp Pos) as [R|[R|(m' & e' & R)]];
        rewrite R; try reflexivity.
      * apply mle_number; try reflexivity. pose proof (toQ_fin_neg m e). cbn [toQ] in *. lra.
      * apply mle_number; try reflexivity.
        pose proof (toQ_fin_neg m e). pose proof (toQ_fin_pos m' e'). lra.
    + rewrite toQ_fin_false in Hx.
      destruct (round_pos_ge p x m e Hp Pos Fc Hx) as [R|(m' & e' & R & V)];
        rewrite R; [reflexivity|].
      apply mle_number; try reflexivity. rewrite !toQ_fin_false. assumption.
  - rewrite mpfr_round_0 by assumption.
    apply mle_number; try assumption; try reflexivity. cbn [toQ]. lra.
Qed.

(** ** Results of the operations as rounded exact results *)

Lemma zero_number r : mpfr_zero_p r = true -> mpfr_number_p r = true /\ toQ r = 0%Q.
Proof. destruct r; try discriminate. intros _. split; reflexivity. Qed.

Lemma rounds_le p q r c : 1 <= p -> rounds_to p q r ->
  mpfr_number_p c = true -> mpfr_fits p c = true -> (q <= toQ c)%Q -> mle r c.
Proof.
  intros Hp [->|[Z E]] Nc Fc H; [apply mpfr_round_le; assumption|].
  destruct (zero_number r Z) as [N V]. apply mle_number; try assumption. rewrite V. lra.
Qed.

Lemma rounds_ge p q r c : 1 <= p -> rounds_to p q r ->
  mpfr_number_p c = true -> mpfr_fits p c = true -> (toQ c <= q)%Q -> mle c r.
Proof.
  intros Hp [->|[Z E]] Nc Fc H; [apply mpfr_round_ge; assumption|].
  destruct (zero_number r Z) as [N V]. apply mle_number; try assumption. rewrite V. lra.
Qed.

Lemma rounds_fits p q r : 1 <= p -> rounds_to p q r -> mpfr_fits p r = true.
Proof.
  intros Hp [->|[Z _]]; [apply mpfr_round_fits; assumption|].
  destruct r; try discriminate. reflexivity.
Qed.

Lemma rounds_comp p q q' r : (q == q')%Q -> rounds_to p q r -> rounds_to p q' r.
Proof.
  intros E [->|[Z E0]].
  - left. apply mpfr_round_comp. assumption.
  - right. split; [assumption|]. rewrite <- E. assumption.
Qed.

Lemma rounds_zero p q r : rounds_to p q r -> (q == 0)%Q -> mpfr_zero_p r = true.
Proof.
  intros [->|[Z _]] E; [|assumption]. rewrite mpfr_round_0 by assumption. reflexivity.
Qed.

Lemma rounds_same_zero p q r1 r2 : rounds_to p q r1 -> rounds_to p q r2 ->
  mpfr_zero_p r1 = true -> mpfr_zero_p r2 = true.
Proof.
  intros [->|[Z1 E1]] [->|[Z2 E2]] Z; try assumption.
  rewrite mpfr_round_0 by assumption. reflexivity.
Qed.

Lemma rounds_pos p q r : rounds_to p q r -> (0 < q)%Q -> r = round_pos p false q.
Proof.
  intros [->|[_ E]] P; [apply mpfr_round_pos; assumption|]. lra.
Qed.

Lemma mpfr_zero_neg_val r : mpfr_zero_p (mpfr_neg_val r) = mpfr_zero_p r.
Proof. destruct r; reflexivity. Qed.

Lemma mpfr_number_neg_val r : mpfr_number_p (mpfr_neg_val r) = mpfr_number_p r.
Proof. destruct r; reflexivity. Qed.

Lemma mpfr_fits_neg_val p r : mpfr_fits p (mpfr_neg_val r) = mpfr_fits p r.
Proof. destruct r; reflexivity. Qed.

Lemma rounds_neg p q r : rounds_to p q r -> rounds_to p (- q) (mpfr_neg_val r).
Proof.
  intros [->|[Z E]].
  - destruct (Qeq_dec q 0) as [E|NE].
    + right. rewrite mpfr_round_0 by assumption. split; [reflexivity|]. lra.
    + left. symmetry. apply mpfr_round_opp. assumption.
  - right. rewrite mpfr_zero_neg_val. split; [assumption|]. lra.
Qed.

Lemma mle_neg x y : mle x y -> mle (mpfr_neg_val y) (mpfr_neg_val x).
Proof.
  unfold mle.
  destruct x as [|[|]|a|a m e], y as [|[|]|b|b m' e']; cbn [mpfr_lessequal_p mpfr_neg_val negb];
    try discriminate; try reflexivity; intros L; apply Qle_bool_iff in L; apply Qle_bool_iff;
    rewrite ?toQ_negb; change (toQ (MZero _)) with 0%Q in *; lra.
Qed.

Lemma mpfr_sub_rounds p x y : mpfr_number_p x = true -> mpfr_number_p y = true ->
  rounds_to p (toQ x - toQ y) (mpfr_sub p x y).
Proof.
  intros X Y. destruct x as [|a|a|a m e], y as [|b|b|b m' e']; try discriminate;
    cbn [mpfr_sub]; try (left; reflexivity).
  right. split; [reflexivity|]. cbn [toQ]. lra.
Qed.

Lemma mpfr_add_rounds p x y : mpfr_number_p x = true -> mpfr_number_p y = true ->
  rounds_to p (toQ x + toQ y) (mpfr_add p x y).
Proof.
  intros X Y. destruct x as [|a|a|a m e], y as [|b|b|b m' e']; try discriminate;
    cbn [mpfr_add]; try (left; reflexivity).
  right. split; [reflexivity|]. cbn [toQ]. lra.
Qed.

Lemma mpfr_div_ui_rounds p x u : mpfr_number_p x = true -> u <> 0 ->
  rounds_to p (toQ x / inject_Z u) (mpfr_div_ui p x u).
Proof.
  intros X U. destruct x as [|a|a|a m e]; try discriminate; cbn [mpfr_div_ui];
    destruct (Z.eqb_spec u 0); try contradiction.
  - right. split; [reflexivity|]. cbn [toQ]. unfold Qdiv. ring.
  - left. reflexivity.
Qed.

(** * [m2] never decreases *)

(** ** One Welford update, its results as rounded exact results *)

Lemma mle_between lo x hi :
  mpfr_number_p lo = true -> mpfr_number_p hi = true ->
  mle lo x -> mle x hi ->
  mpfr_number_p x = true /\ (toQ lo <= toQ x <= toQ hi)%Q.
Proof.
  intros NL NH L H.
  assert (NX : mpfr_number_p x = true).
  { unfold mle in *. destruct x as [|[|]|a|a m e]; try reflexivity.
    - destruct lo as [|[|]| |]; discriminate.
    - destruct lo as [|[|]| |]; discriminate.
    - destruct hi as [|[|]| |]; discriminate. }
  split; [assumption|]. split; apply mle_number; assumption.
Qed.

(** The update when the new relative change [r] is at or above the mean
    (the sum and the second difference are rounded exact results once their
    operands are known to be numbers):
    the new mean lies between the old mean and [r], [delta] and the second
    difference [t'] are not negative, and [t'] is zero when [delta] is. *)
Lemma welford_up p n1 r mu delta t mu1 t' :
  1 <= p -> 1 <= n1 ->
  mpfr_number_p r = true -> mpfr_fits p r = true ->
  mpfr_number_p mu = true -> mpfr_fits p mu = true ->
  (n1 = 1 -> (toQ mu == 0)%Q) ->
  (toQ mu <= toQ r)%Q ->
  rounds_to p (toQ r - toQ mu) delta -> mpfr_number_p delta = true ->
  rounds_to p (toQ delta / inject_Z n1) t ->
  (mpfr_number_p t = true -> rounds_to p (toQ mu + toQ t) mu1) ->
  (mpfr_number_p mu1 = true -> rounds_to p (toQ r - toQ mu1) t') ->
  mpfr_number_p mu1 = true /\ (toQ mu <= toQ mu1 <= toQ r)%Q /\
  (0 <= toQ delta)%Q /\ mle (MZero false) t' /\
  (mpfr_zero_p delta = true -> mpfr_zero_p t' = true).
Proof.
  intros Hp Hn Nr Fr Nm Fm First Up RD ND RT RM RT'.
  assert (N1 : (1 <= inject_Z n1)%Q) by (rewrite <- (Zle_Qle 1); assumption).
  assert (Z0 : mpfr_number_p (MZero false) = true) by reflexivity.
  assert (F0 : mpfr_fits p (MZero false) = true) by reflexivity.
  (* delta is not negative *)
  assert (D0 : (0 <= toQ delta)%Q).
  { apply (mle_number (MZero false) delta Z0 ND).
    apply (rounds_ge p _ _ _ Hp RD Z0 F0). cbn [toQ]. lra. }
  pose proof (rounds_fits p _ _ Hp RD) as FD.
  (* t lies between zero and delta *)
  assert (QT : (0 <= toQ delta / inject_Z n1 <= toQ delta)%Q).
  { split.
    - apply Qle_shift_div_l; lra.
    - apply Qle_shift_div_r; [lra|]. nra. }
  destruct (mle_between (MZero false) t delta Z0 ND) as (NT & T0 & TD).
  { apply (rounds_ge p _ _ _ Hp RT Z0 F0). cbn [toQ]. lra. }
  { apply (rounds_le p _ _ _ Hp RT ND FD). lra. }
  cbn [toQ] in T0. specialize (RM NT).
  (* t does not exceed the exact difference *)
  assert (Key : (toQ t <= toQ r - toQ mu)%Q).
  { destruct (Qlt_le_dec 0 (toQ delta)) as [DP|DZ].
    - assert (XP : (0 < toQ r - toQ mu)%Q).
      { destruct (Qlt_le_dec 0 (toQ r - toQ mu)) as [|NP]; [assumption|].
        assert (E : (toQ r - toQ mu == 0)%Q) by lra.
        destruct (zero_number delta (rounds_zero p _ _ RD E)) as [_ V]. rewrite V in DP. lra. }
      destruct (Z.eq_dec n1 1) as [E1|NE1].
      + specialize (First E1).
        assert (LD : mle delta r) by (apply (rounds_le p _ _ _ Hp RD Nr Fr); lra).
        apply (mle_number delta r ND Nr) in LD. lra.
      + assert (N2 : (2 <= inject_Z n1)%Q) by (rewrite <- (Zle_Qle 2); lia).
        pose proof (rounds_pos p _ _ RD XP) as ED.
        destruct (Qmag_spec _ XP) as [ML MU].
        assert (DU : (toQ delta <= pow2 (Qmag (toQ r - toQ mu)))%Q).
        { rewrite ED. apply round_pos_le_pow2; try assumption; try lra.
          rewrite <- ED. assumption. }
        assert (TP : (0 < toQ delta / inject_Z n1)%Q) by (apply Qlt_shift_div_l; lra).
        pose proof (rounds_pos p _ _ RT TP) as ET.
        assert (TU : (toQ delta / inject_Z n1 <= pow2 (Qmag (toQ r - toQ mu) - 1))%Q).
        { apply Qle_shift_div_r; [lra|].
          apply Qle_trans with (pow2 (Qmag (toQ r - toQ mu))); [assumption|].
          replace (Qmag (toQ r - toQ mu)) with ((Qmag (toQ r - toQ mu) - 1) + 1) at 1 by lia.
          rewrite pow2_succ. pose proof (pow2_pos (Qmag (toQ r - toQ mu) - 1)).
          nra. }
        apply Qle_trans with (pow2 (Qmag (toQ r - toQ mu) - 1)); [|assumption].
        rewrite ET. apply round_pos_le_pow2; try assumption.
        rewrite <- ET. assumption.
    - assert (E : (toQ delta / inject_Z n1 == 0)%Q).
      { assert (toQ delta == 0)%Q by lra. rewrite H. unfold Qdiv. ring. }
      destruct (zero_number t (rounds_zero p _ _ RT E)) as [_ V]. rewrite V. lra. }
  (* the new mean lies between the old mean and r *)
  destruct (mle_between mu mu1 r Nm Nr) as (NM1 & M1L & M1U).
  { apply (rounds_ge p _ _ _ Hp RM Nm Fm). lra. }
  { apply (rounds_le p _ _ _ Hp RM Nr Fr). lra. }
  specialize (RT' NM1).
  split; [assumption|]. split; [split; assumption|]. split; [assumption|]. split.
  - apply (rounds_ge p _ _ _ Hp RT' Z0 F0). cbn [toQ]. lra.
  - intros ZD. destruct (zero_number delta ZD) as [_ VD].
    assert (E : (toQ delta / inject_Z n1 == 0)%Q) by (rewrite VD; unfold Qdiv; ring).
    destruct (zero_number t (rounds_zero p _ _ RT E)) as [_ VT].
    assert (LM : mle mu1 mu) by (apply (rounds_le p _ _ _ Hp RM Nm Fm); rewrite VT; lra).
    apply (mle_number mu1 mu NM1 Nm) in LM.
    assert (EM : (toQ r - toQ mu1 == toQ r - toQ mu)%Q) by lra.
    apply (rounds_same_zero p (toQ r - toQ mu) delta t'); try assumption.
    apply (rounds_comp p _ _ _ EM). assumption.
Qed.

Lemma mpfr_neg_val_involutive x : mpfr_neg_val (mpfr_neg_val x) = x.
Proof. destruct x; cbn; rewrite ?negb_involutive; reflexivity. Qed.

Lemma mle_zero_sign_r x a b : mle x (MZero a) -> mle x (MZero b).
Proof. unfold mle. destruct x as [|[|]| |]; cbn; auto. Qed.

Lemma mle_zero_sign_l x a b : mle (MZero a) x -> mle (MZero b) x.
Proof. unfold mle. destruct x as [|[|]| |]; cbn; auto. Qed.

(** The mirror image: [r] at or below the mean. *)
Lemma welford_down p n1 r mu delta t mu1 t' :
  1 <= p -> 1 <= n1 ->
  mpfr_number_p r = true -> mpfr_fits p r = true ->
  mpfr_number_p mu = true -> mpfr_fits p mu = true ->
  (n1 = 1 -> (toQ mu == 0)%Q) ->
  (toQ r <= toQ mu)%Q ->
  rounds_to p (toQ r - toQ mu) delta -> mpfr_number_p delta = true ->
  rounds_to p (toQ delta / inject_Z n1) t ->
  (mpfr_number_p t = true -> rounds_to p (toQ mu + toQ t) mu1) ->
  (mpfr_number_p mu1 = true -> rounds_to p (toQ r - toQ mu1) t') ->
  mpfr_number_p mu1 = true /\ (toQ r <= toQ mu1 <= toQ mu)%Q /\
  (toQ delta <= 0)%Q /\ mle t' (MZero false) /\
  (mpfr_zero_p delta = true -> mpfr_zero_p t' = true).
Proof.
  intros Hp Hn Nr Fr Nm Fm First Down RD ND RT RM RT'.
  assert (N1 : ~ (inject_Z n1 == 0)%Q).
  { intro E. assert (1 <= inject_Z n1)%Q by (rewrite <- (Zle_Qle 1); assumption). lra. }
  destruct (welford_up p n1 (mpfr_neg_val r) (mpfr_neg_val mu) (mpfr_neg_val delta)
              (mpfr_neg_val t) (mpfr_neg_val mu1) (mpfr_neg_val t'))
    as (NM1 & MB & D0 & T0 & ZT); try assumption;
    rewrite ?mpfr_number_neg_val, ?mpfr_fits_neg_val; try assumption.
  - intros E. rewrite toQ_neg_val, (First E). reflexivity.
  - rewrite !toQ_neg_val. lra.
  - apply (rounds_comp p (- (toQ r - toQ mu))); [rewrite !toQ_neg_val; ring|].
    apply rounds_neg. assumption.
  - apply (rounds_comp p (- (toQ delta / inject_Z n1))); [rewrite !toQ_neg_val; field; assumption|].
    apply rounds_neg. assumption.
  - intros N. apply (rounds_comp p (- (toQ mu + toQ t))); [rewrite !toQ_neg_val; ring|].
    apply rounds_neg, RM, N.
  - intros N. apply (rounds_comp p (- (toQ r - toQ mu1))); [rewrite !toQ_neg_val; ring|].
    apply rounds_neg, RT', N.
  - rewrite mpfr_number_neg_val in NM1.
    pose proof (toQ_neg_val mu) as Emu. pose proof (toQ_neg_val mu1) as Emu1.
    pose proof (toQ_neg_val r) as Er. pose proof (toQ_neg_val delta) as Ed.
    rewrite !mpfr_zero_neg_val in ZT.
    split; [assumption|]. split; [lra|]. split; [lra|]. split; [|assumption].
    apply mle_neg in T0. rewrite mpfr_neg_val_involutive in T0.
    apply (mle_zero_sign_r _ _ false) in T0. assumption.
Qed.

(** [m2] after the fused multiply-add: with [delta] and [t'] of equal sign
    (and [t'] zero when [delta] is) a non-negative [m2] does not decrease. *)
Lemma fma_grows p delta t' v :
  1 <= p -> mpfr_number_p delta = true ->
  (mpfr_zero_p delta = true -> mpfr_zero_p t' = true) ->
  ((0 <= toQ delta)%Q /\ mle (MZero false) t') \/ ((toQ delta <= 0)%Q /\ mle t' (MZero false)) ->
  mpfr_fits p v = true -> mle (MZero false) v ->
  mle v (mpfr_fma p delta t' v) /\ mle (MZero false) (mpfr_fma p delta t' v).
Proof.
  intros Hp ND ZT Sg Fv V0.
  assert (Z0 : mpfr_number_p (MZero false) = true) by reflexivity.
  assert (F0 : mpfr_fits p (MZero false) = true) by reflexivity.
  assert (Vn : v <> MNaN /\ v <> MInf true).
  { split; intros ->; discriminate V0. }
  destruct Vn as [Vn Vi].
  destruct delta as [|a|a|a m e]; try discriminate.
  - (* delta is zero, and so is t' *)
    specialize (ZT eq_refl). destruct t' as [|b|b|b m' e']; try discriminate.
    destruct v as [|[|]|c|c mv ev]; try contradiction; cbn [mpfr_fma].
    + split; reflexivity.
    + split; reflexivity.
    + rewrite (mpfr_set_fits p _ Fv). split; [|assumption].
      apply mle_refl. reflexivity.
  - (* delta is regular *)
    destruct t' as [|b|b|b m' e'].
    + destruct Sg as [[_ S]|[_ S]]; discriminate S.
    + (* an infinite t' of the sign of delta *)
      assert (AB : xorb a b = false).
      { destruct Sg as [[D S]|[D S]].
        - destruct a; [pose proof (toQ_fin_neg m e); lra|]. destruct b; [discriminate S|reflexivity].
        - destruct a; [|pose proof (toQ_fin_pos m e); lra]. destruct b; [reflexivity|discriminate S]. }
      destruct v as [|[|]|c|c mv ev]; try contradiction; cbn [mpfr_fma mpfr_signbit];
        rewrite AB; split; reflexivity.
    + destruct v as [|[|]|c|c mv ev]; try contradiction; cbn [mpfr_fma].
      * split; reflexivity.
      * split; reflexivity.
      * rewrite (mpfr_set_fits p _ Fv). split; [|assumption].
        apply mle_refl. reflexivity.
    + (* a regular product, not negative *)
      assert (PP : (0 <= toQ (MFin a m e) * toQ (MFin b m' e'))%Q).
      { destruct Sg as [[D S]|[D S]].
        - apply (mle_number (MZero false) (MFin b m' e') Z0 eq_refl) in S.
          change (toQ (MZero false)) with 0%Q in S. apply Qmult_le_0_compat; assumption.
        - apply (mle_number (MFin b m' e') (MZero false) eq_refl Z0) in S.
          change (toQ (MZero false)) with 0%Q in S. nra. }
      destruct v as [|[|]|c|c mv ev]; try contradiction.
      * split; reflexivity.
      * cbn [mpfr_fma]. change (toQ (MZero c)) with 0%Q. split.
        -- apply mpfr_round_ge; try assumption; try reflexivity.
           change (toQ (MZero c)) with 0%Q. lra.
        -- apply mpfr_round_ge; try assumption; try reflexivity.
           change (toQ (MZero false)) with 0%Q. lra.
      * cbn [mpfr_fma].
        apply (mle_number (MZero false) (MFin c mv ev) Z0 eq_refl) in V0.
        change (toQ (MZero false)) with 0%Q in V0.
        split.
        -- apply mpfr_round_ge; try assumption; try reflexivity. lra.
        -- apply mpfr_round_ge; try assumption; try reflexivity.
           change (toQ (MZero false)) with 0%Q. lra.
Qed.

(** ** The invariant of a cell *)

Lemma stats_init_inv dist gen : welford_inv (stats_init dist gen).
Proof.
  destruct (stats_init_fields dist gen) as (N & M & V).
  unfold welford_inv. rewrite N, M, V.
  repeat split; try reflexivity; lia.
Qed.

Lemma stats_add_inv stats y ref :
  welford_inv stats -> n stats < ULONG_MAX ->
  mpfr_number_p (stats_reldiff y ref) = true ->
  mpfr_number_p (mpfr_sub MPFR_PREC (stats_reldiff y ref) (mean stats)) = true ->
  welford_inv (stats_add stats y ref) /\
  n (stats_add stats y ref) = n stats + 1 /\
  mle (m2 stats) (m2 (stats_add stats y ref)) /\
  mpfr_between (mean stats) (mean (stats_add stats y ref)) (stats_reldiff y ref).
Proof.
  intros (Nm & Fm & V0 & Fv & N0 & First) Hn Nr ND.
  pose proof MPFR_PREC_pos as Hp.
  pose proof (stats_reldiff_fits y ref) as Fr.
  rewrite stats_add_reldiff. cbv zeta. unfold welford_inv. cbn [n mean m2].
  rewrite (ulong_small (n stats + 1)) by lia.
  set (r := stats_reldiff y ref) in *.
  set (delta := mpfr_sub MPFR_PREC r (mean stats)) in *.
  set (t := mpfr_div_ui MPFR_PREC delta (n stats + 1)).
  set (mu1 := mpfr_add MPFR_PREC (mean stats) t).
  set (t' := mpfr_sub MPFR_PREC r mu1).
  assert (RD : rounds_to MPFR_PREC (toQ r - toQ (mean stats)) delta)
    by (apply mpfr_sub_rounds; assumption).
  assert (RT : rounds_to MPFR_PREC (toQ delta / inject_Z (n stats + 1)) t)
    by (apply mpfr_div_ui_rounds; [assumption|lia]).
  assert (RM : mpfr_number_p t = true -> rounds_to MPFR_PREC (toQ (mean stats) + toQ t) mu1)
    by (intros; apply mpfr_add_rounds; assumption).
  assert (RT' : mpfr_number_p mu1 = true -> rounds_to MPFR_PREC (toQ r - toQ mu1) t')
    by (intros; apply mpfr_sub_rounds; assumption).
  assert (F1 : n stats + 1 = 1 -> (toQ (mean stats) == 0)%Q) by (intros; apply First; lia).
  assert (W : mpfr_number_p mu1 = true /\ mpfr_between (mean stats) mu1 r /\
              (mpfr_zero_p delta = true -> mpfr_zero_p t' = true) /\
              (((0 <= toQ delta)%Q /\ mle (MZero false) t') \/
               ((toQ delta <= 0)%Q /\ mle t' (MZero false)))).
  { destruct (Qlt_le_dec (toQ r) (toQ (mean stats))) as [Lt|Ge].
    - destruct (welford_down MPFR_PREC (n stats + 1) r (mean stats) delta t mu1 t')
        as (NM1 & [B1 B2] & D & T & Z); try assumption; try lia; try lra.
      split; [assumption|]. split; [right; split; apply mle_number; assumption|].
      split; [assumption|]. right. split; assumption.
    - destruct (welford_up MPFR_PREC (n stats + 1) r (mean stats) delta t mu1 t')
        as (NM1 & [B1 B2] & D & T & Z); try assumption; try lia.
      split; [assumption|]. split; [left; split; apply mle_number; assumption|].
      split; [assumption|]. left. split; assumption. }
  destruct W as (NM1 & Bt & ZT & Sg).
  destruct (fma_grows MPFR_PREC delta t' (m2 stats) Hp ND ZT Sg Fv V0) as [G1 G0].
  split; [|split; [reflexivity|split; assumption]].
  split; [assumption|]. split; [apply mpfr_add_fits; assumption|].
  split; [assumption|]. split; [apply mpfr_fma_fits; assumption|].
  split; lia.
Qed.

Lemma stats_add_all_app stats l l' :
  stats_add_all stats (l ++ l') = stats_add_all (stats_add_all stats l) l'.
Proof. apply fold_left_app. Qed.

Lemma run_finite_app l l' : forall stats,
  run_finite stats (l ++ l') <->
  run_finite stats l /\ run_finite (stats_add_all stats l) l'.
Proof.
  induction l as [|yr l IH]; intros stats; cbn [app run_finite stats_add_all fold_left].
  - tauto.
  - fold (stats_add_all (stats_add stats (fst yr) (snd yr)) l). rewrite IH. tauto.
Qed.

Lemma stats_add_all_inv l : forall stats,
  welford_inv stats -> n stats + Z.of_nat (List.length l) <= ULONG_MAX ->
  run_finite stats l ->
  welford_inv (stats_add_all stats l) /\
  n (stats_add_all stats l) = n stats + Z.of_nat (List.length l).
Proof.
  induction l as [|yr l IH]; intros stats I Hn R.
  - cbn [stats_add_all fold_left List.length]. split; [assumption|]. cbn. lia.
  - cbn [List.length] in Hn. rewrite Nat2Z.inj_succ in Hn.
    destruct R as (Nr & ND & R).
    destruct (stats_add_inv stats (fst yr) (snd yr) I ltac:(lia) Nr ND) as (I1 & N1 & _ & _).
    destruct (IH _ I1 ltac:(lia) R) as (I2 & N2).
    cbn [stats_add_all fold_left List.length].
    fold (stats_add_all (stats_add stats (fst yr) (snd yr)) l).
    split; [assumption|]. rewrite N2, N1, Nat2Z.inj_succ. lia.
Qed.

(** ** Every call leaves [m2] at or above its previous value *)

(** C10, as the code has it: for a cell fresh from [stats_init], along any
    run of [stats_add] calls in which every relative change and every
    [delta = reldiff - mean] is a number (no overflow to an infinity, no NaN)
    and which adds fewer than [2^64] samples, so that the [unsigned long]
    counter has not wrapped, [m2] is not negative before and after each call
    and each call leaves [m2] at or above its previous value; the new mean
    lies between the old mean and the relative change, which is why [delta]
    and [reldiff - mean] never have opposite signs. *)
Theorem stats_add_m2_grows (dist gen : string) (l : list (mpfr_t * mpfr_t)) (y ref : mpfr_t) :
  Z.of_nat (List.length l) < ULONG_MAX ->
  run_finite (stats_init dist gen) (l ++ [(y, ref)]) ->
  mle (MZero false) (m2 (stats_add_all (stats_init dist gen) l)) /\
  mle (m2 (stats_add_all (stats_init dist gen) l))
      (m2 (stats_add (stats_add_all (stats_init dist gen) l) y ref)) /\
  mle (MZero false) (m2 (stats_add (stats_add_all (stats_init dist gen) l) y ref)) /\
  mpfr_between (mean (stats_add_all (stats_init dist gen) l))
               (mean (stats_add (stats_add_all (stats_init dist gen) l) y ref))
               (stats_reldiff y ref).
Proof.
  intros Hn R. apply run_finite_app in R. destruct R as [R (Nr & ND & _)].
  cbn [fst snd] in Nr, ND.
  pose proof (stats_init_inv dist gen) as I0.
  destruct (stats_init_fields dist gen) as (N0 & _).
  destruct (stats_add_all_inv l _ I0 ltac:(lia) R) as (I1 & N1).
  destruct (stats_add_inv _ y ref I1 ltac:(lia) Nr ND) as (I2 & _ & G & B).
  destruct I1 as (_ & _ & V1 & _). destruct I2 as (_ & _ & V2 & _).
  split; [assumption|]. split; [assumption|]. split; assumption.
Qed.

Lemma stats_add_m2_grows_witness :
  mle (MZero false) (m2 (stats_add_all (stats_init "d" "g") [(mpfr_two, mpfr_one)])) /\
  mle (m2 (stats_add_all (stats_init "d" "g") [(mpfr_two, mpfr_one)]))
      (m2 (stats_add (stats_add_all (stats_init "d" "g") [(mpfr_two, mpfr_one)])
                     mpfr_zero mpfr_one)) /\
  mle (MZero false)
      (m2 (stats_add (stats_add_all (stats_init "d" "g") [(mpfr_two, mpfr_one)])
                     mpfr_zero mpfr_one)) /\
  mpfr_between (mean (stats_add_all (stats_init "d" "g") [(mpfr_two, mpfr_one)]))
               (mean (stats_add (stats_add_all (stats_init "d" "g") [(mpfr_two, mpfr_one)])
                                mpfr_zero mpfr_one))
               (stats_reldiff mpfr_zero mpfr_one).
Proof.
  apply (stats_add_m2_grows "d" "g" [(mpfr_two, mpfr_one)] mpfr_zero mpfr_one).
  - vm_compute. reflexivity.
  - vm_compute. repeat split.
Defined.

(** ** The counter wraps *)

Lemma unit_run_number k :
  Forall (fun yr => mpfr_number_p (stats_reldiff (fst yr) (snd yr)) = true) (unit_run k).
Proof.
  apply Forall_forall. intros yr In. apply repeat_spec in In. subst yr.
  vm_compute. reflexivity.
Qed.

Lemma stats_add_unit stats :
  mean stats = MZero false -> m2 stats = MZero false -> 0 <= n stats < ULONG_MAX ->
  n (stats_add stats mpfr_one mpfr_one) = n stats + 1 /\
  mean (stats_add stats mpfr_one mpfr_one) = MZero false /\
  m2 (stats_add stats mpfr_one mpfr_one) = MZero false.
Proof.
  intros M V N.
  assert (R : stats_reldiff mpfr_one mpfr_one = MZero false) by (vm_compute; reflexivity).
  rewrite stats_add_reldiff. cbv zeta. cbn [n mean m2].
  rewrite R, M, V, (ulong_small (n stats + 1)) by lia.
  cbn [mpfr_sub mpfr_div_ui].
  destruct (Z.eqb_spec (n stats + 1) 0) as [E|_]; [lia|].
  split; [reflexivity|]. split; reflexivity.
Qed.

Lemma unit_run_cell k : forall stats,
  mean stats = MZero false -> m2 stats = MZero false ->
  0 <= n stats -> n stats + Z.of_nat k <= ULONG_MAX ->
  n (stats_add_all stats (unit_run k)) = n stats + Z.of_nat k /\
  mean (stats_add_all stats (unit_run k)) = MZero false /\
  m2 (stats_add_all stats (unit_run k)) = MZero false.
Proof.
  induction k as [|k IH]; intros stats M V N0 Hn.
  - cbn [unit_run repeat stats_add_all fold_left]. split; [cbn; lia|]. split; assumption.
  - rewrite Nat2Z.inj_succ in Hn.
    destruct (stats_add_unit stats M V ltac:(lia)) as (N1 & M1 & V1).
    destruct (IH _ M1 V1 ltac:(lia) ltac:(lia)) as (N2 & M2 & V2).
    unfold unit_run in *. cbn [repeat stats_add_all fold_left].
    fold (stats_add_all (stats_add stats (fst (mpfr_one, mpfr_one)) (snd (mpfr_one, mpfr_one)))
            (repeat (mpfr_one, mpfr_one) k)).
    cbn [fst snd]. split; [|split; assumption].
    rewrite N2, N1, Nat2Z.inj_succ. lia.
Qed.

Lemma cell_after_max_units_fields :
  n cell_after_max_units = ULONG_MAX /\
  mean cell_after_max_units = MZero false /\
  m2 cell_after_max_units = MZero false.
Proof.
  assert (P : 0 <= ULONG_MAX) by (unfold ULONG_MAX; lia).
  destruct (stats_init_fields "d" "g") as (N & M & V).
  destruct (unit_run_cell (Z.to_nat ULONG_MAX) (stats_init "d" "g") M V ltac:(lia)
              ltac:(rewrite Z2Nat.id by assumption; lia)) as (N1 & M1 & V1).
  unfold cell_after_max_units. rewrite Z2Nat.id in N1 by assumption.
  split; [lia|]. split; assumption.
Qed.

Lemma stats_add_at_max stats :
  n stats = ULONG_MAX -> mean stats = MZero false -> m2 stats = MZero false ->
  n (stats_add stats mpfr_two mpfr_one) = 0 /\
  m2 (stats_add stats mpfr_two mpfr_one) = MInf true.
Proof.
  destruct stats as [d g n0 mu v]. cbn [n mean m2]. intros -> -> ->.
  split; vm_compute; reflexivity.
Qed.

(** The bound on the number of samples is needed: after [ULONG_MAX] samples
    equal to their reference the cell has [m2 = +0]; the counter wraps, the
    next sample, of relative change 1, is divided by the count 0, and [m2]
    becomes minus infinity.  Every relative change of the run is a number,
    and so is the last [delta]. *)
Lemma stats_add_m2_wrap_drops :
  Forall (fun yr => mpfr_number_p (stats_reldiff (fst yr) (snd yr)) = true)
         (unit_run (Z.to_nat ULONG_MAX) ++ [(mpfr_two, mpfr_one)]) /\
  mpfr_number_p (mpfr_sub MPFR_PREC (stats_reldiff mpfr_two mpfr_one)
                          (mean cell_after_max_units)) = true /\
  m2 cell_after_max_units = MZero false /\
  m2 (stats_add cell_after_max_units mpfr_two mpfr_one) = MInf true /\
  ~ mle (m2 cell_after_max_units) (m2 (stats_add cell_after_max_units mpfr_two mpfr_one)) /\
  ~ mle (MZero false) (m2 (stats_add cell_after_max_units mpfr_two mpfr_one)).
Proof.
  destruct cell_after_max_units_fields as (N & M & V).
  destruct (stats_add_at_max _ N M V) as (_ & W).
  split.
  { apply Forall_app. split; [apply unit_run_number|].
    constructor; [vm_compute; reflexivity|constructor]. }
  split; [rewrite M; vm_compute; reflexivity|].
  split; [assumption|]. split; [assumption|].
  rewrite W, V. split; intros L; discriminate L.
Qed.

(** * Overflow of [delta] *)

(** ** Rounding next to a power of two and at the top of the range *)

Lemma Qrne_near z q : (inject_Z z <= q)%Q -> (q < inject_Z z + (1 # 2))%Q -> Qrne q = z.
Proof.
  intros L U.
  assert (F : Qfloor q = z).
  { pose proof (Qfloor_resp_le _ _ L) as A. rewrite Qfloor_Z in A.
    pose proof (Qfloor_le q) as B.
    assert (C : (inject_Z (Qfloor q) < inject_Z (z + 1))%Q).
    { rewrite inject_Z_plus. apply Qle_lt_trans with q; [assumption|].
      change (inject_Z 1) with 1%Q. lra. }
    rewrite <- Zlt_Qlt in C. lia. }
  unfold Qrne. rewrite F.
  assert (C : ((q - inject_Z z) ?= (1 # 2))%Q = Lt) by (apply (proj1 (Qlt_alt _ _)); lra).
  rewrite C. reflexivity.
Qed.

Lemma mk_fin_pow2 s a e : 0 <= a -> mk_fin s (2 ^ a) e = MFin s 1 (e + a).
Proof.
  intros Ha. rewrite <- (Z.mul_1_l (2 ^ a)). rewrite mk_fin_shift by lia. reflexivity.
Qed.

(** A power of two plus a much smaller one rounds back to the power. *)
Lemma round_pos_pow2_plus p s k j : 1 <= p -> j + p + 1 <= k ->
  mpfr_emin <= k + 1 <= mpfr_emax ->
  round_pos p s (pow2 k + pow2 j) = MFin s 1 k.
Proof.
  intros Hp Hj R.
  pose proof (pow2_pos k) as Pk. pose proof (pow2_pos j) as Pj.
  pose proof (pow2_lt j k ltac:(lia)) as Ljk.
  assert (M : Qmag (pow2 k + pow2 j) = k + 1).
  { apply Qmag_unique.
    - replace (k + 1 - 1) with k by lia. lra.
    - rewrite pow2_succ. lra. }
  pose proof (pow2_pos (k + 1 - p)) as Pu.
  pose proof (pow2_pos (j - (k + 1 - p))) as Pe.
  assert (Eq : ((pow2 k + pow2 j) / pow2 (k + 1 - p)
                == inject_Z (2 ^ (p - 1)) + pow2 (j - (k + 1 - p)))%Q).
  { rewrite <- pow2_Z by lia.
    replace (p - 1) with (k - (k + 1 - p)) by lia.
    rewrite (pow2_sub k (k + 1 - p)), (pow2_sub j (k + 1 - p)). field. lra. }
  assert (Sm : (pow2 (j - (k + 1 - p)) < 1 # 2)%Q).
  { apply Qle_lt_trans with (pow2 (-2)); [apply pow2_le; lia|]. reflexivity. }
  assert (N : Qrne ((pow2 k + pow2 j) / pow2 (k + 1 - p)) = 2 ^ (p - 1)).
  { apply Qrne_near; rewrite Eq; lra. }
  unfold round_pos. rewrite M, N.
  assert (P2 : 2 ^ (p - 1) < 2 ^ p) by (apply Z.pow_lt_mono_r; lia).
  destruct (Z.eqb_spec (2 ^ (p - 1)) (2 ^ p)) as [E|_]; [lia|].
  destruct (Z.ltb_spec mpfr_emax (k + 1)) as [A|_]; [lia|].
  destruct (Z.ltb_spec (k + 1) mpfr_emin) as [A|_]; [lia|].
  rewrite mk_fin_pow2 by lia. f_equal. lia.
Qed.

(** [2^emax] is above every number of the exponent range. *)
Lemma round_pos_overflow p s : round_pos p s (pow2 mpfr_emax) = MInf s.
Proof.
  assert (M : Qmag (pow2 mpfr_emax) = mpfr_emax + 1).
  { apply Qmag_unique.
    - replace (mpfr_emax + 1 - 1) with mpfr_emax by lia. apply Qle_refl.
    - apply pow2_lt. lia. }
  unfold round_pos. rewrite M.
  destruct (_ =? _).
  - destruct (Z.ltb_spec mpfr_emax (mpfr_emax + 1 + 1)) as [_|A]; [reflexivity|lia].
  - destruct (Z.ltb_spec mpfr_emax (mpfr_emax + 1)) as [_|A]; [reflexivity|lia].
Qed.

Lemma mpfr_fits_pow2 p s e : 1 <= p -> mpfr_emin <= e + 1 <= mpfr_emax ->
  mpfr_fits p (MFin s 1 e) = true.
Proof.
  intros Hp R. apply mpfr_fits_fin. change (Z.log2 1) with 0.
  split; [reflexivity|]. split; lia.
Qed.

(** ** The relative change of a large sample *)

Ltac fin_values :=
  rewrite ?toQ_fin_true, ?toQ_fin_false; change (inject_Z 1) with 1%Q.

Lemma stats_reldiff_pow2 s k j : j + MPFR_PREC + 1 <= k ->
  mpfr_emin <= k + 1 <= mpfr_emax -> mpfr_emin <= j + 1 <= mpfr_emax ->
  mpfr_emin <= k - j + 1 <= mpfr_emax ->
  stats_reldiff (MFin s 1 k) (MFin (negb s) 1 j) = MFin s 1 (k - j).
Proof.
  intros Hj Rk Rj Rd.
  pose proof MPFR_PREC_pos as Hp.
  pose proof (pow2_pos k) as Pk. pose proof (pow2_pos j) as Pj.
  unfold stats_reldiff. cbv zeta.
  assert (D : mpfr_sub MPFR_PREC (MFin s 1 k) (MFin (negb s) 1 j) = MFin s 1 k).
  { cbn [mpfr_sub]. destruct s; cbn [negb].
    - rewrite mpfr_round_neg by (fin_values; lra).
      rewrite (round_pos_comp _ _ _ (pow2 k + pow2 j))
        by (fin_values; (lra || ring)).
      apply round_pos_pow2_plus; assumption.
    - rewrite mpfr_round_pos by (fin_values; lra).
      rewrite (round_pos_comp _ _ _ (pow2 k + pow2 j))
        by (fin_values; (lra || ring)).
      apply round_pos_pow2_plus; assumption. }
  assert (A : mpfr_abs MPFR_PREC (MFin (negb s) 1 j) = MFin false 1 j).
  { cbn [mpfr_abs].
    rewrite (mpfr_round_comp _ _ (toQ (MFin false 1 j))).
    - apply mpfr_round_toQ; [apply mpfr_fits_pow2; assumption|reflexivity].
    - rewrite toQ_fin_false. destruct (negb s).
      + rewrite toQ_fin_true. rewrite Qabs_neg by (change (inject_Z 1) with 1%Q; lra). ring.
      + rewrite toQ_fin_false. apply Qabs_pos. change (inject_Z 1) with 1%Q. lra. }
  rewrite D, A. cbn [mpfr_div].
  rewrite (mpfr_round_comp _ _ (toQ (MFin s 1 (k - j)))).
  - apply mpfr_round_toQ; [apply mpfr_fits_pow2; assumption|reflexivity].
  - cbn [toQ]. change (inject_Z 1) with 1%Q. change (sgnQ false) with 1%Q.
    rewrite pow2_sub. field. lra.
Qed.

Lemma half_range_bounds :
  - half_range + MPFR_PREC + 1 <= half_range /\
  (mpfr_emin <= half_range + 1 <= mpfr_emax) /\
  (mpfr_emin <= - half_range + 1 <= mpfr_emax) /\
  (mpfr_emin <= half_range - - half_range + 1 <= mpfr_emax) /\
  half_range - - half_range = mpfr_emax - 1.
Proof.
  split; [apply Z.leb_le; vm_compute; reflexivity|].
  repeat (split; [split; apply Z.leb_le; vm_compute; reflexivity|]).
  vm_compute. reflexivity.
Qed.

Lemma large_sample_reldiff s :
  stats_reldiff (fst (large_sample s)) (snd (large_sample s)) = MFin s 1 (mpfr_emax - 1).
Proof.
  destruct half_range_bounds as (B1 & B2 & B3 & B4 & B5).
  unfold large_sample. cbn [fst snd]. rewrite <- B5.
  apply stats_reldiff_pow2; assumption.
Qed.

(** ** Two finite relative changes whose difference overflows *)

(** C10 as stated fails when [delta] overflows although both relative
    changes are finite: after the large sample the mean is [2^(emax-1)] and
    [m2] is [+0]; the opposite sample has the relative change
    [-2^(emax-1)], [delta] is their difference [-2^emax], which overflows to
    minus infinity, and so do the mean and [m2].  The counter is 2. *)
Lemma stats_add_delta_overflows :
  mpfr_number_p (stats_reldiff (fst (large_sample false)) (snd (large_sample false))) = true /\
  mpfr_number_p (stats_reldiff (fst (large_sample true)) (snd (large_sample true))) = true /\
  m2 cell_large = MZero false /\
  mpfr_sub MPFR_PREC (stats_reldiff (fst (large_sample true)) (snd (large_sample true)))
           (mean cell_large) = MInf true /\
  m2 (stats_add cell_large (fst (large_sample true)) (snd (large_sample true))) = MInf true /\
  ~ mle (m2 cell_large)
        (m2 (stats_add cell_large (fst (large_sample true)) (snd (large_sample true)))) /\
  ~ mle (MZero false)
        (m2 (stats_add cell_large (fst (large_sample true)) (snd (large_sample true)))).
Proof.
  pose proof (large_sample_reldiff false) as R1.
  pose proof (large_sample_reldiff true) as R2.
  split; [rewrite R1; reflexivity|]. split; [rewrite R2; reflexivity|].
  unfold cell_large.
  rewrite (stats_add_first "d" "g") by (rewrite R1; reflexivity).
  cbn [m2 mean].
  assert (D : mpfr_sub MPFR_PREC (MFin true 1 (mpfr_emax - 1)) (MFin false 1 (mpfr_emax - 1))
              = MInf true).
  { pose proof (pow2_pos (mpfr_emax - 1)) as P.
    assert (E : (pow2 mpfr_emax == 2 * pow2 (mpfr_emax - 1))%Q).
    { rewrite <- pow2_succ. replace (mpfr_emax - 1 + 1) with mpfr_emax by lia. reflexivity. }
    cbn [mpfr_sub].
    rewrite mpfr_round_neg by (fin_values; lra).
    rewrite (round_pos_comp _ _ _ (pow2 mpfr_emax)).
    - apply round_pos_overflow.
    - fin_values. lra.
    - rewrite E. fin_values. ring. }
  assert (V : m2 (stats_add {| distribution := "d"; generator := "g"; n := 1;
                               mean := stats_reldiff (fst (large_sample false))
                                                     (snd (large_sample false));
                               m2 := MZero false |}
                            (fst (large_sample true)) (snd (large_sample true))) = MInf true).
  { rewrite stats_add_reldiff. cbv zeta. cbn [n mean m2]. rewrite R1, R2, D. reflexivity. }
  split; [reflexivity|]. split; [rewrite R1, R2; exact D|].
  rewrite V. split; [reflexivity|]. split; intros L; discriminate L.
Qed.

(** * Further properties of the accumulator *)

(** ** The counter and the names along a run *)

Lemma ulong_add_l a b : ulong (ulong a + b) = ulong (a + b).
Proof. unfold ulong. apply Z.add_mod_idemp_l. lia. Qed.

Lemma stats_add_all_fields l : forall stats,
  n (stats_add_all stats l) = ulong (n stats + Z.of_nat (List.length l)) \/
  (l = [] /\ n (stats_add_all stats l) = n stats).
Proof.
  induction l as [|yr l IH]; intros stats.
  - right. split; reflexivity.
  - left. cbn [stats_add_all fold_left List.length].
    fold (stats_add_all (stats_add stats (fst yr) (snd yr)) l).
    destruct (IH (stats_add stats (fst yr) (snd yr))) as [E|[-> E]].
    + rewrite E. change (n (stats_add stats (fst yr) (snd yr))) with (ulong (n stats + 1)).
      rewrite ulong_add_l. f_equal. lia.
    + reflexivity.
Qed.

Lemma stats_add_all_names l : forall stats,
  distribution (stats_add_all stats l) = distribution stats /\
  generator (stats_add_all stats l) = generator stats.
Proof.
  induction l as [|yr l IH]; intros stats; [split; reflexivity|].
  cbn [stats_add_all fold_left].
  fold (stats_add_all (stats_add stats (fst yr) (snd yr)) l).
  destruct (IH (stats_add stats (fst yr) (snd yr))) as [D G]. rewrite D, G.
  split; reflexivity.
Qed.

(** X1: a run of [stats_add] calls counts every call, whatever the values
    are (a NaN sample counts too): the counter ends at the number of calls
    added to its start, modulo [2^64], and the two names are left alone. *)
Theorem stats_add_all_counts (stats : stats_t) (l : list (mpfr_t * mpfr_t)) :
  0 <= n stats <= ULONG_MAX ->
  n (stats_add_all stats l) = (n stats + Z.of_nat (List.length l)) mod 2 ^ 64 /\
  distribution (stats_add_all stats l) = distribution stats /\
  generator (stats_add_all stats l) = generator stats.
Proof.
  intros R. split; [|apply stats_add_all_names].
  destruct (stats_add_all_fields l stats) as [E|[-> E]]; [exact E|].
  rewrite E. cbn [List.length Z.of_nat]. rewrite Z.add_0_r.
  symmetry. apply Z.mod_small. unfold ULONG_MAX in R. lia.
Qed.

Lemma stats_add_all_counts_witness :
  n (stats_add_all (stats_init "d" "g") [(MNaN, mpfr_one); (mpfr_two, mpfr_one)])
    = (n (stats_init "d" "g") + 2) mod 2 ^ 64 /\
  distribution (stats_add_all (stats_init "d" "g") [(MNaN, mpfr_one); (mpfr_two, mpfr_one)])
    = distribution (stats_init "d" "g") /\
  generator (stats_add_all (stats_init "d" "g") [(MNaN, mpfr_one); (mpfr_two, mpfr_one)])
    = generator (stats_init "d" "g").
Proof.
  apply (stats_add_all_counts (stats_init "d" "g") [(MNaN, mpfr_one); (mpfr_two, mpfr_one)]).
  vm_compute. split; discriminate.
Defined.

(** ** Values that are not finite *)

Lemma mpfr_div_nan_inf_l p x y : mpfr_number_p x = false ->
  mpfr_number_p (mpfr_div p x y) = false.
Proof.
  destruct x as [|a|a|a m e]; try discriminate; intros _.
  - reflexivity.
  - destruct y; reflexivity.
Qed.

(** X2: a NaN or infinite observed value or reference gives a relative
    change that is NaN or infinite. *)
Theorem stats_reldiff_nonfinite_input (y ref : mpfr_t) :
  mpfr_number_p y = false \/ mpfr_number_p ref = false ->
  mpfr_number_p (stats_reldiff y ref) = false.
Proof.
  intros [Y|R]; unfold stats_reldiff; cbv zeta.
  - apply mpfr_div_nan_inf_l, mpfr_sub_nan_inf_l. assumption.
  - apply mpfr_div_nan_inf_l, mpfr_sub_nan_inf_r. assumption.
Qed.

Lemma stats_reldiff_nonfinite_input_witness :
  mpfr_number_p (stats_reldiff mpfr_one (MInf true)) = false.
Proof.
  apply (stats_reldiff_nonfinite_input mpfr_one (MInf true)). right. reflexivity.
Defined.

Lemma stats_add_nonfinite stats y ref :
  mpfr_number_p (stats_reldiff y ref) = false ->
  mpfr_number_p (mean (stats_add stats y ref)) = false /\
  mpfr_number_p (m2 (stats_add stats y ref)) = false.
Proof.
  intros R. rewrite stats_add_reldiff. cbv zeta. cbn [mean m2].
  set (r := stats_reldiff y ref) in *.
  set (delta := mpfr_sub MPFR_PREC r (mean stats)).
  assert (D : mpfr_number_p delta = false) by (apply mpfr_sub_nan_inf_l; assumption).
  assert (M1 : mpfr_number_p
            (mpfr_add MPFR_PREC (mean stats) (mpfr_div_ui MPFR_PREC delta (ulong (n stats + 1)))) = false)
    by (apply mpfr_add_nan_inf_r, mpfr_div_ui_nan_inf; assumption).
  split; [assumption|].
  apply mpfr_fma_nan_inf; [assumption|]. apply mpfr_sub_nan_inf_r. assumption.
Qed.

(** X3: one relative change that is NaN or infinite, from whatever cause
    (a zero, NaN or infinite reference, a NaN or infinite observed value, an
    overflow of the quotient), leaves mean and [m2] NaN or infinite, and no
    later sample repairs them; the report of such a cell shows a variance
    and a deviation that are NaN or infinite as well. *)
Theorem stats_add_nonfinite_sticks (stats : stats_t) (y ref : mpfr_t)
    (l : list (mpfr_t * mpfr_t)) :
  mpfr_number_p (stats_reldiff y ref) = false ->
  mpfr_number_p (mean (stats_add_all (stats_add stats y ref) l)) = false /\
  mpfr_number_p (m2 (stats_add_all (stats_add stats y ref) l)) = false /\
  mpfr_number_p (fst (stats_variance_stddev (stats_add_all (stats_add stats y ref) l))) = false /\
  mpfr_number_p (snd (stats_variance_stddev (stats_add_all (stats_add stats y ref) l))) = false.
Proof.
  intros R. destruct (stats_add_nonfinite stats y ref R) as [M V].
  destruct (stats_add_all_poisoned l _ M V) as [M' V'].
  split; [assumption|]. split; [assumption|].
  unfold stats_variance_stddev. cbv zeta.
  destruct (1 <? n (stats_add_all (stats_add stats y ref) l)); cbn [fst snd]; [|split; reflexivity].
  pose proof (mpfr_div_ui_nan_inf MPFR_PREC _
                (ulong (n (stats_add_all (stats_add stats y ref) l) - 1)) V') as Dv.
  split; [assumption|].
  destruct (mpfr_div_ui MPFR_PREC _ _) as [|[|]| |]; try discriminate; reflexivity.
Qed.

Lemma stats_add_nonfinite_sticks_witness :
  mpfr_number_p (mean (stats_add_all (stats_add (stats_init "d" "g") mpfr_one (MInf false))
                                     [(mpfr_two, mpfr_one)])) = false /\
  mpfr_number_p (m2 (stats_add_all (stats_add (stats_init "d" "g") mpfr_one (MInf false))
                                   [(mpfr_two, mpfr_one)])) = false /\
  mpfr_number_p (fst (stats_variance_stddev
                        (stats_add_all (stats_add (stats_init "d" "g") mpfr_one (MInf false))
                                       [(mpfr_two, mpfr_one)]))) = false /\
  mpfr_number_p (snd (stats_variance_stddev
                        (stats_add_all (stats_add (stats_init "d" "g") mpfr_one (MInf false))
                                       [(mpfr_two, mpfr_one)]))) = false.
Proof.
  apply (stats_add_nonfinite_sticks (stats_init "d" "g") mpfr_one (MInf false)
           [(mpfr_two, mpfr_one)]).
  vm_compute. reflexivity.
Defined.

(** ** Equal relative changes *)

Lemma mpfr_add_zero_r p x : mpfr_fits p x = true -> is_regular x = true ->
  mpfr_add p x (MZero false) = x.
Proof.
  intros F R. destruct x as [|a|a|a m e]; try discriminate. cbn [mpfr_add].
  rewrite (mpfr_round_comp p _ (toQ (MFin a m e))) by (cbn [toQ]; ring).
  apply mpfr_round_toQ; [assumption|reflexivity].
Qed.

(** One more sample whose relative change equals the mean. *)
Lemma stats_add_same stats y ref :
  is_regular (mean stats) = true -> mpfr_fits MPFR_PREC (mean stats) = true ->
  m2 stats = MZero false -> 0 <= n stats < ULONG_MAX ->
  stats_reldiff y ref = mean stats ->
  n (stats_add stats y ref) = n stats + 1 /\
  mean (stats_add stats y ref) = mean stats /\
  m2 (stats_add stats y ref) = MZero false.
Proof.
  intros R F V N E.
  rewrite stats_add_reldiff. cbv zeta. cbn [n mean m2].
  rewrite E, V, (ulong_small (n stats + 1)) by lia.
  rewrite (mpfr_sub_same _ _ R). cbn [mpfr_div_ui].
  destruct (Z.eqb_spec (n stats + 1) 0) as [Z|_]; [lia|].
  rewrite (mpfr_add_zero_r _ _ F R), (mpfr_sub_same _ _ R).
  split; [reflexivity|]. split; reflexivity.
Qed.

Lemma stats_add_all_same l : forall stats,
  is_regular (mean stats) = true -> mpfr_fits MPFR_PREC (mean stats) = true ->
  m2 stats = MZero false -> 0 <= n stats ->
  n stats + Z.of_nat (List.length l) <= ULONG_MAX ->
  Forall (fun yr => stats_reldiff (fst yr) (snd yr) = mean stats) l ->
  n (stats_add_all stats l) = n stats + Z.of_nat (List.length l) /\
  mean (stats_add_all stats l) = mean stats /\
  m2 (stats_add_all stats l) = MZero false.
Proof.
  induction l as [|yr l IH]; intros stats R F V N0 Hn A.
  - cbn [stats_add_all fold_left List.length Z.of_nat]. split; [lia|]. split; [reflexivity|assumption].
  - cbn [List.length] in Hn. rewrite Nat2Z.inj_succ in Hn.
    inversion A as [|? ? E A']; subst.
    destruct (stats_add_same stats (fst yr) (snd yr) R F V ltac:(lia) E) as (N1 & M1 & V1).
    cbn [stats_add_all fold_left List.length].
    fold (stats_add_all (stats_add stats (fst yr) (snd yr)) l).
    destruct (IH (stats_add stats (fst yr) (snd yr))) as (N2 & M2 & V2);
      rewrite ?M1, ?N1; try assumption; try lia.
    split; [rewrite N2, N1, Nat2Z.inj_succ; lia|]. split; [rewrite M2, M1; reflexivity|assumption].
Qed.

Lemma variance_of_zero stats : m2 stats = MZero false -> 2 <= n stats <= ULONG_MAX ->
  stats_variance_stddev stats = (MZero false, MZero false).
Proof.
  intros V N. unfold stats_variance_stddev. cbv zeta.
  destruct (Z.ltb_spec 1 (n stats)) as [_|L]; [|lia].
  rewrite V, (ulong_small (n stats - 1)) by lia. cbn [mpfr_div_ui].
  destruct (Z.eqb_spec (n stats - 1) 0) as [Z|_]; [lia|]. reflexivity.
Qed.

(** X4: samples that all have the same regular relative change [r] are
    accumulated without any rounding error: after any number of them (below
    [2^64]) the mean is exactly [r] and [m2] is exactly [+0], and from the
    second sample on the report shows the variance and the deviation [+0]. *)
Theorem stats_add_equal_changes (dist gen : string) (r : mpfr_t) (y ref : mpfr_t)
    (l : list (mpfr_t * mpfr_t)) :
  is_regular r = true ->
  Z.of_nat (List.length l) < ULONG_MAX ->
  Forall (fun yr => stats_reldiff (fst yr) (snd yr) = r) ((y, ref) :: l) ->
  n (stats_add_all (stats_init dist gen) ((y, ref) :: l)) = 1 + Z.of_nat (List.length l) /\
  mean (stats_add_all (stats_init dist gen) ((y, ref) :: l)) = r /\
  m2 (stats_add_all (stats_init dist gen) ((y, ref) :: l)) = MZero false /\
  (l <> [] -> stats_variance_stddev (stats_add_all (stats_init dist gen) ((y, ref) :: l))
              = (MZero false, MZero false)).
Proof.
  intros R Hn A. inversion A as [|? ? E A']; subst. cbn [fst snd] in *.
  cbn [stats_add_all fold_left fst snd].
  fold (stats_add_all (stats_add (stats_init dist gen) y ref) l).
  rewrite (stats_add_first dist gen y ref R).
  set (c := {| distribution := dist; generator := gen; n := 1;
               mean := stats_reldiff y ref; m2 := MZero false |}).
  destruct (stats_add_all_same l c R (stats_reldiff_fits y ref) eq_refl ltac:(cbn; lia)
              ltac:(cbn [n c]; lia) A') as (N & M & V).
  cbn [n mean c] in N, M.
  split; [assumption|]. split; [assumption|]. split; [assumption|].
  intros NE. apply variance_of_zero; [assumption|]. rewrite N.
  destruct l; [contradiction|]. cbn [List.length] in *. lia.
Qed.

Lemma stats_add_equal_changes_witness :
  n (stats_add_all (stats_init "d" "g") [(mpfr_two, mpfr_one); (mpfr_two, mpfr_one)]) = 1 + 1 /\
  mean (stats_add_all (stats_init "d" "g") [(mpfr_two, mpfr_one); (mpfr_two, mpfr_one)])
    = mpfr_one /\
  m2 (stats_add_all (stats_init "d" "g") [(mpfr_two, mpfr_one); (mpfr_two, mpfr_one)])
    = MZero false /\
  ([(mpfr_two, mpfr_one)] <> [] ->
   stats_variance_stddev
     (stats_add_all (stats_init "d" "g") [(mpfr_two, mpfr_one); (mpfr_two, mpfr_one)])
   = (MZero false, MZero false)).
Proof.
  apply (stats_add_equal_changes "d" "g" mpfr_one mpfr_two mpfr_one [(mpfr_two, mpfr_one)]).
  - reflexivity.
  - vm_compute. reflexivity.
  - repeat constructor.
Defined.

(** ** The mean stays among the relative changes *)

Lemma stats_add_first_value dist gen y ref :
  mpfr_number_p (stats_reldiff y ref) = true ->
  mpfr_number_p (mean (stats_add (stats_init dist gen) y ref)) = true /\
  (toQ (mean (stats_add (stats_init dist gen) y ref)) == toQ (stats_reldiff y ref))%Q.
Proof.
  intros N. destruct (stats_reldiff y ref) as [|a|a|a m e] eqn:E; try discriminate.
  - rewrite stats_add_reldiff. cbv zeta. cbn [mean]. rewrite E.
    split; reflexivity.
  - rewrite (stats_add_first dist gen y ref) by (rewrite E; reflexivity).
    cbn [mean]. rewrite E. split; reflexivity.
Qed.

Lemma stats_add_all_range lo hi l : forall stats,
  mpfr_number_p lo = true -> mpfr_number_p hi = true ->
  welford_inv stats -> n stats + Z.of_nat (List.length l) <= ULONG_MAX ->
  run_finite stats l ->
  Forall (fun yr => mle lo (stats_reldiff (fst yr) (snd yr)) /\
                    mle (stats_reldiff (fst yr) (snd yr)) hi) l ->
  (toQ lo <= toQ (mean stats) <= toQ hi)%Q ->
  mpfr_number_p (mean (stats_add_all stats l)) = true /\
  (toQ lo <= toQ (mean (stats_add_all stats l)) <= toQ hi)%Q.
Proof.
  induction l as [|yr l IH]; intros stats NL NH I Hn R A B.
  - cbn [stats_add_all fold_left]. split; [apply I|assumption].
  - cbn [List.length] in Hn. rewrite Nat2Z.inj_succ in Hn.
    destruct R as (Nr & ND & R). inversion A as [|? ? [Lr Hr] A']; subst.
    pose proof I as (Nm & _ & _ & _ & N0 & _).
    destruct (stats_add_inv stats (fst yr) (snd yr) I ltac:(lia) Nr ND) as (I1 & N1 & _ & Bt).
    pose proof I1 as (Nm1 & _).
    apply (mle_number lo _ NL Nr) in Lr. apply (mle_number _ hi Nr NH) in Hr.
    cbn [stats_add_all fold_left].
    fold (stats_add_all (stats_add stats (fst yr) (snd yr)) l).
    apply IH; try assumption; try lia.
    destruct Bt as [[B1 B2]|[B1 B2]].
    + apply (mle_number _ _ Nm Nm1) in B1. apply (mle_number _ _ Nm1 Nr) in B2. lra.
    + apply (mle_number _ _ Nr Nm1) in B1. apply (mle_number _ _ Nm1 Nm) in B2. lra.
Qed.

(** X5: along a run of fewer than [2^64] samples whose relative changes and
    [delta]s are all finite, the mean never leaves the range of the relative
    changes seen: with every relative change between [lo] and [hi], so is
    the mean, however the intermediate results were rounded. *)
Theorem stats_add_mean_in_range (dist gen : string) (lo hi y ref : mpfr_t)
    (l : list (mpfr_t * mpfr_t)) :
  mpfr_number_p lo = true -> mpfr_number_p hi = true ->
  Z.of_nat (List.length l) < ULONG_MAX ->
  run_finite (stats_init dist gen) ((y, ref) :: l) ->
  Forall (fun yr => mle lo (stats_reldiff (fst yr) (snd yr)) /\
                    mle (stats_reldiff (fst yr) (snd yr)) hi) ((y, ref) :: l) ->
  mle lo (mean (stats_add_all (stats_init dist gen) ((y, ref) :: l))) /\
  mle (mean (stats_add_all (stats_init dist gen) ((y, ref) :: l))) hi.
Proof.
  intros NL NH Hn R A.
  destruct R as (Nr & ND & R). cbn [fst snd] in Nr, ND, R.
  inversion A as [|? ? [Lr Hr] A']; subst. cbn [fst snd] in Lr, Hr.
  destruct (stats_init_fields dist gen) as (N0 & _).
  destruct (stats_add_inv _ y ref (stats_init_inv dist gen) ltac:(unfold ULONG_MAX; lia) Nr ND)
    as (I1 & N1 & _).
  destruct (stats_add_first_value dist gen y ref Nr) as (Nm1 & V1).
  apply (mle_number lo _ NL Nr) in Lr. apply (mle_number _ hi Nr NH) in Hr.
  cbn [stats_add_all fold_left fst snd].
  fold (stats_add_all (stats_add (stats_init dist gen) y ref) l).
  destruct (stats_add_all_range lo hi l _ NL NH I1 ltac:(lia) R A' ltac:(lra)) as (Nm & B).
  split; apply mle_number; try assumption; lra.
Qed.

Lemma stats_add_mean_in_range_witness :
  mle (mpfr_neg_val mpfr_one)
      (mean (stats_add_all (stats_init "d" "g")
                           [(mpfr_two, mpfr_one); (mpfr_zero, mpfr_one); (mpfr_one, mpfr_one)])) /\
  mle (mean (stats_add_all (stats_init "d" "g")
                           [(mpfr_two, mpfr_one); (mpfr_zero, mpfr_one); (mpfr_one, mpfr_one)]))
      mpfr_one.
Proof.
  apply (stats_add_mean_in_range "d" "g" (mpfr_neg_val mpfr_one) mpfr_one mpfr_two mpfr_one
           [(mpfr_zero, mpfr_one); (mpfr_one, mpfr_one)]).
  - reflexivity.
  - reflexivity.
  - vm_compute. reflexivity.
  - vm_compute. repeat split.
  - repeat constructor; vm_compute; reflexivity.
Defined.

(** ** The sign of a relative change *)

Lemma mpfr_abs_fits p s m e : mpfr_fits p (MFin s m e) = true ->
  mpfr_abs p (MFin s m e) = MFin false m e.
Proof.
  intros F. cbn [mpfr_abs].
  rewrite (mpfr_round_comp _ _ (toQ (MFin false m e)))
    by (rewrite Qabs_toQ_fin, toQ_fin_false; reflexivity).
  apply mpfr_round_toQ; [|reflexivity].
  apply mpfr_fits_fin. apply mpfr_fits_fin in F. assumption.
Qed.

Lemma mpfr_div_nonneg p d m e : 1 <= p -> mle (MZero false) d ->
  mle (MZero false) (mpfr_div p d (MFin false m e)).
Proof.
  intros Hp D. pose proof (toQ_fin_pos m e) as P.
  destruct d as [|[|]|a|b m' e']; try discriminate D; cbn [mpfr_div mpfr_signbit xorb].
  - reflexivity.
  - destruct a; reflexivity.
  - apply (mle_number (MZero false) (MFin b m' e') eq_refl eq_refl) in D.
    change (toQ (MZero false)) with 0%Q in D.
    apply mpfr_round_ge; try assumption; try reflexivity.
    change (toQ (MZero false)) with 0%Q.
    apply Qle_shift_div_l; lra.
Qed.

Lemma mpfr_div_nonpos p d m e : 1 <= p -> mle d (MZero false) ->
  mle (mpfr_div p d (MFin false m e)) (MZero false).
Proof.
  intros Hp D. pose proof (toQ_fin_pos m e) as P.
  destruct d as [|[|]|a|b m' e']; try discriminate D; cbn [mpfr_div mpfr_signbit xorb].
  - reflexivity.
  - destruct a; reflexivity.
  - apply (mle_number (MFin b m' e') (MZero false) eq_refl eq_refl) in D.
    change (toQ (MZero false)) with 0%Q in D.
    apply mpfr_round_le; try assumption; try reflexivity.
    change (toQ (MZero false)) with 0%Q.
    apply Qle_shift_div_r; lra.
Qed.

(** X6: the relative change has the sign of [y - ref], whatever the sign of
    the reference (the divisor is [|ref|]): for a regular reference held at
    [MPFR_PREC] bits, an observed value at or above it gives a relative
    change that is not negative, one at or below it a relative change that
    is not positive; NaN does not occur. *)
Theorem stats_reldiff_sign (y ref : mpfr_t) :
  mpfr_number_p y = true -> is_regular ref = true -> mpfr_fits MPFR_PREC ref = true ->
  ((toQ ref <= toQ y)%Q -> mle (MZero false) (stats_reldiff y ref)) /\
  ((toQ y <= toQ ref)%Q -> mle (stats_reldiff y ref) (MZero false)).
Proof.
  intros Ny Rr Fr. pose proof MPFR_PREC_pos as Hp.
  destruct ref as [|s|s|s m e]; try discriminate.
  unfold stats_reldiff. cbv zeta. rewrite (mpfr_abs_fits _ _ _ _ Fr).
  pose proof (mpfr_sub_rounds MPFR_PREC y (MFin s m e) Ny eq_refl) as RD.
  split; intros L.
  - apply mpfr_div_nonneg; [assumption|].
    apply (rounds_ge _ _ _ _ Hp RD); try reflexivity.
    change (toQ (MZero false)) with 0%Q. lra.
  - apply mpfr_div_nonpos; [assumption|].
    apply (rounds_le _ _ _ _ Hp RD); try reflexivity.
    change (toQ (MZero false)) with 0%Q. lra.
Qed.

Lemma stats_reldiff_sign_witness :
  ((toQ (mpfr_neg_val mpfr_one) <= toQ mpfr_two)%Q ->
   mle (MZero false) (stats_reldiff mpfr_two (mpfr_neg_val mpfr_one))) /\
  ((toQ mpfr_two <= toQ (mpfr_neg_val mpfr_one))%Q ->
   mle (stats_reldiff mpfr_two (mpfr_neg_val mpfr_one)) (MZero false)).
Proof.
  apply (stats_reldiff_sign mpfr_two (mpfr_neg_val mpfr_one)); reflexivity.
Defined.

(** ** The report of a healthy cell *)

Lemma mpfr_div_ui_nonneg p x u : 1 <= p -> 1 <= u -> mle (MZero false) x ->
  mle (MZero false) (mpfr_div_ui p x u).
Proof.
  intros Hp U X.
  assert (Q1 : (1 <= inject_Z u)%Q) by (rewrite <- (Zle_Qle 1); assumption).
  destruct x as [|[|]|a|b m e]; try discriminate X; cbn [mpfr_div_ui].
  - reflexivity.
  - destruct (Z.eqb_spec u 0); [lia|]. destruct a; reflexivity.
  - destruct (Z.eqb_spec u 0); [lia|].
    apply (mle_number (MZero false) (MFin b m e) eq_refl eq_refl) in X.
    change (toQ (MZero false)) with 0%Q in X.
    apply mpfr_round_ge; try assumption; try reflexivity.
    change (toQ (MZero false)) with 0%Q.
    apply Qle_shift_div_l; lra.
Qed.

Lemma mpfr_sqrt_nonneg p x : 1 <= p -> mle (MZero false) x ->
  mle (MZero false) (mpfr_sqrt p x).
Proof.
  intros Hp X.
  destruct x as [|[|]|a|b m e]; try discriminate X; cbn [mpfr_sqrt].
  - reflexivity.
  - destruct a; reflexivity.
  - apply (mle_number (MZero false) (MFin b m e) eq_refl eq_refl) in X.
    change (toQ (MZero false)) with 0%Q in X.
    destruct b; [pose proof (toQ_fin_neg m e); lra|].
    cbv zeta.
    set (k0 := Z.max 0 (2 * p + 4 - Z.log2 (Z.pos m))).
    set (k := if Z.even (e - k0) then k0 else k0 + 1).
    set (s := Z.sqrt (Z.pos m * 2 ^ k)).
    assert (S0 : 0 <= s) by apply Z.sqrt_nonneg.
    assert (Q0 : (0 <= inject_Z s)%Q) by (rewrite <- (Zle_Qle 0); assumption).
    assert (Q1 : (0 <= inject_Z (2 * s + 1))%Q) by (rewrite <- (Zle_Qle 0); lia).
    pose proof (pow2_pos ((e - k) / 2)) as P.
    destruct (_ =? _); apply mpfr_round_ge; try assumption; try reflexivity;
      change (toQ (MZero false)) with 0%Q.
    + apply Qmult_le_0_compat; lra.
    + apply Qmult_le_0_compat; [|lra]. apply Qle_shift_div_l; lra.
Qed.

(** X7: after a run of at least two and fewer than [2^64] samples whose
    relative changes and [delta]s are all finite, the report never shows a
    NaN: the variance [m2 / (n - 1)] and its square root are not negative
    (zero, positive or plus infinity). *)
Theorem stats_print_finite_run (dist gen : string) (l : list (mpfr_t * mpfr_t)) :
  2 <= Z.of_nat (List.length l) <= ULONG_MAX ->
  run_finite (stats_init dist gen) l ->
  mle (MZero false) (fst (stats_variance_stddev (stats_add_all (stats_init dist gen) l))) /\
  mle (MZero false) (snd (stats_variance_stddev (stats_add_all (stats_init dist gen) l))).
Proof.
  intros Hn R. pose proof MPFR_PREC_pos as Hp.
  destruct (stats_init_fields dist gen) as (N0 & _).
  destruct (stats_add_all_inv l _ (stats_init_inv dist gen) ltac:(lia) R) as (I & N).
  destruct I as (_ & _ & V & _). rewrite N0 in N.
  unfold stats_variance_stddev. cbv zeta.
  destruct (Z.ltb_spec 1 (n (stats_add_all (stats_init dist gen) l))) as [_|L]; [|lia].
  cbn [fst snd]. rewrite N, (ulong_small (0 + Z.of_nat (List.length l) - 1)) by lia.
  assert (D : mle (MZero false)
                (mpfr_div_ui MPFR_PREC (m2 (stats_add_all (stats_init dist gen) l))
                             (0 + Z.of_nat (List.length l) - 1)))
    by (apply mpfr_div_ui_nonneg; [assumption|lia|assumption]).
  split; [assumption|]. apply mpfr_sqrt_nonneg; assumption.
Qed.

Lemma stats_print_finite_run_witness :
  mle (MZero false)
      (fst (stats_variance_stddev
              (stats_add_all (stats_init "d" "g") [(mpfr_two, mpfr_one); (mpfr_zero, mpfr_one)]))) /\
  mle (MZero false)
      (snd (stats_variance_stddev
              (stats_add_all (stats_init "d" "g") [(mpfr_two, mpfr_one); (mpfr_zero, mpfr_one)]))).
Proof.
  apply (stats_print_finite_run "d" "g" [(mpfr_two, mpfr_one); (mpfr_zero, mpfr_one)]).
  - vm_compute. split; discriminate.
  - vm_compute. repeat split.
Defined.

(** * Further properties of the random inputs *)

(** ** Non-negative floats are ordered like their bit patterns *)

Lemma float_val_units x : 0 <= x < 0x7F800000 ->
  (toQ (float_val x) == inject_Z (float_units x) * pow2 (-149))%Q.
Proof.
  intros R. rewrite (float_val_small x R). cbv zeta. unfold float_units.
  assert (EX : 0 <= x / 2 ^ 23) by (apply Z.div_pos; lia).
  destruct (Z.eqb_spec (x / 2 ^ 23) 0) as [E|NE]; [reflexivity|].
  rewrite inject_Z_mult, <- (pow2_Z (x / 2 ^ 23 - 1)) by lia.
  replace (x / 2 ^ 23 - 150) with ((x / 2 ^ 23 - 1) + -149) by lia.
  rewrite pow2_add. ring.
Qed.

Lemma float_units_mono x x' : 0 <= x -> x < x' -> float_units x < float_units x'.
Proof.
  intros L Lt. unfold float_units.
  pose proof (Z.div_mod x (2 ^ 23) ltac:(lia)) as DM.
  pose proof (Z.div_mod x' (2 ^ 23) ltac:(lia)) as DM'.
  pose proof (Z.mod_pos_bound x (2 ^ 23) ltac:(lia)) as FR.
  pose proof (Z.mod_pos_bound x' (2 ^ 23) ltac:(lia)) as FR'.
  assert (EX : 0 <= x / 2 ^ 23) by (apply Z.div_pos; lia).
  assert (LE : x / 2 ^ 23 <= x' / 2 ^ 23) by (apply Z.div_le_mono; lia).
  set (ex := x / 2 ^ 23) in *. set (frac := x mod 2 ^ 23) in *.
  set (ex' := x' / 2 ^ 23) in *. set (frac' := x' mod 2 ^ 23) in *.
  destruct (Z.eq_dec ex ex') as [E|NE].
  - rewrite <- E. assert (frac < frac') by lia.
    destruct (Z.eqb_spec ex 0); [assumption|].
    apply Z.mul_lt_mono_pos_r; [apply Z.pow_pos_nonneg; lia | lia].
  - assert (LT : ex < ex') by lia.
    destruct (Z.eqb_spec ex' 0) as [Z'|NZ']; [lia|].
    assert (P' : 2 ^ ex <= 2 ^ (ex' - 1)) by (apply Z.pow_le_mono_r; lia).
    assert (G' : 2 ^ 23 * 2 ^ (ex' - 1) <= (2 ^ 23 + frac') * 2 ^ (ex' - 1)).
    { apply Z.mul_le_mono_nonneg_r; [apply Z.pow_nonneg; lia | lia]. }
    assert (P0 : 1 <= 2 ^ ex) by (apply (Z.pow_le_mono_r 2 0 ex); lia).
    destruct (Z.eqb_spec ex 0) as [Z0|NZ]; [nia|].
    assert (S : 2 ^ ex = 2 * 2 ^ (ex - 1)).
    { replace ex with (Z.succ (ex - 1)) at 1 by lia. apply Z.pow_succ_r. lia. }
    assert (Pp : 0 < 2 ^ (ex - 1)) by (apply Z.pow_pos_nonneg; lia).
    nia.
Qed.

Lemma float_val_mono x x' : 0 <= x -> x < x' -> x' < 0x7F800000 ->
  (toQ (float_val x) < toQ (float_val x'))%Q.
Proof.
  intros L Lt U. rewrite (float_val_units x), (float_val_units x') by lia.
  apply Qmult_lt_r; [apply pow2_pos|]. rewrite <- Zlt_Qlt.
  apply float_units_mono; assumption.
Qed.

Lemma above_PI_half q : (13176795 # 8388608 <= q)%Q -> (PI / 2 < Q2R q)%R.
Proof.
  intros H. apply Qle_Rle in H.
  assert (E : Q2R (13176795 # 8388608) = (13176795 / 2 ^ 23)%R).
  { unfold Q2R. cbn [Qnum Qden]. change (Z.pos 8388608) with (2 ^ 23).
    rewrite pow_IZR. reflexivity. }
  rewrite E in H. pose proof PI_half_upper. lra.
Qed.

Lemma float_val_gt_pid2 : (toQ (float_val gt_pid2_int) == 13176795 # 8388608)%Q.
Proof. vm_compute. reflexivity. Qed.

Section MoreRandomInputs.
Context `{GmpRandom}.

(** X8: [getrandom_1] returns the drawn integer itself as the bit pattern;
    on the non-negative finite floats the value grows strictly with the
    pattern, and a pattern denotes a value below [PI/2] exactly when it is
    below [gt_pid2_int].  So every float in [+0, PI/2) is returned for
    exactly one draw, and nothing else is. *)
Theorem getrandom_1_exhausts :
  gmp_random_range ->
  (forall st, snd (getrandom_1 st) = snd (gmp_urandomm_ui st gt_pid2_int) /\
              0 <= snd (getrandom_1 st) < gt_pid2_int) /\
  (forall x x', 0 <= x -> x < x' -> x' < 0x7F800000 ->
     (toQ (float_val x) < toQ (float_val x'))%Q) /\
  (forall x, 0 <= x < 0x7F800000 ->
     ((Q2R (toQ (float_val x)) < PI / 2)%R <-> x < gt_pid2_int)).
Proof.
  intros [RM _]. split; [|split].
  - intros st. rewrite getrandom_1_draw.
    pose proof (RM st gt_pid2_int ltac:(unfold gt_pid2_int, ULONG_MAX; lia)) as R.
    set (r := snd (gmp_urandomm_ui st gt_pid2_int)) in *.
    rewrite uint32_small by (unfold gt_pid2_int in R; lia). split; [reflexivity|assumption].
  - exact float_val_mono.
  - intros x R. split.
    + intros B. destruct (Z.lt_ge_cases x gt_pid2_int) as [|GE]; [assumption|].
      exfalso. assert (V : (13176795 # 8388608 <= toQ (float_val x))%Q).
      { rewrite <- float_val_gt_pid2.
        destruct (Z.eq_dec x gt_pid2_int) as [->|NE]; [apply Qle_refl|].
        apply Qlt_le_weak, float_val_mono; unfold gt_pid2_int in *; lia. }
      apply above_PI_half in V. lra.
    + intros B. apply below_PI_half. apply float_val_below_gt_pid2. lia.
Qed.

(** X9: [getrandom_2] returns a different float for every draw, and the
    multiples [k * 2^-23] that lie below [PI/2] are exactly those with
    [k < gt_pid2_ls23_int]: the samples are all the points of that grid in
    [+0, PI/2), each for exactly one draw. *)
Theorem getrandom_2_exhausts :
  gmp_random_range ->
  (forall st st',
     (toQ (float_val (snd (getrandom_2 st))) == toQ (float_val (snd (getrandom_2 st'))))%Q ->
     snd (gmp_urandomm_ui st gt_pid2_ls23_int) = snd (gmp_urandomm_ui st' gt_pid2_ls23_int)) /\
  (forall k, 0 <= k ->
     ((Q2R (inject_Z k * pow2 (-23)) < PI / 2)%R <-> k < gt_pid2_ls23_int)).
Proof.
  intros [RM _]. split.
  - intros st st'. rewrite !getrandom_2_draw.
    pose proof (RM st gt_pid2_ls23_int ltac:(unfold gt_pid2_ls23_int, ULONG_MAX; lia)) as R.
    pose proof (RM st' gt_pid2_ls23_int ltac:(unfold gt_pid2_ls23_int, ULONG_MAX; lia)) as R'.
    set (i := snd (gmp_urandomm_ui st gt_pid2_ls23_int)) in *.
    set (i' := snd (gmp_urandomm_ui st' gt_pid2_ls23_int)) in *.
    unfold gt_pid2_ls23_int in R, R'.
    rewrite (float_div_pow2_exact i), (float_div_pow2_exact i') by lia.
    rewrite !toQ_mk_fin_nonneg by lia. cbn [sgnQ]. intros E.
    pose proof (pow2_pos (-23)) as P.
    assert (E' : (inject_Z i == inject_Z i')%Q).
    { apply (Qmult_inj_r _ _ (pow2 (-23))); [lra|]. lra. }
    apply eq_IZR. apply Qeq_eqR in E'. unfold Q2R in E'. cbn in E'. lra.
  - intros k K0.
    assert (V : Q2R (inject_Z k * pow2 (-23)) = (IZR k / 2 ^ 23)%R).
    { change (pow2 (-23)) with (1 # 8388608)%Q. unfold Q2R. cbn [Qnum Qden Qmult inject_Z].
      rewrite Z.mul_1_r. change (Z.pos (1 * 8388608)) with (2 ^ 23). rewrite pow_IZR. reflexivity. }
    rewrite V. unfold gt_pid2_ls23_int. pose proof PI_half_lower. pose proof PI_half_upper.
    assert (P23 : (0 < 2 ^ 23)%R) by (apply pow_lt; lra).
    split.
    + intros B. apply lt_IZR.
      apply (Rmult_lt_reg_r (/ 2 ^ 23)); [apply Rinv_0_lt_compat; assumption|].
      unfold Rdiv in *. lra.
    + intros B. assert (k <= 13176794) by lia. apply IZR_le in H2.
      apply Rlt_le_trans with (13176794.5 / 2 ^ 23)%R; [|lra].
      unfold Rdiv. apply Rmult_lt_compat_r; [apply Rinv_0_lt_compat; assumption|]. lra.
Qed.

(** ** The loop of [getrandom_3] *)

Lemma accepted32_finite st :
  accepted32 st = mpfr_number_p (float_val (uint32 (snd (gmp_urandomb_ui st 32)))).
Proof. rewrite <- float_isfinite_val. reflexivity. Qed.

Lemma getrandom_3_skips k : forall fuel st,
  (forall j, (j < k)%nat -> accepted32 (draws32 j st) = false) ->
  accepted32 (draws32 k st) = true -> (k < fuel)%nat ->
  getrandom_3 fuel st = Some (fst (gmp_urandomb_ui (draws32 k st) 32), draw32 k st).
Proof.
  induction k as [|k IH]; intros fuel st Rj A Lk.
  - destruct fuel as [|fuel]; [lia|]. cbn [draws32] in A |- *. unfold accepted32 in A.
    unfold draw32. cbn [getrandom_3 draws32].
    destruct (gmp_urandomb_ui st 32) as [st1 r]. cbn [fst snd] in *.
    destruct (Z.land (uint32 r) 0x7F800000 =? 0x7F800000); [discriminate|reflexivity].
  - destruct fuel as [|fuel]; [lia|].
    pose proof (Rj 0%nat ltac:(lia)) as R0. cbn [draws32] in R0. unfold accepted32 in R0.
    assert (Rj' : forall j, (j < k)%nat ->
                   accepted32 (draws32 j (fst (gmp_urandomb_ui st 32))) = false)
      by (intros j Hj; apply (Rj (S j)); lia).
    specialize (IH fuel (fst (gmp_urandomb_ui st 32)) Rj').
    cbn [getrandom_3]. unfold draw32 in *. cbn [draws32] in A |- *.
    destruct (gmp_urandomb_ui st 32) as [st1 r]. cbn [fst snd] in *.
    destruct (Z.land (uint32 r) 0x7F800000 =? 0x7F800000); [|discriminate].
    apply IH; [assumption|lia].
Qed.

(** X10: [getrandom_3] returns the first draw that denotes a finite float
    (zeros, denormals and negative numbers included), unchanged, having
    consumed exactly the draws up to it: the draws before it, all NaN or
    infinite, are skipped. *)
Theorem getrandom_3_first_finite (fuel k : nat) (st : gmp_randstate_t) :
  (forall j, (j < k)%nat -> mpfr_number_p (float_val (draw32 j st)) = false) ->
  mpfr_number_p (float_val (draw32 k st)) = true ->
  (k < fuel)%nat ->
  getrandom_3 fuel st = Some (fst (gmp_urandomb_ui (draws32 k st) 32), draw32 k st).
Proof.
  intros Rj A Lk. apply getrandom_3_skips; [|rewrite accepted32_finite; exact A|assumption].
  intros j Hj. rewrite accepted32_finite. apply Rj. assumption.
Qed.

End MoreRandomInputs.

Lemma getrandom_1_exhausts_witness :
  @gmp_random_range replay_random /\
  ((Q2R (toQ (float_val 0x3F000000)) < PI / 2)%R <-> 0x3F000000 < gt_pid2_int).
Proof.
  split; [exact replay_random_range|].
  apply (proj2 (proj2 (@getrandom_1_exhausts replay_random replay_random_range))).
  lia.
Defined.

Lemma getrandom_2_exhausts_witness :
  @gmp_random_range replay_random /\
  ((Q2R (inject_Z 13176794 * pow2 (-23)) < PI / 2)%R <-> 13176794 < gt_pid2_ls23_int).
Proof.
  split; [exact replay_random_range|].
  apply (proj2 (@getrandom_2_exhausts replay_random replay_random_range)). lia.
Defined.

Lemma getrandom_3_first_finite_witness :
  @getrandom_3 replay_random 2 0%nat = Some (2%nat, 0x3F000000).
Proof.
  apply (@getrandom_3_first_finite replay_random 2 1 0%nat).
  - intros j Hj. destruct j as [|j]; [reflexivity|lia].
  - reflexivity.
  - lia.
Defined.

(** * Further properties of the main loop *)

Section MorePasses.
Context `{GmpRandom} `{SineLibraries}.

(** ** One pass, cell by cell *)

Lemma pass_spec_cells fuel e e' : matrix_shape (stats e) ->
  pass_spec fuel e = Some e' ->
  exists x1 x2 x3,
    pass_phases fuel (randstate e) = Some [x1; x2; x3] /\
    matrix_shape (stats e') /\
    stdout e' = stdout e /\
    forall dist gen, (dist < 3)%nat -> (gen < 4)%nat ->
      cell (stats e') dist gen =
      stats_add (cell (stats e) dist gen)
                (snd (nth gen generator_table (""%string, getsin_flt)) mpfrtemp_prec
                     (nth dist [x1; x2; x3] 0))
                (mpfr_sin MPFR_PREC (mpfr_set_flt mpfrtemp_prec (nth dist [x1; x2; x3] 0))).
Proof.
  intros S E. destruct e as [rs st out]. cbn [stats stdout randstate] in *.
  destruct (matrix_shape_cells st S)
    as (a0 & a1 & a2 & a3 & b0 & b1 & b2 & b3 & c0 & c1 & c2 & c3 & ->).
  unfold pass_spec in E. unfold pass_phases. cbn [randstate stats stdout] in E.
  destruct (getrandom_1 rs) as [s1 x1]. destruct (getrandom_2 s1) as [s2 x2].
  destruct (getrandom_3 fuel s2) as [[s3 x3]|]; [|discriminate].
  injection E as <-. exists x1, x2, x3. cbn [stats stdout].
  split; [reflexivity|]. unfold recorded_row. cbn [map combine generator_table fst snd].
  split; [apply cells_shape|]. split; [reflexivity|].
  intros d g Hd Hg.
  destruct d as [|[|[|d]]]; try lia; destruct g as [|[|[|[|g]]]]; try lia; reflexivity.
Qed.

Lemma run_combinations_returns fuel e : source_fair fuel -> matrix_shape (stats e) ->
  exists e', run_combinations fuel e = Some e' /\ pass_spec fuel e = Some e'.
Proof.
  intros F S. rewrite run_combinations_pass by assumption.
  unfold pass_spec. destruct (getrandom_1 (randstate e)) as [s1 x1].
  destruct (getrandom_2 s1) as [s2 x2].
  destruct (source_fair_returns fuel s2 F) as ([s3 x3] & R). rewrite R. eauto.
Qed.

(** ** A sample equal to zero *)

Lemma zero_phase_poisons c gen phase :
  mpfr_sin_zero -> mpfr_zero_p (float_val phase) = true ->
  let c' := stats_add c (snd (nth gen generator_table (""%string, getsin_flt)) mpfrtemp_prec phase)
                      (mpfr_sin MPFR_PREC (mpfr_set_flt mpfrtemp_prec phase)) in
  mpfr_number_p (mean c') = false /\ mpfr_number_p (m2 c') = false.
Proof.
  intros SZ Z. cbv zeta. apply stats_add_nonfinite.
  unfold mpfr_set_flt. destruct (float_val phase) as [|a|a|a m e]; try discriminate.
  cbn [mpfr_set]. rewrite SZ. unfold stats_reldiff. cbn [mpfr_abs]. apply mpfr_div_by_zero.
Qed.

Lemma run_passes_poisoned fuel dist k : forall e,
  source_fair fuel -> matrix_shape (stats e) -> (dist < 3)%nat ->
  (forall gen, (gen < 4)%nat -> cell_poisoned (stats e) dist gen) ->
  exists e', run_passes fuel k e = Some e' /\ matrix_shape (stats e') /\
             forall gen, (gen < 4)%nat -> cell_poisoned (stats e') dist gen.
Proof.
  induction k as [|k IH]; intros e F S Hd P.
  - exists e. split; [reflexivity|]. split; assumption.
  - destruct (run_combinations_returns fuel e F S) as (e1 & R & PS).
    destruct (pass_spec_cells fuel e e1 S PS) as (x1 & x2 & x3 & _ & S1 & _ & C).
    cbn [run_passes]. rewrite R. apply IH; try assumption.
    intros g Hg. unfold cell_poisoned. rewrite (C dist g Hd Hg).
    apply stats_add_poisoned. apply (P g Hg).
Qed.

(** X11: a sample equal to zero ruins its row for good.  When the sample a
    pass draws for a distribution is [+0] or [-0], the reference sine is
    zero, and after that pass and after every later pass all four cells of
    that distribution have a mean and an [m2] that are NaN or infinite.
    [getrandom_1] and [getrandom_2] do return [+0]: for the draw 0. *)
Theorem zero_sample_poisons_row (fuel : nat) (e : engine) (xs : list Z) (dist k : nat) :
  source_fair fuel -> mpfr_sin_zero -> matrix_shape (stats e) ->
  pass_phases fuel (randstate e) = Some xs ->
  (dist < 3)%nat -> mpfr_zero_p (float_val (nth dist xs 0)) = true ->
  (exists e', run_passes fuel (S k) e = Some e' /\
              forall gen, (gen < 4)%nat -> cell_poisoned (stats e') dist gen) /\
  (forall st, snd (gmp_urandomm_ui st gt_pid2_int) = 0 ->
              float_val (snd (getrandom_1 st)) = MZero false) /\
  (forall st, snd (gmp_urandomm_ui st gt_pid2_ls23_int) = 0 ->
              float_val (snd (getrandom_2 st)) = MZero false).
Proof.
  intros F SZ S PH Hd Z. split; [|split].
  - destruct (run_combinations_returns fuel e F S) as (e1 & R & PS).
    destruct (pass_spec_cells fuel e e1 S PS) as (x1 & x2 & x3 & PH' & S1 & _ & C).
    rewrite PH in PH'. injection PH' as ->.
    destruct (run_passes_poisoned fuel dist k e1 F S1 Hd) as (e' & RP & _ & P).
    { intros g Hg. unfold cell_poisoned. rewrite (C dist g Hd Hg).
      apply zero_phase_poisons; assumption. }
    exists e'. split; [|assumption]. cbn [run_passes]. rewrite R. assumption.
  - intros st D. rewrite getrandom_1_draw, D. reflexivity.
  - intros st D. rewrite getrandom_2_draw, D. reflexivity.
Qed.

(** ** The labels of the report *)

Lemma report_lines st dist gen : matrix_shape st -> (dist < 3)%nat -> (gen < 4)%nat ->
  List.length (report st) = 72%nat /\
  nth (6 * (4 * dist + gen)) (report st) LBlank
    = LHeader (distribution (cell st dist gen)) (generator (cell st dist gen)) /\
  nth (6 * (4 * dist + gen) + 2) (report st) LBlank = LMean (mean (cell st dist gen)) /\
  nth (6 * (4 * dist + gen) + 3) (report st) LBlank
    = LVariance (fst (stats_variance_stddev (cell st dist gen))) /\
  nth (6 * (4 * dist + gen) + 4) (report st) LBlank
    = LStddev (snd (stats_variance_stddev (cell st dist gen))) /\
  nth (6 * (4 * dist + gen) + 5) (report st) (LSamples 0) = LBlank.
Proof.
  intros S Hd Hg.
  destruct (matrix_shape_cells st S)
    as (a0 & a1 & a2 & a3 & b0 & b1 & b2 & b3 & c0 & c1 & c2 & c3 & ->).
  split; [reflexivity|].
  destruct dist as [|[|[|d]]]; try lia; destruct gen as [|[|[|[|g]]]]; try lia;
    repeat split; reflexivity.
Qed.

Lemma main_init_names : names_ok (stats main_init).
Proof.
  intros d g Hd Hg.
  destruct d as [|[|[|d]]]; try lia; destruct g as [|[|[|[|g]]]]; try lia;
    split; reflexivity.
Qed.

Lemma pass_spec_names fuel e e' : matrix_shape (stats e) -> names_ok (stats e) ->
  pass_spec fuel e = Some e' -> names_ok (stats e').
Proof.
  intros S N E.
  destruct (pass_spec_cells fuel e e' S E) as (x1 & x2 & x3 & _ & _ & _ & C).
  intros d g Hd Hg. rewrite (C d g Hd Hg). apply (N d g Hd Hg).
Qed.

Lemma main_loop_names fuel hup K : source_fair fuel ->
  exists e, main_loop fuel hup K = Some e /\ matrix_shape (stats e) /\ names_ok (stats e).
Proof.
  intros F. unfold main_loop.
  set (step := fun '(k, e) =>
         (N.succ k, match e with Some e => main_iteration fuel (hup k) e | None => None end)).
  enough (G : exists e, N.iter K step (0%N, Some main_init) = (K, Some e) /\
                        matrix_shape (stats e) /\ names_ok (stats e)).
  { destruct G as (e & E & S & C). exists e. rewrite E. auto. }
  induction K as [|K IH] using N.peano_ind.
  - exists main_init. split; [reflexivity|]. split; [apply main_init_shape|apply main_init_names].
  - destruct IH as (e & E & S & C).
    rewrite N.iter_succ, E. cbn [step]. unfold main_iteration.
    destruct (run_combinations_returns fuel e F S) as (e1 & R & PS). rewrite R.
    destruct (pass_spec_cells fuel e e1 S PS) as (x1 & x2 & x3 & _ & S1 & _ & _).
    pose proof (pass_spec_names fuel e e1 S C PS) as C1.
    exists (if hup K then print_all e1 else e1). split; [reflexivity|].
    destruct (hup K); auto.
Qed.

(** X12: whenever it is printed, the final report consists of twelve blocks
    of six lines in the order of the two tables, distributions outermost;
    the block of a pair of distribution and generator is headed by their
    names from the tables and carries the mean of that cell, its variance
    and deviation as [stats_print] computes them, and a blank line. *)
Theorem final_report_layout (fuel : nat) (hup : N -> bool) (K : N) :
  source_fair fuel ->
  exists e, main_loop fuel hup K = Some e /\
    main fuel hup K = Some (stdout e ++ report (stats e)) /\
    List.length (report (stats e)) = 72%nat /\
    forall dist gen, (dist < 3)%nat -> (gen < 4)%nat ->
      nth (6 * (4 * dist + gen)) (report (stats e)) LBlank
        = LHeader (fst (nth dist distribution_table (""%string, fun _ _ => None)))
                  (fst (nth gen generator_table (""%string, getsin_flt))) /\
      nth (6 * (4 * dist + gen) + 2) (report (stats e)) LBlank
        = LMean (mean (cell (stats e) dist gen)) /\
      nth (6 * (4 * dist + gen) + 3) (report (stats e)) LBlank
        = LVariance (fst (stats_variance_stddev (cell (stats e) dist gen))) /\
      nth (6 * (4 * dist + gen) + 4) (report (stats e)) LBlank
        = LStddev (snd (stats_variance_stddev (cell (stats e) dist gen))) /\
      nth (6 * (4 * dist + gen) + 5) (report (stats e)) (LSamples 0) = LBlank.
Proof.
  intros F. destruct (main_loop_names fuel hup K F) as (e & E & S & Nm).
  exists e. split; [assumption|]. split.
  { unfold main. rewrite E. f_equal. apply print_all_stdout. assumption. }
  split; [apply (report_lines (stats e) 0 0 S); lia|].
  intros d g Hd Hg.
  destruct (report_lines (stats e) d g S Hd Hg) as (_ & L0 & L2 & L3 & L4 & L5).
  destruct (Nm d g Hd Hg) as [ND NG].
  rewrite L0, ND, NG. repeat split; assumption.
Qed.

End MorePasses.

Lemma constant_random_fair v : 0 <= v < 0x7F800000 -> @source_fair (constant_random v) 1.
Proof.
  intros R st. exists 0%nat. split; [lia|].
  unfold accepted32. cbn [draws32 gmp_urandomb_ui constant_random snd].
  rewrite Z.mod_small by lia. rewrite uint32_small by lia.
  change (negb (Z.land v 2139095040 =? 2139095040)) with (float_isfinite v).
  rewrite float_isfinite_exp.
  destruct (small_fields v ltac:(lia)) as (_ & E & _). rewrite E.
  apply negb_true_iff, Z.eqb_neq.
  assert (v / 2 ^ 23 < 255) by (apply Z.div_lt_upper_bound; lia). lia.
Qed.

Lemma identity_sines_zero : @mpfr_sin_zero identity_sines.
Proof. intros p s. reflexivity. Qed.

Lemma zero_sample_poisons_row_witness :
  exists e', @run_passes (constant_random 0) identity_sines 1 1
                         (@main_init (constant_random 0) identity_sines) = Some e' /\
             forall gen, (gen < 4)%nat -> cell_poisoned (stats e') 0 gen.
Proof.
  refine (proj1 (@zero_sample_poisons_row (constant_random 0) identity_sines 1
                   (@main_init (constant_random 0) identity_sines)
                   [0; 0; 0] 0 0 (constant_random_fair 0 _) identity_sines_zero
                   (proj1 (@main_init_shape (constant_random 0) identity_sines)) _ _ _)).
  - lia.
  - vm_compute. reflexivity.
  - lia.
  - vm_compute. reflexivity.
Defined.

Lemma final_report_layout_witness :
  exists e, @main_loop replay_random identity_sines 2 (fun _ => false) 3 = Some e /\
            List.length (report (stats e)) = 72%nat.
Proof.
  destruct (@final_report_layout replay_random identity_sines 2 (fun _ => false) 3
              replay_random_fair) as (e & E & _ & L & _).
  exists e. split; assumption.
Defined.

(** * The loop under signals *)

Section MoreSignals.
Context `{GmpRandom} `{SineLibraries}.

(** ** The loop of passes is the loop under SIGHUP arrivals *)

Lemma main_loop_none fuel hup n : forall k,
  snd (N.iter n
         (fun '(k, e) =>
            (N.succ k,
             match e with Some e => main_iteration fuel (hup k) e | None => None end))
         (k, None)) = None.
Proof.
  induction n as [|n IH] using N.peano_ind; intros k; [reflexivity|].
  rewrite N.iter_succ_r. apply IH.
Qed.

Lemma main_signals_hup fuel hup n : forall k e,
  main_signals fuel (hup_arrivals hup k n ++ [[SIGINT]]) AtWhile flags_init e =
  match snd (N.iter (N.of_nat n)
               (fun '(k, e) =>
                  (N.succ k,
                   match e with Some e => main_iteration fuel (hup k) e | None => None end))
               (k, Some e)) with
  | Some e' => Exited 0 (stdout (print_all e'))
  | None => Stuck
  end.
Proof.
  induction n as [|n IH]; intros k e; [reflexivity|].
  rewrite Nat2N.inj_succ, N.iter_succ_r.
  cbn [hup_arrivals app main_signals deliver fold_left running flags_init].
  assert (MI : main_iteration fuel (hup k) e =
               match run_combinations fuel e with
               | Some e1 => Some (if hup k then print_all e1 else e1)
               | None => None
               end) by reflexivity.
  rewrite MI. clear MI.
  destruct (run_combinations fuel e) as [e1|].
  - rewrite <- IH. destruct (hup k); reflexivity.
  - symmetry. erewrite main_loop_none. reflexivity.
Qed.

(** X13: the two flags reduce to the loop of passes.  When SIGHUP arrives
    only while a pass is sampling (during the passes [hup] marks), nothing
    arrives while a report is printed, and SIGINT arrives after [n] passes,
    [main] returns 0 with the output of [n] passes, a report after each
    marked pass and the final report. *)
Theorem main_run_passes (fuel : nat) (hup : N -> bool) (n : nat) :
  main_run fuel (hup_arrivals hup 0 n ++ [[SIGINT]]) =
  match main fuel hup (N.of_nat n) with
  | Some out => Exited 0 out
  | None => Stuck
  end.
Proof.
  unfold main_run, main, main_loop. rewrite main_signals_hup.
  destruct (snd _); reflexivity.
Qed.

(** ** Every report is a snapshot between two passes *)

Lemma report_snoc sts st :
  List.concat (map report sts) ++ report st = List.concat (map report (sts ++ [st])).
Proof. rewrite map_app, concat_app. cbn [map List.concat]. rewrite app_nil_r. reflexivity. Qed.

Lemma run_combinations_snapshot fuel e e' : snapshot (stats e) ->
  run_combinations fuel e = Some e' -> snapshot (stats e') /\ stdout e' = stdout e.
Proof.
  intros [S [v C]] R. rewrite run_combinations_pass in R by assumption.
  destruct (pass_spec_counts fuel e e' v S C R) as (S' & C' & O).
  split; [|assumption]. split; [assumption|]. eauto.
Qed.

Lemma main_signals_snapshots fuel arrivals : forall pt f e sts,
  snapshot (stats e) -> stdout e = List.concat (map report sts) -> Forall snapshot sts ->
  match main_signals fuel arrivals pt f e with
  | Exited status out =>
      status = 0 /\
      exists sts' st, out = List.concat (map report (sts' ++ [st])) /\
                      Forall snapshot (sts' ++ [st])
  | InLoop _ _ e' =>
      snapshot (stats e') /\
      exists sts', stdout e' = List.concat (map report sts') /\ Forall snapshot sts'
  | Stuck => True
  end.
Proof.
  induction arrivals as [|sigs arrivals IH]; intros pt f e sts S O A.
  - cbn [main_signals]. split; [assumption|]. eauto.
  - cbn [main_signals]. destruct pt.
    + destruct (running (deliver sigs f)).
      * destruct (run_combinations fuel e) as [e1|] eqn:R; [|exact I].
        destruct (run_combinations_snapshot fuel e e1 S R) as [S1 O1].
        apply (IH _ _ _ sts); [assumption|congruence|assumption].
      * split; [reflexivity|]. exists sts, (stats e). split.
        -- rewrite (proj1 (print_all_stdout e (proj1 S))), O. apply report_snoc.
        -- apply Forall_app. split; [assumption|]. constructor; [assumption|constructor].
    + destruct (print (deliver sigs f)).
      * apply (IH _ _ _ (sts ++ [stats e])).
        -- rewrite (proj2 (print_all_stdout e (proj1 S))). assumption.
        -- rewrite (proj1 (print_all_stdout e (proj1 S))), O. apply report_snoc.
        -- apply Forall_app. split; [assumption|]. constructor; [assumption|constructor].
      * apply (IH _ _ _ sts); assumption.
    + apply (IH _ _ _ sts); assumption.
Qed.

(** X14: whenever the signals arrive, everything [main] prints is a sequence
    of whole reports, and each of them, a report on SIGHUP or the final one,
    shows the twelve cells between two passes: all at the same count, none
    in the middle of an update.  When [main] returns, it returns 0 and has
    printed the final report. *)
Theorem main_run_snapshots (fuel : nat) (arrivals : list (list signal)) :
  match main_run fuel arrivals with
  | Exited status out =>
      status = 0 /\
      exists sts st, out = List.concat (map report (sts ++ [st])) /\
                     Forall snapshot (sts ++ [st])
  | InLoop _ _ e =>
      snapshot (stats e) /\
      exists sts, stdout e = List.concat (map report sts) /\ Forall snapshot sts
  | Stuck => True
  end.
Proof.
  apply (main_signals_snapshots fuel arrivals AtWhile flags_init main_init []).
  - split; [apply main_init_shape|]. exists 0. apply main_init_shape.
  - reflexivity.
  - constructor.
Qed.

(** ** After SIGINT *)



(** ** Signals are not counted *)

Lemma deliver_flags sigs f :
  deliver sigs f = {| running := running f && negb (existsb is_sigint sigs);
                      print := print f || existsb is_sighup sigs |}.
Proof.
  revert f. induction sigs as [|s sigs IH]; intros f.
  - cbn. rewrite andb_true_r, orb_false_r. destruct f; reflexivity.
  - cbn [deliver fold_left existsb]. fold (deliver sigs (handler s f)). rewrite IH.
    destruct s; cbn [handler running print is_sigint is_sighup negb orb andb].
    + rewrite andb_false_r. reflexivity.
    + rewrite orb_true_r. reflexivity.
Qed.

(** X16: the handlers only set flags, so signals are not counted.  What a
    batch of arrivals does depends only on whether a SIGINT and whether a
    SIGHUP is among them: several SIGHUPs before one test of the flag give
    one report.  And a SIGHUP that arrives while the report is being printed
    is lost: [print = false] follows the report and wipes it out. *)
Theorem main_signals_flags (fuel : nat) (sigs sigs' : list signal)
    (arrivals : list (list signal)) (pt : point) (f : flags) (e : engine) :
  (existsb is_sigint sigs = existsb is_sigint sigs' ->
   existsb is_sighup sigs = existsb is_sighup sigs' ->
   main_signals fuel (sigs :: arrivals) pt f e = main_signals fuel (sigs' :: arrivals) pt f e) /\
  main_signals fuel (sigs :: arrivals) AtPrintStep f e
    = main_signals fuel (filter is_sigint sigs :: arrivals) AtPrintStep f e.
Proof.
  split.
  - intros EI EH. cbn [main_signals]. rewrite (deliver_flags sigs), (deliver_flags sigs'), EI, EH.
    reflexivity.
  - cbn [main_signals]. rewrite (deliver_flags sigs), (deliver_flags (filter is_sigint sigs)).
    cbn [running].
    assert (E : existsb is_sigint (filter is_sigint sigs) = existsb is_sigint sigs).
    { induction sigs as [|s sigs IH]; [reflexivity|]. destruct s; cbn; [reflexivity|exact IH]. }
    rewrite E. reflexivity.
Qed.

(** ** Interrupted before the first pass *)

(** X20: when SIGINT arrives before the first test of [while (running)],
    no sample is drawn and [main] returns 0 after printing the report of
    twelve empty cells: each block shows the count 0, the mean [+0], and NaN
    for the variance and for the deviation, which [stats_print] leaves as
    [MPFR_DECL_INIT] made them. *)
Theorem main_run_interrupted_at_once (fuel : nat) (sigs : list signal)
    (arrivals : list (list signal)) :
  existsb is_sigint sigs = true ->
  main_run fuel (sigs :: arrivals) = Exited 0 (report (stats main_init)) /\
  forall dist gen, (dist < 3)%nat -> (gen < 4)%nat ->
    nth (6 * (4 * dist + gen) + 1) (report (stats main_init)) LBlank = LSamples 0 /\
    nth (6 * (4 * dist + gen) + 2) (report (stats main_init)) LBlank = LMean (MZero false) /\
    nth (6 * (4 * dist + gen) + 3) (report (stats main_init)) LBlank = LVariance MNaN /\
    nth (6 * (4 * dist + gen) + 4) (report (stats main_init)) LBlank = LStddev MNaN.
Proof.
  intros I. split.
  - unfold main_run. cbn [main_signals]. rewrite deliver_flags, I.
    cbn [flags_init running andb negb].
    rewrite (proj1 (print_all_stdout main_init (proj1 main_init_shape))). reflexivity.
  - intros d g Hd Hg.
    destruct d as [|[|[|d]]]; try lia; destruct g as [|[|[|[|g]]]]; try lia;
      repeat split; reflexivity.
Qed.

End MoreSignals.


Lemma main_run_interrupted_at_once_witness :
  @main_run replay_random identity_sines 2 [[SIGHUP; SIGINT]; []]
    = Exited 0 (report (stats (@main_init replay_random identity_sines))).
Proof.
  apply (@main_run_interrupted_at_once replay_random identity_sines 2 [SIGHUP; SIGINT] [[]]).
  reflexivity.
Defined.

(** * Further properties of the generators *)

(** ** The buffer of [getsin_q] *)

Lemma dec_digits_short fuel : forall (k : nat) v, (1 <= k)%nat -> 0 <= v < 10 ^ Z.of_nat k ->
  (List.length (dec_digits fuel v) <= k)%nat.
Proof.
  induction fuel as [|fuel IH]; intros k v Hk R; [cbn; lia|].
  cbn [dec_digits]. destruct (Z.ltb_spec v 10) as [Small|Big]; [cbn; lia|].
  destruct k as [|[|k]]; [lia| |].
  - change (10 ^ Z.of_nat 1) with 10 in R. lia.
  - rewrite length_app. cbn [List.length].
    assert (Q : 0 <= v / 10 < 10 ^ Z.of_nat (S k)).
    { split; [apply Z.div_pos; lia|]. apply Z.div_lt_upper_bound; [lia|].
      rewrite (Nat2Z.inj_succ (S k)), Z.pow_succ_r in R by lia. lia. }
    specialize (IH (S k) (v / 10) ltac:(lia) Q). lia.
Qed.

Lemma printf_Qa_short bits : (List.length (printf_Qa bits) <= 40)%nat.
Proof.
  unfold printf_Qa.
  set (ex := ieee_exp_field binary128 bits). set (frac := ieee_frac_field binary128 bits).
  set (e := if ex =? 0 then if frac =? 0 then 0 else -16382 else ex - 16383).
  assert (XR : 0 <= ex < 2 ^ 15) by (apply (exp_field_range binary128); cbn; lia).
  assert (ER : 0 <= Z.abs e < 10 ^ Z.of_nat 5).
  { unfold e. destruct (ex =? 0); [destruct (frac =? 0)|]; lia. }
  pose proof (dec_digits_short 19 5 (Z.abs e) ltac:(lia) ER) as DL.
  pose proof (drop_trailing_zeros_length (hex_digits 28 frac)) as SL.
  rewrite hex_digits_length in SL.
  rewrite length_app.
  assert (S1 : (List.length (if Z.testbit bits 127 then ["-"%char] else []) <= 1)%nat)
    by (destruct (Z.testbit bits 127); cbn; lia).
  destruct (ex =? 32767).
  - destruct (frac =? 0); cbn [List.length]; lia.
  - rewrite !length_app. cbn [List.length].
    destruct (frac =? 0); cbn [List.length]; lia.
Qed.

(** X17: ["%Qa"] never prints more than 40 characters for a [__float128],
    so the 64 bytes of [s] in [getsin_q] always hold the whole string and
    its terminator.  Forty characters do occur, and a buffer of 40 bytes
    would lose the last digit of the exponent and with it the value. *)
Theorem getsin_q_buffer :
  (forall bits, (List.length (printf_Qa bits) <= 40)%nat /\
                quadmath_snprintf 64 bits = printf_Qa bits) /\
  List.length (printf_Qa float128_longest) = 40%nat /\
  fst (mpfr_set_str mpfrtemp_prec (quadmath_snprintf 64 float128_longest))
    = float128_val float128_longest /\
  fst (mpfr_set_str mpfrtemp_prec (quadmath_snprintf 40 float128_longest))
    <> float128_val float128_longest.
Proof.
  split; [|split; [|split]].
  - intros bits. pose proof (printf_Qa_short bits) as L. split; [assumption|].
    unfold quadmath_snprintf. apply firstn_all2. change (64 - 1)%nat with 63%nat. lia.
  - vm_compute. reflexivity.
  - unfold mpfr_set_str, quadmath_snprintf. rewrite firstn_all2.
    + rewrite printf_Qa_strtofr by (unfold mpfrtemp_prec; lia). reflexivity.
    + change (64 - 1)%nat with 63%nat. pose proof (printf_Qa_short float128_longest). lia.
  - vm_compute. discriminate.
Qed.

(** ** The precision of [mpfrtemp] *)

Lemma float_val_fits p bits : 24 <= p <= 2 ^ 29 -> mpfr_fits p (float_val bits) = true.
Proof.
  intros [L U]. change (2 ^ 29) with 536870912 in U.
  apply ieee_val_fits.
  - discriminate.
  - discriminate.
  - change (24 <= p). assumption.
  - discriminate.
  - change (-149 + 256 + p <= 1073741823). lia.
Qed.

Lemma double_val_fits p bits : 53 <= p <= 2 ^ 29 -> mpfr_fits p (double_val bits) = true.
Proof.
  intros [L U]. change (2 ^ 29) with 536870912 in U.
  apply ieee_val_fits.
  - discriminate.
  - discriminate.
  - change (53 <= p). assumption.
  - discriminate.
  - change (-1074 + 2048 + p <= 1073741823). lia.
Qed.

Section MoreGenerators.
Context `{SineLibraries}.

(** X18: the precision [128+16] of [mpfrtemp] is not critical.  With any
    precision [p] that holds the significand of the native type (24, 53, 64,
    113 bits), the conversion into [mpfrtemp] rounds nothing: each generator
    leaves the number its native sine returned, and the reference sine is
    taken at exactly the sampled [float]. *)
Theorem mpfrtemp_precision (p : Z) (phase : Z) :
  p <= 2 ^ 29 ->
  (24 <= p -> mpfr_set_flt p phase = float_val phase /\
              getsin_flt p phase = float_val (sinf phase)) /\
  (53 <= p -> getsin_d p phase = double_val (sin (double_of_float phase))) /\
  (64 <= p -> getsin_ld p phase = long_double_val (sinl (long_double_of_float phase))) /\
  (113 <= p -> getsin_q p phase = float128_val (sinq (float128_of_float phase))).
Proof.
  intros Hp.
  split; [|split; [|split]]; intros Lp.
  - split; unfold getsin_flt, mpfr_set_flt; apply mpfr_set_fits;
      apply float_val_fits; lia.
  - unfold getsin_d, mpfr_set_d. apply mpfr_set_fits.
    apply double_val_fits; lia.
  - unfold getsin_ld, mpfr_set_ld. apply mpfr_set_fits.
    apply long_double_val_fits; lia.
  - unfold getsin_q, mpfr_set_str. rewrite quadmath_snprintf_all.
    rewrite printf_Qa_strtofr by lia. reflexivity.
Qed.

End MoreGenerators.

Lemma mpfrtemp_precision_witness :
  (24 <= 113 -> mpfr_set_flt 113 0x3F000000 = float_val 0x3F000000 /\
                @getsin_flt identity_sines 113 0x3F000000
                  = float_val (@sinf identity_sines 0x3F000000)) /\
  (53 <= 113 -> @getsin_d identity_sines 113 0x3F000000
                = double_val (@sin identity_sines (double_of_float 0x3F000000))) /\
  (64 <= 113 -> @getsin_ld identity_sines 113 0x3F000000
                = long_double_val (@sinl identity_sines (long_double_of_float 0x3F000000))) /\
  (113 <= 113 -> @getsin_q identity_sines 113 0x3F000000
                 = float128_val (@sinq identity_sines (float128_of_float 0x3F000000))).
Proof.
  apply (@mpfrtemp_precision identity_sines 113 0x3F000000). lia.
Defined.

(** * The casts of the sampled float *)

(** ** Packing and unpacking the fields of a format *)

Section Format.
Variable f : ieee_format.
Hypothesis He : 2 <= ebits f.
Hypothesis Hm : 1 <= mbits f.

Lemma ieee_fields_sum ex fr k :
  0 <= ex < 2 ^ ebits f -> 0 <= fr < 2 ^ mbits f -> 0 <= k <= 1 ->
  let bits := fr + (ex + k * 2 ^ ebits f) * 2 ^ mbits f in
  (bits / 2 ^ (ebits f + mbits f)) mod 2 = k /\
  ieee_exp_field f bits = ex /\ ieee_frac_field f bits = fr.
Proof.
  intros Rx Rf Rk. cbv zeta.
  pose proof (Z.pow_pos_nonneg 2 (mbits f) ltac:(lia) ltac:(lia)) as Pm.
  pose proof (Z.pow_pos_nonneg 2 (ebits f) ltac:(lia) ltac:(lia)) as Pe.
  assert (D : (fr + (ex + k * 2 ^ ebits f) * 2 ^ mbits f) / 2 ^ mbits f = ex + k * 2 ^ ebits f).
  { rewrite Z.div_add by lia. rewrite Z.div_small by lia. lia. }
  split; [|split].
  - rewrite (Z.add_comm (ebits f)), Z.pow_add_r by lia.
    rewrite <- Z.div_div by lia. rewrite D.
    rewrite Z.div_add by lia. rewrite Z.div_small by lia.
    apply Z.mod_small. lia.
  - unfold ieee_exp_field. rewrite Z.shiftr_div_pow2, Z.land_ones by lia.
    rewrite D. rewrite Z.mod_add by lia. apply Z.mod_small. assumption.
  - unfold ieee_frac_field. rewrite Z.land_ones by lia.
    rewrite Z.mod_add by lia. apply Z.mod_small. assumption.
Qed.

Lemma ieee_fields (s : bool) ex fr :
  0 <= ex < 2 ^ ebits f -> 0 <= fr < 2 ^ mbits f ->
  let bits := ex * 2 ^ mbits f + fr + (if s then ieee_sign_bit f else 0) in
  Z.testbit bits (ebits f + mbits f) = s /\
  ieee_exp_field f bits = ex /\ ieee_frac_field f bits = fr.
Proof.
  intros Rx Rf. cbv zeta.
  assert (SB : ieee_sign_bit f = 2 ^ ebits f * 2 ^ mbits f)
    by (unfold ieee_sign_bit; apply Z.pow_add_r; lia).
  destruct s.
  - destruct (ieee_fields_sum ex fr 1 Rx Rf ltac:(lia)) as (T & X & F). cbv zeta in T, X, F.
    replace (ex * 2 ^ mbits f + fr + ieee_sign_bit f)
      with (fr + (ex + 1 * 2 ^ ebits f) * 2 ^ mbits f) by (rewrite SB; ring).
    split; [|split; assumption]. apply Z.testbit_true; [lia|assumption].
  - destruct (ieee_fields_sum ex fr 0 Rx Rf ltac:(lia)) as (T & X & F). cbv zeta in T, X, F.
    replace (ex * 2 ^ mbits f + fr + 0)
      with (fr + (ex + 0 * 2 ^ ebits f) * 2 ^ mbits f) by ring.
    split; [|split; assumption]. apply Z.testbit_false; [lia|assumption].
Qed.

(** A number with at most [mbits + 1] significant bits, no bit below the
    last fraction bit of the subnormal numbers and a magnitude below
    [2^(2^(ebits-1))] is a number of the format: rounding it into the format
    and reading the pattern back returns it. *)
Lemma ieee_round_exact (s : bool) N0 e0 :
  0 < N0 < 2 ^ (mbits f + 1) -> ieee_emin f <= e0 ->
  e0 + Z.log2 N0 + 1 <= 2 ^ (ebits f - 1) ->
  ieee_val f (ieee_round f s (inject_Z N0 * pow2 e0)) = mk_fin s N0 e0.
Proof.
  intros [N0p N0u] He0 Hmag.
  destruct N0 as [|m|m]; try lia.
  destruct (Z.log2_spec (Zpos m) ltac:(lia)) as [LL LU].
  pose proof (Z.log2_nonneg (Zpos m)) as L0.
  set (L := Z.log2 (Zpos m)) in *.
  set (mb := mbits f) in *. set (eb := ebits f) in *.
  pose proof (Z.pow_pos_nonneg 2 mb ltac:(lia) ltac:(lia)) as Pm.
  pose proof (Z.pow_pos_nonneg 2 (eb - 1) ltac:(lia) ltac:(lia)) as Pe1.
  assert (PE : 2 ^ eb = 2 * 2 ^ (eb - 1)).
  { replace eb with (Z.succ (eb - 1)) at 1 by lia. apply Z.pow_succ_r. lia. }
  assert (PM1 : 2 ^ (mb + 1) = 2 * 2 ^ mb) by (apply Z.pow_succ_r; lia).
  assert (P4 : 2 <= 2 ^ (eb - 1)).
  { change 2 with (2 ^ 1) at 1. apply Z.pow_le_mono_r; lia. }
  assert (Lm : L <= mb).
  { destruct (Z_le_gt_dec L mb); [assumption|].
    assert (2 ^ (mb + 1) <= 2 ^ L) by (apply Z.pow_le_mono_r; lia). lia. }
  assert (EM : ieee_emin f = 2 - 2 ^ (eb - 1) - mb) by (unfold ieee_emin, ieee_bias; fold eb mb; lia).
  set (emin := ieee_emin f) in *.
  unfold ieee_round. rewrite Qmag_dyadic. fold L mb emin.
  set (e := Z.max (e0 + L + 1 - (mb + 1)) emin).
  assert (Ee : e <= e0) by lia.
  assert (S : (inject_Z (Z.pos m) * pow2 e0 / pow2 e == inject_Z (Zpos m * 2 ^ (e0 - e)))%Q).
  { rewrite inject_Z_mult, <- pow2_Z by lia.
    unfold Qdiv. rewrite <- Qmult_assoc. apply Qmult_comp; [reflexivity|].
    fold (Qdiv (pow2 e0) (pow2 e)). rewrite <- pow2_sub. reflexivity. }
  rewrite (Qrne_comp _ _ S), Qrne_Z.
  set (k := e0 - e) in *. set (N := Zpos m * 2 ^ k).
  assert (Kp : 0 < 2 ^ k) by (apply Z.pow_pos_nonneg; lia).
  assert (NB : 0 < N < 2 ^ (mb + 1) /\ (emin < e -> 2 ^ mb <= N) /\ (N < 2 ^ mb -> e = emin)).
  { unfold N. destruct (Z.max_spec (e0 + L + 1 - (mb + 1)) emin) as [[C ME]|[C ME]]; fold e in ME.
    - (* e = emin *)
      assert (KL : L + 1 + k <= mb) by lia.
      assert (U : Zpos m * 2 ^ k < 2 ^ (L + 1) * 2 ^ k) by (apply Z.mul_lt_mono_pos_r; lia).
      rewrite <- Z.pow_add_r in U by lia.
      assert (2 ^ (L + 1 + k) <= 2 ^ mb) by (apply Z.pow_le_mono_r; lia).
      repeat split; try lia; nia.
    - (* e = e0 + L - mb *)
      assert (KL : k = mb - L) by lia.
      assert (U : Zpos m * 2 ^ k < 2 ^ (L + 1) * 2 ^ k) by (apply Z.mul_lt_mono_pos_r; lia).
      rewrite <- Z.pow_add_r in U by lia. replace (L + 1 + k) with (mb + 1) in U by lia.
      assert (Lw : 2 ^ L * 2 ^ k <= Zpos m * 2 ^ k) by (apply Z.mul_le_mono_nonneg_r; lia).
      rewrite <- Z.pow_add_r in Lw by lia. replace (L + k) with mb in Lw by lia.
      repeat split; try lia; nia. }
  destruct NB as ((Np & Nu) & Nn & Ns).
  assert (ER : 0 <= e - emin <= 2 ^ eb - 3) by lia.
  assert (INF : ieee_inf f = (2 ^ eb - 1) * 2 ^ mb) by reflexivity.
  assert (BR : (e - emin) * 2 ^ mb + N < ieee_inf f) by (rewrite INF; nia).
  destruct (Z.leb_spec (ieee_inf f) ((e - emin) * 2 ^ mb + N)) as [C|_]; [lia|].
  assert (T : mk_fin s N e = mk_fin s (Zpos m) e0).
  { unfold N. rewrite mk_fin_shift by lia. f_equal. lia. }
  assert (ON : Z.ones eb = 2 ^ eb - 1) by (rewrite Z.ones_equiv; lia).
  destruct (Z_lt_ge_dec N (2 ^ mb)) as [Small|Big].
  - specialize (Ns Small).
    destruct (ieee_fields s 0 N ltac:(fold eb; lia) ltac:(fold mb; lia)) as (Sg & Ex & Fr).
    cbv zeta in Sg, Ex, Fr.
    replace ((e - emin) * 2 ^ mb + N + (if s then ieee_sign_bit f else 0))
      with (0 * 2 ^ mbits f + N + (if s then ieee_sign_bit f else 0)) by (fold mb; nia).
    unfold ieee_val. rewrite Sg, Ex, Fr. fold eb emin. rewrite ON.
    destruct (Z.eqb_spec 0 (2 ^ eb - 1)) as [C|_]; [lia|].
    cbn [Z.eqb]. rewrite <- T, Ns. reflexivity.
  - destruct (ieee_fields s (e - emin + 1) (N - 2 ^ mb) ltac:(fold eb; lia) ltac:(fold mb; lia))
      as (Sg & Ex & Fr).
    cbv zeta in Sg, Ex, Fr.
    replace ((e - emin) * 2 ^ mb + N + (if s then ieee_sign_bit f else 0))
      with ((e - emin + 1) * 2 ^ mbits f + (N - 2 ^ mb) + (if s then ieee_sign_bit f else 0))
      by (fold mb; ring).
    unfold ieee_val. rewrite Sg, Ex, Fr. fold eb emin mb. rewrite ON.
    destruct (Z.eqb_spec (e - emin + 1) (2 ^ eb - 1)) as [C|_]; [lia|].
    destruct (Z.eqb_spec (e - emin + 1) 0) as [C|_]; [lia|].
    rewrite <- T. f_equal; lia.
Qed.

End Format.

(** ** A float in a wider format *)

Lemma Qabs_toQ_mk_fin s N e : 0 <= N -> (Qabs (toQ (mk_fin s N e)) == inject_Z N * pow2 e)%Q.
Proof.
  intros HN. rewrite (Qabs_wd _ _ (toQ_mk_fin_nonneg s N e HN)).
  assert (P : (0 <= inject_Z N * pow2 e)%Q).
  { apply Qmult_le_0_compat; [rewrite <- (Zle_Qle 0); assumption|].
    apply Qlt_le_weak, pow2_pos. }
  destruct s; cbn [sgnQ].
  - rewrite Qabs_neg by lra. ring.
  - rewrite Qabs_pos by lra. ring.
Qed.

Lemma mk_fin_pos_value N e : 0 < N -> (0 < inject_Z N * pow2 e)%Q.
Proof.
  intros HN. apply Qmult_lt_0_compat; [rewrite <- (Zlt_Qlt 0); assumption|apply pow2_pos].
Qed.

(** The values of the floats: the specials, and the numbers of at most 24
    bits between [2^-149] and [2^128]. *)
Lemma float_val_shape x :
  float_val x = MNaN \/ (exists s, float_val x = MInf s) \/
  exists s N e, float_val x = mk_fin s N e /\ 0 <= N < 2 ^ 24 /\ -149 <= e /\
                (0 < N -> e + Z.log2 N + 1 <= 128).
Proof.
  unfold float_val, ieee_val.
  pose proof (exp_field_range binary32 x ltac:(discriminate)) as XR.
  pose proof (frac_field_range binary32 x ltac:(discriminate)) as FR.
  change (ebits binary32) with 8 in XR. change (mbits binary32) with 23 in FR.
  change (Z.ones (ebits binary32)) with 255. change (ieee_emin binary32) with (-149).
  change (mbits binary32) with 23.
  set (ex := ieee_exp_field binary32 x) in *. set (fr := ieee_frac_field binary32 x) in *.
  set (s := Z.testbit x (ebits binary32 + 23)).
  destruct (Z.eqb_spec ex 255) as [E|NE].
  - destruct (fr =? 0); [right; left; eauto|left; reflexivity].
  - right. right. destruct (Z.eqb_spec ex 0) as [E0|NE0].
    + exists s, fr, (-149). split; [reflexivity|]. split; [lia|]. split; [lia|].
      intros P. assert (Z.log2 fr < 23) by (apply Z.log2_lt_pow2; lia). lia.
    + exists s, (2 ^ 23 + fr), (ex - 1 + -149). split; [reflexivity|]. split; [lia|].
      split; [lia|]. intros _.
      assert (Z.log2 (2 ^ 23 + fr) < 24) by (apply Z.log2_lt_pow2; lia). lia.
Qed.

Section Widening.
Variable f : ieee_format.
Hypothesis He : 2 <= ebits f.
Hypothesis Hm : 1 <= mbits f.

Lemma ieee_of_val_mk_fin s N e :
  0 <= N < 2 ^ (mbits f + 1) -> ieee_emin f <= e ->
  (0 < N -> e + Z.log2 N + 1 <= 2 ^ (ebits f - 1)) ->
  ieee_val f (ieee_of_val f (mk_fin s N e)) = mk_fin s N e.
Proof.
  intros [N0 NU] E M.
  pose proof (Z.pow_pos_nonneg 2 (mbits f) ltac:(lia) ltac:(lia)) as Pm.
  pose proof (Z.pow_pos_nonneg 2 (ebits f) ltac:(lia) ltac:(lia)) as Pe.
  destruct (Z.eq_dec N 0) as [->|NZ].
  - cbn [mk_fin ieee_of_val].
    destruct (ieee_fields f He Hm s 0 0 ltac:(lia) ltac:(lia)) as (Sg & Ex & Fr).
    cbv zeta in Sg, Ex, Fr.
    replace (if s then ieee_sign_bit f else 0)
      with (0 * 2 ^ mbits f + 0 + (if s then ieee_sign_bit f else 0)) by lia.
    unfold ieee_val. rewrite Sg, Ex, Fr, Z.ones_equiv.
    destruct (Z.eqb_spec 0 (Z.pred (2 ^ ebits f))) as [C|_].
    { assert (2 <= 2 ^ ebits f).
      { change 2 with (2 ^ 1) at 1. apply Z.pow_le_mono_r; lia. }
      lia. }
    reflexivity.
  - destruct (mk_fin_pos_regular s N e ltac:(lia)) as (m' & e' & R).
    pose proof (Qabs_toQ_mk_fin s N e ltac:(lia)) as V. rewrite R in V.
    rewrite R at 1. cbn [ieee_of_val].
    rewrite (ieee_round_comp f s _ (inject_Z N * pow2 e)); [|rewrite V; apply mk_fin_pos_value; lia|exact V].
    apply ieee_round_exact; try assumption; try lia; apply M; lia.
Qed.

End Widening.

Lemma double_of_float_exact x : double_val (double_of_float x) = float_val x.
Proof.
  unfold double_of_float, double_val.
  destruct (float_val_shape x) as [E|[[s E]|(s & N & e & E & NR & ER & M)]]; rewrite E.
  - vm_compute. reflexivity.
  - destruct s; vm_compute; reflexivity.
  - apply ieee_of_val_mk_fin; try discriminate.
    + change (2 ^ (mbits binary64 + 1)) with (2 ^ 24 * 2 ^ 29). lia.
    + change (ieee_emin binary64) with (-1074). lia.
    + intros P. specialize (M P). change (2 ^ (ebits binary64 - 1)) with 1024. lia.
Qed.

Lemma float128_of_float_exact x : float128_val (float128_of_float x) = float_val x.
Proof.
  unfold float128_of_float, float128_val.
  destruct (float_val_shape x) as [E|[[s E]|(s & N & e & E & NR & ER & M)]]; rewrite E.
  - vm_compute. reflexivity.
  - destruct s; vm_compute; reflexivity.
  - apply ieee_of_val_mk_fin; try discriminate.
    + change (2 ^ (mbits binary128 + 1)) with (2 ^ 24 * 2 ^ 89). lia.
    + change (ieee_emin binary128) with (-16494). lia.
    + intros P. specialize (M P). change (2 ^ (ebits binary128 - 1)) with 16384. lia.
Qed.

(** ** A float as a [long double] *)

Lemma long_double_round_comp s x y : (0 < x)%Q -> (x == y)%Q ->
  long_double_round s x = long_double_round s y.
Proof.
  intros Hx E. unfold long_double_round. rewrite <- (Qmag_comp x y Hx E).
  assert (E2 : (x / pow2 (Z.max (Qmag x - 64) (1 - 16383 - 63))
               == y / pow2 (Z.max (Qmag x - 64) (1 - 16383 - 63)))%Q)
    by (apply Qmult_comp; [assumption | reflexivity]).
  rewrite (Qrne_comp _ _ E2). reflexivity.
Qed.

Lemma long_double_round_float (s : bool) N0 e0 :
  0 < N0 < 2 ^ 24 -> -149 <= e0 -> e0 + Z.log2 N0 + 1 <= 128 ->
  long_double_val (long_double_round s (inject_Z N0 * pow2 e0)) = mk_fin s N0 e0.
Proof.
  intros [N0p N0u] He0 Hmag.
  destruct N0 as [|m|m]; try lia.
  destruct (Z.log2_spec (Zpos m) ltac:(lia)) as [LL LU].
  pose proof (Z.log2_nonneg (Zpos m)) as L0.
  set (L := Z.log2 (Zpos m)) in *.
  assert (L23 : L <= 23).
  { destruct (Z_le_gt_dec L 23); [assumption|].
    assert (2 ^ 24 <= 2 ^ L) by (apply Z.pow_le_mono_r; lia). lia. }
  unfold long_double_round. rewrite Qmag_dyadic. fold L.
  change (1 - 16383 - 63) with (-16445).
  replace (Z.max (e0 + L + 1 - 64) (-16445)) with (e0 + L - 63) by lia.
  set (e := e0 + L - 63).
  assert (S : (inject_Z (Z.pos m) * pow2 e0 / pow2 e == inject_Z (Zpos m * 2 ^ (e0 - e)))%Q).
  { rewrite inject_Z_mult, <- pow2_Z by lia.
    unfold Qdiv. rewrite <- Qmult_assoc. apply Qmult_comp; [reflexivity|].
    fold (Qdiv (pow2 e0) (pow2 e)). rewrite <- pow2_sub. reflexivity. }
  rewrite (Qrne_comp _ _ S), Qrne_Z.
  set (k := e0 - e) in *. set (N := Zpos m * 2 ^ k).
  assert (KL : k = 63 - L) by lia.
  assert (Kp : 0 < 2 ^ k) by (apply Z.pow_pos_nonneg; lia).
  assert (U : N < 2 ^ 64).
  { assert (U : Zpos m * 2 ^ k < 2 ^ (L + 1) * 2 ^ k) by (apply Z.mul_lt_mono_pos_r; lia).
    rewrite <- Z.pow_add_r in U by lia. replace (L + 1 + k) with 64 in U by lia. exact U. }
  assert (Lw : 2 ^ 63 <= N).
  { assert (Lw : 2 ^ L * 2 ^ k <= Zpos m * 2 ^ k) by (apply Z.mul_le_mono_nonneg_r; lia).
    rewrite <- Z.pow_add_r in Lw by lia. replace (L + k) with 63 in Lw by lia. exact Lw. }
  destruct (Z.eqb_spec N (2 ^ 64)) as [C|_]; [lia|].
  destruct (Z.ltb_spec N (2 ^ 63)) as [C|_]; [lia|].
  change (Z.ones 15) with 32767.
  destruct (Z.leb_spec 32767 (e + 16383 + 63)) as [C|_]; [lia|].
  assert (T : mk_fin s N e = mk_fin s (Zpos m) e0).
  { unfold N. rewrite mk_fin_shift by lia. f_equal. lia. }
  destruct (ieee_fields x87_fields ltac:(cbn; lia) ltac:(cbn; lia) s (e + 16383 + 63) N
              ltac:(change (2 ^ ebits x87_fields) with 32768; lia)
              ltac:(change (2 ^ mbits x87_fields) with (2 ^ 64); lia)) as (Sg & Ex & Fr).
  cbv zeta in Sg, Ex, Fr.
  change (ieee_sign_bit x87_fields) with (2 ^ 79) in Sg, Ex, Fr.
  change (mbits x87_fields) with 64 in Sg, Ex, Fr.
  change (ebits x87_fields + 64) with 79 in Sg.
  unfold ieee_exp_field in Ex. unfold ieee_frac_field in Fr.
  change (mbits x87_fields) with 64 in Ex, Fr. change (ebits x87_fields) with 15 in Ex.
  change (Z.ones 15) with 32767 in Ex.
  unfold long_double_val. change (Z.ones 15) with 32767.
  rewrite Sg, Ex, Fr.
  destruct (Z.eqb_spec (e + 16383 + 63) 32767) as [C|_]; [lia|].
  rewrite <- T. f_equal. lia.
Qed.

Lemma long_double_of_float_exact x : long_double_val (long_double_of_float x) = float_val x.
Proof.
  unfold long_double_of_float.
  destruct (float_val_shape x) as [E|[[s E]|(s & N & e & E & NR & ER & M)]]; rewrite E.
  - vm_compute. reflexivity.
  - destruct s; vm_compute; reflexivity.
  - destruct (Z.eq_dec N 0) as [->|NZ].
    + cbn [mk_fin]. destruct s; vm_compute; reflexivity.
    + destruct (mk_fin_pos_regular s N e ltac:(lia)) as (m' & e' & R).
      pose proof (Qabs_toQ_mk_fin s N e ltac:(lia)) as V. rewrite R in V.
      rewrite R.
      rewrite (long_double_round_comp s _ (inject_Z N * pow2 e));
        [|rewrite V; apply mk_fin_pos_value; lia|exact V].
      rewrite <- R. apply long_double_round_float; try lia; apply M; lia.
Qed.

(** ** All four sines are taken at the sampled float *)

(** X19: the casts [(double) phase], [(long double) phase] and
    [(__float128) phase] of the generators are exact for every [float],
    zeros, denormals, infinities and NaN included: each native sine is
    evaluated at the argument [sinf] gets, the number the reference sine is
    computed for. *)
Theorem phase_casts_exact (phase : Z) :
  double_val (double_of_float phase) = float_val phase /\
  long_double_val (long_double_of_float phase) = float_val phase /\
  float128_val (float128_of_float phase) = float_val phase /\
  mpfr_set_flt mpfrtemp_prec phase = float_val phase.
Proof.
  split; [apply double_of_float_exact|]. split; [apply long_double_of_float_exact|].
  split; [apply float128_of_float_exact|].
  unfold mpfr_set_flt. apply mpfr_set_fits, float_val_fits. unfold mpfrtemp_prec. lia.
Qed.
